(** * download-bing-photos.cjs: a shallow embedding and its properties

    The script [scripts/download-bing-photos.cjs] collects Bing "image of
    the day" descriptors over day offsets and markets, downloads each one
    under a byte ceiling, re-encodes files that exceed the storage budget
    and writes [1.jpg], [2.jpg], ... into the output directory.

    Everything the script cannot decide by itself (whether the output
    directory can be made, what the archive answers, what an image host
    sends and how the transfer ends, what sharp reads and produces) is a
    field of the record [world]; the script's own control flow is
    transcribed function by function. *)

From stdpp Require Import base numbers list strings pretty gmap sorting.
From Stdlib Require Import NArith Lia Ascii.

Local Open Scope N_scope.

(** ** Values of the runtime *)

(** A [Buffer]; [blen] is its [.length]. *)
Abbreviation Buffer := (list Byte.byte).

Definition blen (b : Buffer) : N := N.of_nat (length b).

(** [Buffer.concat(chunks)]. *)
Definition Buffer_concat (chunks : list Buffer) : Buffer := concat chunks.

(** The files of [OUTPUT_DIR], by file name. *)
Abbreviation Disk := (gmap string Buffer).

(** The state of a promise when nothing more can happen to it: a promise
    whose [resolve] and [reject] are never called stays [Pending]. *)
Inductive promise (A : Type) : Type :=
  | Pending
  | Resolved (a : A)
  | Rejected (err : string).
Arguments Pending {A}.
Arguments Resolved {A} a.
Arguments Rejected {A} err.

(** JavaScript truthiness of a property that holds a string or is absent:
    [undefined], [null] and the empty string are falsy. *)
Definition truthy (v : option string) : option string :=
  match v with
  | Some s => if decide (s = "") then None else Some s
  | None => None
  end.

(** ** Constants (lines 7-19) *)

Definition TARGET_COUNT : nat := 50.
Definition MAX_BYTES : N := 500 * 1024.
Definition MAX_DOWNLOAD_BYTES : N := 10 * 1024 * 1024.
Definition MARKETS : list string :=
  [ "zh-CN"; "en-US"; "en-GB"; "ja-JP"; "de-DE"; "fr-FR"; "it-IT"; "es-ES"; "pt-BR"; "pt-PT";
    "ko-KR"; "zh-TW"; "ru-RU"; "nl-NL"; "sv-SE"; "da-DK"; "fi-FI"; "no-NO"; "pl-PL"; "tr-TR";
    "th-TH"; "id-ID"; "vi-VN"; "hi-IN"; "ar-SA"; "he-IL"; "cs-CZ"; "hu-HU"; "el-GR"; "ro-RO";
    "uk-UA"; "bg-BG" ].
Definition BATCH_SIZE : nat := 1.
Definition SIZE_CANDIDATES : list string := [ "800x600"; "640x480"; "400x240" ].
Definition MAX_FETCH_DAYS : nat := 8.

(** ** The network, as the script sees it *)

(** How a response tells where its body ends.  With a [content-length]
    header the parser hands over the bytes announced and no more, and the
    message is complete once they have all come: [missing] counts the
    announced bytes that never arrive (the host stops short, the
    connection is cut or it hangs).  Without the header (chunked, or
    delimited by the close of the connection) the message either comes to
    its end, which Node parses in one read off the socket with the last
    [together] chunks of the body (none of them when the end comes in a
    read of its own), or it never does. *)
Inductive framing :=
  | Announced (missing : N)
  | Unannounced (together : nat)
  | Unfinished.

(** An HTTP response as [https.get] hands it to its callback: the status
    code, the framing, and the body as the chunks of the ['data'] events
    that a listener gets who listens for as long as chunks come. *)
Record response := {
  statusCode : N;
  frame : framing;
  body : list Buffer;
}.

(** [Number(res.headers['content-length'])], when the header is there
    (Node's parser only lets a decimal number through, so a present header
    is a truthy string): the bytes of the body and the missing ones. *)
Definition content_length (res : response) : option N :=
  match frame res with
  | Announced missing => Some (blen (Buffer_concat (body res)) + missing)
  | Unannounced _ | Unfinished => None
  end.

(** The message is complete: ['end'] is emitted after the last chunk. *)
Definition complete (res : response) : bool :=
  match frame res with
  | Announced missing => missing =? 0
  | Unannounced _ => true
  | Unfinished => false
  end.

(** The end of the message is parsed in one read with chunk [k] of the
    body (counted from 1). *)
Definition end_parsed_with (res : response) (k : nat) : bool :=
  match frame res with
  | Announced missing => (missing =? 0) && (length (body res) <=? k)%nat
  | Unannounced together => (length (body res) - together <? k)%nat
  | Unfinished => false
  end.

(** [https.get]: the request fails (['error'] on the request) or a
    response arrives. *)
Inductive http_get :=
  | ConnError (msg : string)
  | Response (res : response).

(** What became of a response body.  [res.resume()] switches the stream to
    flowing mode with no listener: the body is read as far as it comes and
    thrown away.  [res.destroy()], called in the ['data'] listener of chunk
    [delivered], tears the connection down: nothing that has not been read
    off the socket yet will be, and ['aborted'] and ['close'] follow, for
    which the script has no listener.  What Node had already parsed stays:
    if the end of the message came in the same read as that chunk, ['end']
    is still emitted after the call.  [Starved]: every chunk was handed
    over and ['end'] never followed, the message being incomplete. *)
Inductive stream_fate :=
  | NoStream
  | Drained
  | Destroyed (delivered : nat)
  | Ended
  | Starved.

(** Bytes of the body that the script let in: drained, or handed to the
    ['data'] listener up to the end of the body or to the call of
    [res.destroy()]. *)
Definition bytes_read (f : stream_fate) (body : list Buffer) : N :=
  match f with
  | NoStream => 0
  | Drained | Ended | Starved => blen (Buffer_concat body)
  | Destroyed k => blen (Buffer_concat (take k body))
  end.

(** ** downloadWithLimit (lines 44-83) *)

(** [{ ok: true, bytes }] or [{ ok: false, reason }]. *)
Inductive download_result :=
  | DlOk (bytes : N)
  | DlFail (reason : string).

Definition ok (r : download_result) : bool :=
  match r with DlOk _ => true | DlFail _ => false end.

(** The variables the two listeners close over (lines 59-61). *)
Record listener := {
  chunks : list Buffer;
  total : N;
  aborted : bool;
}.

(** One run of [downloadWithLimit]: the promise, the disk and the stream. *)
Record download_run := {
  dl_promise : promise download_result;
  dl_disk : Disk;
  dl_fate : stream_fate;
}.

(** The ['data'] listener (lines 62-70); the flag says [res.destroy()]
    was called. *)
Definition on_data (maxBytes : N) (chunk : Buffer) (l : listener) : listener * bool :=
  let total' := total l + blen chunk in
  if maxBytes <? total'
  then ({| chunks := chunks l; total := total'; aborted := true |}, true)
  else ({| chunks := chunks l ++ [chunk]; total := total'; aborted := aborted l |}, false).

(** The ['end'] listener (lines 71-80); [fs.writeFile] into the output
    directory is taken to succeed. *)
Definition on_end (dest : string) (l : listener) (fs : Disk) : promise download_result * Disk :=
  if aborted l
  then (Resolved (DlFail "too-large"), fs)
  else (Resolved (DlOk (total l)), <[dest := Buffer_concat (chunks l)]> fs).

(** The stream of [res] feeds the listeners: a ['data'] event for each
    chunk in order, and ['end'] after the last one when the message is
    complete; when it is not, nothing follows the last chunk and the
    promise is never settled.  Once the listener has destroyed the stream,
    ['end'] is emitted only if it was parsed in one read with the chunk at
    hand, and the listener of ['end'] then finds [aborted] set; ['data']
    events that may still come for chunks of that read find [total] over
    the limit and push nothing.  [delivered] counts the ['data'] events. *)
Fixpoint emit (res : response) (dest : string) (maxBytes : N) (chunks_left : list Buffer)
    (delivered : nat) (l : listener) (fs : Disk) : download_run :=
  match chunks_left with
  | [] =>
      if complete res
      then
        let '(p, fs') := on_end dest l fs in
        {| dl_promise := p; dl_disk := fs'; dl_fate := Ended |}
      else {| dl_promise := Pending; dl_disk := fs; dl_fate := Starved |}
  | chunk :: rest =>
      let '(l', destroy) := on_data maxBytes chunk l in
      if destroy
      then
        if end_parsed_with res (S delivered)
        then
          let '(p, fs') := on_end dest l' fs in
          {| dl_promise := p; dl_disk := fs'; dl_fate := Destroyed (S delivered) |}
        else {| dl_promise := Pending; dl_disk := fs; dl_fate := Destroyed (S delivered) |}
      else emit res dest maxBytes rest (S delivered) l' fs
  end.

(** The callback of [https.get] (lines 47-81). *)
Definition on_response (dest : string) (maxBytes : N) (res : response) (fs : Disk)
    : download_run :=
  if negb (statusCode res =? 200)
  then {| dl_promise := Resolved (DlFail ("status:" +:+ pretty (statusCode res)));
          dl_disk := fs; dl_fate := Drained |}
  else
    match content_length res with
    | Some n =>
        if maxBytes <? n
        then {| dl_promise := Resolved (DlFail "too-large"); dl_disk := fs; dl_fate := Drained |}
        else emit res dest maxBytes (body res) 0
               {| chunks := []; total := 0; aborted := false |} fs
    | None =>
        emit res dest maxBytes (body res) 0
          {| chunks := []; total := 0; aborted := false |} fs
    end.

Definition downloadWithLimit (reply : http_get) (dest : string) (maxBytes : N) (fs : Disk)
    : download_run :=
  match reply with
  | ConnError msg => {| dl_promise := Rejected msg; dl_disk := fs; dl_fate := NoStream |}
  | Response res => on_response dest maxBytes res fs
  end.

(** ** URLs (lines 85-89) *)

Definition buildArchiveUrl (idx n : nat) (market : string) : string :=
  "https://www.bing.com/HPImageArchive.aspx?format=js&idx=" +:+ pretty idx
    +:+ "&n=" +:+ pretty n +:+ "&mkt=" +:+ market.

(** A template literal prints [null] as the text [null]. *)
Definition buildImageUrl (urlBase : option string) (size : string) : string :=
  "https://www.bing.com" +:+ default "null" urlBase +:+ "_" +:+ size +:+ ".jpg".

(** ** The archive payload and extractImages (lines 93-97) *)

(** The [url] and [urlbase] properties of an entry of [payload.images],
    each a string or absent.  An entry that is a number, a string, a
    boolean or an array has neither. *)
Record item := {
  item_url : option string;
  item_urlbase : option string;
}.

(** An entry of [payload.images]: [null], of which no property can be
    read, or any other value. *)
Inductive entry :=
  | Null
  | Obj (it : item).

(** The parsed JSON, as far as the script looks into it: a falsy value, or
    a value whose [images] property is an array or is not. *)
Inductive payload :=
  | JFalsy
  | JValue (images_prop : option (list entry)).

Definition extractImages (p : payload) : list entry :=
  match p with
  | JFalsy => []
  | JValue (Some imgs) => imgs
  | JValue None => []
  end.

(** What the archive host does with a request: no connection; a status
    code with a body that comes to its end and that [JSON.parse] accepts
    or rejects; or a status code with a body that never comes to its end
    (the connection is cut or hangs), so that no ['end'] is emitted. *)
Inductive archive_reply :=
  | ArchiveError (msg : string)
  | ArchiveResponse (status : N) (parsed : option payload)
  | ArchiveCut (status : N).

(** [fetchJson] (lines 21-42).  The promise is settled by the status
    check, by the ['end'] listener or by ['error'] on the request, and by
    nothing else. *)
Definition fetchJson (reply : archive_reply) : promise payload :=
  match reply with
  | ArchiveError msg => Rejected msg
  | ArchiveResponse status parsed =>
      if negb (status =? 200)
      then Rejected ("Request failed: " +:+ pretty status)
      else match parsed with
           | Some p => Resolved p
           | None => Rejected "SyntaxError"
           end
  | ArchiveCut status =>
      if negb (status =? 200)
      then Rejected ("Request failed: " +:+ pretty status)
      else Pending
  end.

(** ** The world outside the script *)

(** [meta] of [sharp(...).metadata()]: [meta.width] may be absent. *)
Record metadata := { meta_width : option N }.

Record world := {
  (** [fs.mkdirSync(OUTPUT_DIR, { recursive: true })]: [None] when the
      directory is there or can be made, the error it throws otherwise *)
  mkdir_error : option string;
  (** the archive's answer to a GET of that URL *)
  archive : string -> archive_reply;
  (** the image host's answer to the [k]-th download request, for that URL *)
  image_host : nat -> string -> http_get;
  (** [sharp(input).metadata()]; [None] when it rejects *)
  sharp_metadata : Buffer -> option metadata;
  (** [sharp(input).resize({width, withoutEnlargement}).jpeg({quality}).toBuffer()];
      [None] when it rejects *)
  sharp_toBuffer : Buffer -> N -> N -> option Buffer;
}.

(** ** compressToLimit (lines 99-126) *)

(** [arr.indexOf(w)], with [None] for -1. *)
Fixpoint indexOf (w : N) (arr : list N) : option nat :=
  match arr with
  | [] => None
  | x :: arr' => if decide (x = w) then Some 0%nat else S <$> indexOf w arr'
  end.

(** [l.filter((w, idx) => p w idx)], [idx] counting from [from]. *)
Fixpoint filter_idx (p : N -> nat -> bool) (from : nat) (l : list N) : list N :=
  match l with
  | [] => []
  | w :: l' =>
      if p w from then w :: filter_idx p (S from) l' else filter_idx p (S from) l'
  end.

Definition COMMON_WIDTHS : list N := [1000; 900; 800; 700; 640; 560; 480; 400].

(** Lines 108-110. *)
Definition candidates (width : N) : list N :=
  let arr := filter (fun w => 0 < w /\ w <= width) (width :: COMMON_WIDTHS) in
  filter_idx (fun w idx => bool_decide (indexOf w arr = Some idx)) 0 arr.

Definition qualities : list N := [80; 70; 60; 55; 50; 45; 40; 35].

(** How a loop body leaves: on to the next element, [return] or a throw. *)
Inductive flow (A : Type) : Type :=
  | Next
  | Return (a : A)
  | Throw (err : string).
Arguments Next {A}.
Arguments Return {A} a.
Arguments Throw {A} err.

(** The inner loop (lines 114-123).  [tried] logs the (width, quality)
    pairs handed to the encoder. *)
Fixpoint for_qualities (encode : N -> N -> option Buffer) (maxBytes targetWidth : N)
    (qs : list N) (tried : list (N * N)) : flow Buffer * list (N * N) :=
  match qs with
  | [] => (Next, tried)
  | quality :: qs' =>
      let tried' := tried ++ [(targetWidth, quality)] in
      match encode targetWidth quality with
      | None => (Throw "sharp", tried')
      | Some outputBuffer =>
          if blen outputBuffer <=? maxBytes
          then (Return outputBuffer, tried')
          else for_qualities encode maxBytes targetWidth qs' tried'
      end
  end.

(** The outer loop (lines 113-124). *)
Fixpoint for_widths (encode : N -> N -> option Buffer) (maxBytes : N)
    (ws : list N) (tried : list (N * N)) : flow Buffer * list (N * N) :=
  match ws with
  | [] => (Next, tried)
  | targetWidth :: ws' =>
      match for_qualities encode maxBytes targetWidth qualities tried with
      | (Next, tried') => for_widths encode maxBytes ws' tried'
      | r => r
      end
  end.

Record compress_run := {
  cp_promise : promise bool;
  cp_disk : Disk;
  cp_tried : list (N * N);
}.

Definition compressToLimit (w : world) (filePath : string) (maxBytes : N) (fs : Disk)
    : compress_run :=
  match fs !! filePath with
  | None => {| cp_promise := Rejected "ENOENT"; cp_disk := fs; cp_tried := [] |}
  | Some inputBuffer =>
      match sharp_metadata w inputBuffer with
      | None => {| cp_promise := Resolved false; cp_disk := fs; cp_tried := [] |}
      | Some meta =>
          let width := default 0 (meta_width meta) in
          match for_widths (sharp_toBuffer w inputBuffer) maxBytes (candidates width) [] with
          | (Return outputBuffer, tried) =>
              {| cp_promise := Resolved true;
                 cp_disk := <[filePath := outputBuffer]> fs; cp_tried := tried |}
          | (Next, tried) =>
              {| cp_promise := Resolved false; cp_disk := fs; cp_tried := tried |}
          | (Throw err, tried) =>
              {| cp_promise := Rejected err; cp_disk := fs; cp_tried := tried |}
          end
      end
  end.

(** ** main: collecting candidates (lines 131-162) *)

(** [{ url, urlBase }]; [urlBase] is [null] when the item has no usable
    [urlbase]. *)
Record candidate := {
  url : string;
  urlBase : option string;
}.

Global Instance candidate_inhabited : Inhabited candidate :=
  populate {| url := ""; urlBase := None |}.

Global Instance candidate_eq_dec : EqDecision candidate.
Proof. solve_decision. Defined.

(** Why the collecting loop was left before its end: an error thrown out
    of it, or an [await] that never resumes. *)
Inductive halt :=
  | Threw (err : string)
  | Awaits.

(** [images] and [seen] of [main]; [queries] logs the (idx, market) pairs
    whose archive URL was requested, in order; [halted] is set once the
    loop is left before its end. *)
Record collector := {
  images : list candidate;
  seen : gset string;
  queries : list (nat * string);
  halted : option halt;
}.

(** [urlBase || url] (line 152). *)
Definition dedupeKey (c : candidate) : string :=
  default (url c) (truthy (urlBase c)).

(** Lines 148-157.  [item.url] of a [null] entry throws a [TypeError]
    (line 149), which no [try] of [main] encloses. *)
Fixpoint for_items (items : list entry) (st : collector) : collector :=
  match items with
  | [] => st
  | Null :: _ =>
      {| images := images st; seen := seen st; queries := queries st;
         halted := Some (Threw "TypeError") |}
  | Obj it :: rest =>
      match truthy (item_url it) with
      | None => for_items rest st
      | Some u =>
          let c := {| url := "https://www.bing.com" +:+ u;
                      urlBase := truthy (item_urlbase it) |} in
          if decide (dedupeKey c ∈ seen st)
          then for_items rest st
          else
            let st' := {| images := images st ++ [c];
                          seen := {[dedupeKey c]} ∪ seen st;
                          queries := queries st;
                          halted := halted st |} in
            if (TARGET_COUNT <=? length (images st'))%nat
            then st'
            else for_items rest st'
      end
  end.

(** Lines 136-159.  A rejected [fetchJson] is caught and the loop goes
    on; one that stays pending leaves [main] in its [await]. *)
Fixpoint for_markets (w : world) (idx : nat) (markets : list string) (st : collector)
    : collector :=
  match markets with
  | [] => st
  | market :: rest =>
      let st1 := {| images := images st; seen := seen st;
                    queries := queries st ++ [(idx, market)];
                    halted := halted st |} in
      match fetchJson (archive w (buildArchiveUrl idx BATCH_SIZE market)) with
      | Resolved p =>
          let items := extractImages p in
          if (length items =? 0)%nat
          then for_markets w idx rest st1
          else
            let st2 := for_items items st1 in
            match halted st2 with
            | Some _ => st2
            | None =>
                if (TARGET_COUNT <=? length (images st2))%nat
                then st2
                else for_markets w idx rest st2
            end
      | Rejected _ => for_markets w idx rest st1
      | Pending =>
          {| images := images st1; seen := seen st1; queries := queries st1;
             halted := Some Awaits |}
      end
  end.

(** Lines 135-162; [None] when the fuel runs out before the loop ends. *)
Fixpoint while_days (w : world) (fuel : nat) (idx : nat) (st : collector)
    : option collector :=
  match fuel with
  | O => None
  | S fuel' =>
      match halted st with
      | Some _ => Some st
      | None =>
          if ((length (images st) <? TARGET_COUNT) && (idx <? MAX_FETCH_DAYS))%nat
          then while_days w fuel' (idx + BATCH_SIZE)%nat (for_markets w idx MARKETS st)
          else Some st
      end
  end.

(** ** main: padding (lines 169-174) *)

(** [original[i]] is read in range whenever [original] is not empty, and
    [main] has left before this loop when it is. *)
Fixpoint pad_loop (fuel : nat) (original imgs : list candidate) : option (list candidate) :=
  match fuel with
  | O => None
  | S fuel' =>
      if (length imgs <? TARGET_COUNT)%nat
      then pad_loop fuel' original
             (imgs ++ [original !!! (length imgs mod length original)%nat])
      else Some imgs
  end.

Definition pad (imgs : list candidate) : option (list candidate) :=
  if (length imgs <? TARGET_COUNT)%nat
  then pad_loop (S TARGET_COUNT) imgs imgs
  else Some imgs.

(** ** main: downloading (lines 176-208) *)

Record downloader := {
  disk : Disk;
  saved : nat;
  requests : nat;
}.

(** How one URL of the ladder ends: stored ([break]), on to the next URL,
    or an [await] that never resumes. *)
Inductive url_exit :=
  | Stored
  | NextUrl
  | Stalled.

(** The body of the loop over the URL ladder (lines 184-202). *)
Definition try_url (w : world) (imageUrl outPath : string) (st : downloader)
    : url_exit * downloader :=
  let run := downloadWithLimit (image_host w (requests st) imageUrl) outPath
               MAX_DOWNLOAD_BYTES (disk st) in
  let st1 := {| disk := dl_disk run; saved := saved st; requests := S (requests st) |} in
  match dl_promise run with
  | Pending => (Stalled, st1)
  | Rejected _ => (NextUrl, st1)
  | Resolved result =>
      if ok result
      then
        match disk st1 !! outPath with
        | None => (NextUrl, st1)
        | Some file =>
            if MAX_BYTES <? blen file
            then
              let c := compressToLimit w outPath MAX_BYTES (disk st1) in
              match cp_promise c with
              | Resolved true =>
                  (Stored, {| disk := cp_disk c; saved := S (saved st);
                              requests := requests st1 |})
              | Resolved false =>
                  (NextUrl, {| disk := delete outPath (cp_disk c); saved := saved st;
                               requests := requests st1 |})
              | Rejected _ =>
                  (NextUrl, {| disk := cp_disk c; saved := saved st;
                               requests := requests st1 |})
              | Pending =>
                  (Stalled, {| disk := cp_disk c; saved := saved st;
                               requests := requests st1 |})
              end
            else (Stored, {| disk := disk st1; saved := S (saved st);
                             requests := requests st1 |})
        end
      else (NextUrl, st1)
  end.

(** Lines 183-203. *)
Fixpoint for_urls (w : world) (urls : list string) (outPath : string) (st : downloader)
    : url_exit * downloader :=
  match urls with
  | [] => (NextUrl, st)
  | imageUrl :: rest =>
      match try_url w imageUrl outPath st with
      | (NextUrl, st') => for_urls w rest outPath st'
      | r => r
      end
  end.

(** [`${saved + 1}.jpg`], the name under [OUTPUT_DIR]. *)
Definition jpg (k : nat) : string := pretty k +:+ ".jpg".

(** The URL ladder of a candidate (line 182). *)
Definition url_ladder (c : candidate) : list string :=
  url c :: (buildImageUrl (urlBase c) <$> SIZE_CANDIDATES).

(** Lines 177-208; the flag says the loop is stuck in an [await]. *)
Fixpoint for_images (w : world) (imgs : list candidate) (st : downloader)
    : bool * downloader :=
  match imgs with
  | [] => (false, st)
  | c :: rest =>
      if (saved st <? TARGET_COUNT)%nat
      then
        match for_urls w (url_ladder c) (jpg (saved st + 1)) st with
        | (Stalled, st') => (true, st')
        | (_, st') => for_images w rest st'
        end
      else (false, st)
  end.

(** ** main (lines 128-219) *)

(** How the process ends.  The script calls [process.exit(1)] in two
    places: when nothing was collected (line 166), and in the [catch] of
    [main()] (lines 216-219), which takes every error thrown out of
    [main].  Otherwise Node ends the process with status 0 once nothing is
    left to run: after [main] has returned, and just the same while [main]
    still waits on a promise that nobody will settle, as soon as no
    connection is open any more. *)
Inductive ending :=
  | NoImages
  | Finished
  | Waiting
  | Crashed.

(** The exit status of the process, when it ends. *)
Definition exit_status (e : ending) : N :=
  match e with
  | NoImages | Crashed => 1
  | Finished | Waiting => 0
  end.

Record main_run := {
  ended : ending;
  collected : collector;
  padded : list candidate;
  final : downloader;
}.

(** [ensureDir] makes sure the output directory exists, or throws;
    [fs0] is what the directory holds when the script starts.  An error
    thrown by [ensureDir] or out of the collecting loop leaves [main]
    rejected; a [fetchJson] that stays pending leaves it waiting. *)
Definition main (w : world) (fs0 : Disk) : option main_run :=
  let nothing := {| images := []; seen := ∅; queries := []; halted := None |} in
  let start := {| disk := fs0; saved := 0; requests := 0 |} in
  match mkdir_error w with
  | Some _ => Some {| ended := Crashed; collected := nothing; padded := []; final := start |}
  | None =>
      c ← while_days w (S MAX_FETCH_DAYS) 0 nothing;
      match halted c with
      | Some (Threw _) =>
          Some {| ended := Crashed; collected := c; padded := []; final := start |}
      | Some Awaits =>
          Some {| ended := Waiting; collected := c; padded := []; final := start |}
      | None =>
          if (length (images c) =? 0)%nat
          then Some {| ended := NoImages; collected := c; padded := images c;
                       final := start |}
          else
            imgs ← pad (images c);
            let '(stuck, d) := for_images w imgs start in
            Some {| ended := if stuck then Waiting else Finished;
                    collected := c; padded := imgs; final := d |}
      end
  end.

(** * Notions used in the statements *)

(** The listeners keep [total] equal to the bytes they were handed. *)
Definition listening (l : listener) : Prop :=
  aborted l = false /\ total l = blen (Buffer_concat (chunks l)).

(** The pairs in the order of the two loops: width by width, and for each
    width the qualities in their order. *)
Fixpoint encode_grid (ws : list N) : list (N * N) :=
  match ws with
  | [] => []
  | targetWidth :: ws' => (pair targetWidth <$> qualities) ++ encode_grid ws'
  end.

(** [p] comes before [p'] in preference: a larger width, or the same
    width and a higher quality. *)
Definition preferred (p p' : N * N) : Prop :=
  p'.1 < p.1 \/ (p'.1 = p.1 /\ p'.2 < p.2).

Section SearchNotions.

Variable encode : N -> N -> option Buffer.
Variable maxBytes : N.

(** The encoder answered for this pair, and the answer is over budget. *)
Definition too_big (p : N * N) : Prop :=
  exists out, encode p.1 p.2 = Some out /\ maxBytes < blen out.

(** What a search through the pairs [g] comes to: [done] are the pairs
    tried.  It runs through all of [g] when every pair is over budget,
    and otherwise stops at the first pair that fits, or that makes the
    encoder throw. *)
Definition search_outcome (g : list (N * N)) (f : flow Buffer) (done : list (N * N))
    : Prop :=
  match f with
  | Next => done = g /\ Forall too_big g
  | Return out =>
      exists p before after,
        g = before ++ p :: after /\ done = before ++ [p] /\ Forall too_big before
        /\ encode p.1 p.2 = Some out /\ blen out <= maxBytes
  | Throw _ =>
      exists p before after,
        g = before ++ p :: after /\ done = before ++ [p] /\ Forall too_big before
        /\ encode p.1 p.2 = None
  end.

End SearchNotions.

(** The collector before the first query. *)
Definition start : collector :=
  {| images := []; seen := ∅; queries := []; halted := None |}.

(** One archive query and what it adds: the body of the loop over the
    markets, its [break] left out. *)
Definition visit (w : world) (st : collector) (q : nat * string) : collector :=
  let st1 := {| images := images st; seen := seen st; queries := queries st ++ [q];
                halted := halted st |} in
  match fetchJson (archive w (buildArchiveUrl q.1 BATCH_SIZE q.2)) with
  | Resolved p => for_items (extractImages p) st1
  | Rejected _ => st1
  | Pending =>
      {| images := images st1; seen := seen st1; queries := queries st1;
         halted := Some Awaits |}
  end.

(** The loop is over: it was left before its end, or the target is
    reached. *)
Definition over (st : collector) : bool :=
  match halted st with
  | Some _ => true
  | None => (TARGET_COUNT <=? length (images st))%nat
  end.

(** Queries made one after the other until the loop is over. *)
Fixpoint sweep (w : world) (qs : list (nat * string)) (st : collector) : collector :=
  match qs with
  | [] => st
  | q :: qs' => if over st then st else sweep w qs' (visit w st q)
  end.

(** Day by day, and for each day market by market. *)
Definition day_major (days : list nat) : list (nat * string) :=
  d ← days; pair d <$> MARKETS.

(** Market by market, and for each market day by day. *)
Definition market_major (days : list nat) : list (nat * string) :=
  m ← MARKETS; (fun d => (d, m)) <$> days.

(** The candidate an item with a usable [url] gives (lines 149-150). *)
Definition candidate_of (u : string) (it : item) : candidate :=
  {| url := "https://www.bing.com" +:+ u; urlBase := truthy (item_urlbase it) |}.

(** [seen] holds exactly the keys of the collected candidates, no key
    twice, and a [urlBase] is [null] or a non-empty string. *)
Definition keyed (st : collector) : Prop :=
  NoDup (dedupeKey <$> images st)
  /\ (forall k, k ∈ seen st <-> k ∈ dedupeKey <$> images st)
  /\ Forall (fun c => truthy (urlBase c) = urlBase c) (images st).

(** The encoder can reject some input. *)
Definition encoder_throws (w : world) : Prop :=
  exists input targetWidth quality, sharp_toBuffer w input targetWidth quality = None.

(** The encoder rejects the body of some complete response of an image
    host. *)
Definition encoder_rejects_served (w : world) : Prop :=
  exists k imageUrl res targetWidth quality,
    image_host w k imageUrl = Response res
    /\ complete res = true
    /\ sharp_toBuffer w (Buffer_concat (body res)) targetWidth quality = None.

(** The state of the output directory between two candidates: the files
    [1.jpg] to [saved.jpg] are there and within the budget; the one other
    file there can be is [(saved+1).jpg], and only after the encoder
    threw on a downloaded body. *)
Definition outputs_ok (w : world) (d : downloader) : Prop :=
  (saved d <= TARGET_COUNT)%nat
  /\ (forall k, (1 <= k <= saved d)%nat ->
        exists f, disk d !! jpg k = Some f /\ blen f <= MAX_BYTES)
  /\ (forall p, is_Some (disk d !! p) ->
        exists k, p = jpg k /\ (1 <= k)%nat
                  /\ ((k <= saved d)%nat
                      \/ (k = saved d + 1 /\ k <= TARGET_COUNT)%nat
                         /\ encoder_rejects_served w)).

(** How the search with the larger budget relates to the search with the
    smaller one: it accepts where that one accepts, no later; where that
    one runs through, it runs through too or accepts. *)
Definition no_later (r r' : flow Buffer * list (N * N)) : Prop :=
  match r.1 with
  | Return _ => (exists out', r'.1 = Return out') /\ r'.2 `prefix_of` r.2
  | Next => r' = r \/ ((exists out', r'.1 = Return out') /\ r'.2 `prefix_of` r.2)
  | Throw _ => True
  end.

(** The string holds no ampersand. *)
Fixpoint no_amp (s : string) : Prop :=
  match s with
  | EmptyString => True
  | String a s' => a <> "&"%char /\ no_amp s'
  end.

(** The entries an archive reply contributes: those of its payload when
    [fetchJson] resolves, none when it does not. *)
Definition items_of (reply : archive_reply) : list entry :=
  match fetchJson reply with
  | Resolved p => extractImages p
  | _ => []
  end.

(** The candidates of the items that have a usable [url], in the order of
    the items (lines 149-151). *)
Definition candidates_of (items : list item) : list candidate :=
  omap (fun it => (fun u => candidate_of u it) <$> truthy (item_url it)) items.

(** A complete 200 response whose body needs no re-encoding. *)
Definition within_budget (res : response) : Prop :=
  statusCode res = 200
  /\ complete res = true
  /\ (forall n, content_length res = Some n -> n <= MAX_DOWNLOAD_BYTES)
  /\ blen (Buffer_concat (body res)) <= MAX_BYTES.

(** Chunk [k] (counted from 1) is the first with which the bytes of the
    body go over [maxBytes]. *)
Definition crosses (body : list Buffer) (maxBytes : N) (k : nat) : Prop :=
  (0 < k <= length body)%nat
  /\ blen (Buffer_concat (take (k - 1) body)) <= maxBytes
  /\ maxBytes < blen (Buffer_concat (take k body)).

(** A response on which [downloadWithLimit] never settles its promise: a
    200 response that passes the header check, and whose body either stays
    within the limit and never comes to its end, or goes over the limit
    at a chunk with which the end of the message is not parsed. *)
Definition never_settles (res : response) (maxBytes : N) : Prop :=
  statusCode res = 200
  /\ (forall n, content_length res = Some n -> n <= maxBytes)
  /\ ((blen (Buffer_concat (body res)) <= maxBytes /\ complete res = false)
      \/ exists k, crosses (body res) maxBytes k /\ end_parsed_with res k = false).

(** The [k]-th image request, for [imageUrl], is answered by a response
    on which [downloadWithLimit] never settles. *)
Definition unsettled (w : world) (k : nat) (imageUrl : string) : Prop :=
  exists res,
    image_host w k imageUrl = Response res /\ never_settles res MAX_DOWNLOAD_BYTES.

(** The archive URL of a query. *)
Definition archive_url (q : nat * string) : string := buildArchiveUrl q.1 BATCH_SIZE q.2.


(** * Concrete worlds and inputs *)

(** [n] zero bytes. *)
Definition zeros (n : N) : Buffer := repeat Byte.x00 (N.to_nat n).

(** A body of two three-byte chunks against a limit of four bytes; the
    end of the message comes in a read of its own, after the second
    chunk. *)
Definition overflowing_response : response :=
  {| statusCode := 200; frame := Unannounced 0;
     body := [ [Byte.x00; Byte.x01; Byte.x02]; [Byte.x03; Byte.x04; Byte.x05] ] |}.

(** The same body, come in one read together with the end of the
    message. *)
Definition overflowing_in_one_read : response :=
  {| statusCode := 200; frame := Unannounced 2;
     body := [ [Byte.x00; Byte.x01; Byte.x02]; [Byte.x03; Byte.x04; Byte.x05] ] |}.

(** A 200 response that announces the five bytes it sends. *)
Definition announced_in_full : response :=
  {| statusCode := 200; frame := Announced 0;
     body := [ [Byte.x00; Byte.x01; Byte.x02]; [Byte.x03; Byte.x04] ] |}.

(** A 200 response that announces 20 bytes and sends five of them, against
    a limit of 10. *)
Definition advertised_too_long : response :=
  {| statusCode := 200; frame := Announced 15;
     body := [ [Byte.x00; Byte.x01; Byte.x02]; [Byte.x03; Byte.x04] ] |}.

(** A 404 response that announces 20 bytes and sends two of them, against
    a limit of 10. *)
Definition not_found_too_long : response :=
  {| statusCode := 404; frame := Announced 18; body := [ [Byte.x00; Byte.x01] ] |}.

(** A 900 pixel wide source whose encodings take [width * quality / 1000]
    bytes. *)
Definition shrinking_world : world :=
  {| mkdir_error := None;
     archive := fun _ => ArchiveError "offline";
     image_host := fun _ _ => ConnError "offline";
     sharp_metadata := fun _ => Some {| meta_width := Some 900 |};
     sharp_toBuffer := fun _ targetWidth quality => Some (zeros (targetWidth * quality / 1000)) |}.

(** A directory with one file of 100 bytes. *)
Definition shrinking_disk : Disk := {[ "1.jpg" := zeros 100 ]}.

(** An image host that sends 512001 bytes, a reader that finds no width,
    and an encoder whose every output would fit the budget. *)
Definition widthless_world : world :=
  {| mkdir_error := None;
     archive := fun _ => ArchiveError "offline";
     image_host := fun _ _ =>
       Response {| statusCode := 200; frame := Unannounced 1; body := [zeros 512001] |};
     sharp_metadata := fun _ => Some {| meta_width := None |};
     sharp_toBuffer := fun _ _ _ => Some (zeros 10) |}.

(** The downloader before the first request, on an empty directory. *)
Definition fresh_start : downloader := {| disk := ∅; saved := 0; requests := 0 |}.

(** The first download of [widthless_world]. *)
Abbreviation widthless_run :=
  (downloadWithLimit (image_host widthless_world (requests fresh_start) "https://www.bing.com/a.jpg")
     "1.jpg" MAX_DOWNLOAD_BYTES (disk fresh_start)).

(** An archive that answers every query with an empty list. *)
Definition silent_world : world :=
  {| mkdir_error := None;
     archive := fun _ => ArchiveResponse 200 (Some (JValue (Some [])));
     image_host := fun _ _ => ConnError "offline";
     sharp_metadata := fun _ => None;
     sharp_toBuffer := fun _ _ _ => None |}.

(** Three candidates, collected short of the target. *)
Definition three_found : list candidate :=
  [ {| url := "https://www.bing.com/th?id=OHR.A_1920x1080.jpg"; urlBase := Some "/th?id=OHR.A" |};
    {| url := "https://www.bing.com/th?id=OHR.B_1920x1080.jpg"; urlBase := Some "/th?id=OHR.B" |};
    {| url := "https://www.bing.com/th?id=OHR.C_1920x1080.jpg"; urlBase := None |} ].

(** An item that carries a [urlbase] and no [url]. *)
Definition urlless_item : item :=
  {| item_url := None; item_urlbase := Some "/th?id=OHR.A" |}.

(** An archive whose every answer is that item, twice. *)
Definition urlless_world : world :=
  {| mkdir_error := None;
     archive := fun _ => ArchiveResponse 200 (Some (JValue (Some [Obj urlless_item; Obj urlless_item])));
     image_host := fun _ _ => ConnError "offline";
     sharp_metadata := fun _ => None;
     sharp_toBuffer := fun _ _ _ => None |}.

(** An archive that answers the first query only: an item without
    [urlbase], then two items whose [urlbase] is the first one's full
    URL. *)
Definition colliding_items : list item :=
  [ {| item_url := Some "/a"; item_urlbase := None |};
    {| item_url := Some "/b"; item_urlbase := Some "https://www.bing.com/a" |};
    {| item_url := Some "/c"; item_urlbase := Some "https://www.bing.com/a" |} ].

(** An archive whose first answer is [colliding_items]. *)
Definition colliding_world : world :=
  {| mkdir_error := None;
     archive := fun u =>
       if decide (u = buildArchiveUrl 0 BATCH_SIZE "zh-CN")
       then ArchiveResponse 200 (Some (JValue (Some (Obj <$> colliding_items))))
       else ArchiveError "offline";
     image_host := fun _ _ => ConnError "offline";
     sharp_metadata := fun _ => None;
     sharp_toBuffer := fun _ _ _ => None |}.

(** The [k]-th of a family of distinct items. *)
Definition numbered_item (k : nat) : item :=
  {| item_url := Some ("/th?id=OHR.N" +:+ pretty k +:+ "_1920x1080.jpg");
     item_urlbase := Some ("/th?id=OHR.N" +:+ pretty k) |}.

Definition late_item : item :=
  {| item_url := Some "/th?id=OHR.Late_1920x1080.jpg"; item_urlbase := Some "/th?id=OHR.Late" |}.

(** An archive whose first answer lists fifty distinct items and then the
    same further item twice. *)
Definition crowded_world : world :=
  {| mkdir_error := None;
     archive := fun u =>
       if decide (u = buildArchiveUrl 0 BATCH_SIZE "zh-CN")
       then ArchiveResponse 200
              (Some (JValue (Some (Obj <$> (numbered_item <$> seq 0 50) ++ [late_item; late_item]))))
       else ArchiveError "offline";
     image_host := fun _ _ => ConnError "offline";
     sharp_metadata := fun _ => None;
     sharp_toBuffer := fun _ _ _ => None |}.

(** The archive lists fifty images.  The hosts of the first 49 answer
    404 to every URL; the canonical URL of the last one delivers 512001
    bytes whose header can be read (1920 pixels wide) and whose pixels
    cannot: every re-encoding is rejected. *)
Definition truncated_world : world :=
  {| mkdir_error := None;
     archive := fun u =>
       if decide (u = buildArchiveUrl 0 BATCH_SIZE "zh-CN")
       then ArchiveResponse 200 (Some (JValue (Some (Obj <$> (numbered_item <$> seq 0 50)))))
       else ArchiveResponse 404 None;
     image_host := fun _ u =>
       if decide (u = "https://www.bing.com/th?id=OHR.N49_1920x1080.jpg")
       then Response {| statusCode := 200; frame := Unannounced 1; body := [zeros 512001] |}
       else Response {| statusCode := 404; frame := Unannounced 0; body := [] |};
     sharp_metadata := fun _ => Some {| meta_width := Some 1920 |};
     sharp_toBuffer := fun _ _ _ => None |}.

(** The archive's first answer lists fifty distinct images, and every
    image request is answered with 200 and a body of two chunks, five
    bytes in all. *)
Definition generous_world : world :=
  {| mkdir_error := None;
     archive := fun u =>
       if decide (u = buildArchiveUrl 0 BATCH_SIZE "zh-CN")
       then ArchiveResponse 200 (Some (JValue (Some (Obj <$> (numbered_item <$> seq 0 50)))))
       else ArchiveError "offline";
     image_host := fun _ _ => Response announced_in_full;
     sharp_metadata := fun _ => None;
     sharp_toBuffer := fun _ _ _ => None |}.

(** A 200 response of one chunk of 512001 bytes, without [content-length]. *)
Definition oversized_response : response :=
  {| statusCode := 200; frame := Unannounced 1; body := [zeros 512001] |}.

(** Every image request yields [oversized_response]; the metadata cannot
    be read. *)
Definition unreadable_world : world :=
  {| mkdir_error := None;
     archive := fun _ => ArchiveError "offline";
     image_host := fun _ _ => Response oversized_response;
     sharp_metadata := fun _ => None;
     sharp_toBuffer := fun _ _ _ => None |}.

(** Every image request yields [oversized_response], 900 pixels wide, and
    every encoding takes 10 bytes. *)
Definition reencoding_world : world :=
  {| mkdir_error := None;
     archive := fun _ => ArchiveError "offline";
     image_host := fun _ _ => Response oversized_response;
     sharp_metadata := fun _ => Some {| meta_width := Some 900 |};
     sharp_toBuffer := fun _ _ _ => Some (zeros 10) |}.





(** * Properties *)

(** ** The downloader *)

Section Downloader.

Implicit Types (dest : string) (maxBytes : N) (fs : Disk) (l : listener).

Lemma blen_app (a b : Buffer) : blen (a ++ b) = blen a + blen b.
Proof. unfold blen. rewrite length_app. lia. Qed.

Lemma blen_concat_cons (c : Buffer) (cs : list Buffer) :
  blen (Buffer_concat (c :: cs)) = blen c + blen (Buffer_concat cs).
Proof. unfold Buffer_concat. simpl. apply blen_app. Qed.

Lemma listening_start : listening {| chunks := []; total := 0; aborted := false |}.
Proof. split; reflexivity. Qed.

Lemma on_data_keep maxBytes chunk l :
  listening l ->
  total l + blen chunk <= maxBytes ->
  on_data maxBytes chunk l
    = ({| chunks := chunks l ++ [chunk]; total := total l + blen chunk; aborted := false |},
       false)
  /\ listening {| chunks := chunks l ++ [chunk]; total := total l + blen chunk;
                  aborted := false |}.
Proof.
  intros [Hab Htot] Hle. unfold on_data.
  destruct (N.ltb_spec maxBytes (total l + blen chunk)) as [Hlt|_]; [lia|].
  rewrite Hab. split; [reflexivity|].
  split; [reflexivity|]. simpl.
  unfold Buffer_concat in *. rewrite concat_app, blen_app. simpl.
  rewrite app_nil_r. lia.
Qed.

Lemma on_data_overflow maxBytes chunk l :
  maxBytes < total l + blen chunk ->
  snd (on_data maxBytes chunk l) = true.
Proof.
  intros Hlt. unfold on_data.
  destruct (N.ltb_spec maxBytes (total l + blen chunk)); [reflexivity|lia].
Qed.

Lemma content_length_covers (res : response) (n : N) :
  content_length res = Some n -> blen (Buffer_concat (body res)) <= n.
Proof.
  unfold content_length. destruct (frame res) as [missing| |]; [|discriminate..].
  intros [= <-]. lia.
Qed.

Lemma content_length_complete (res : response) :
  complete res = true ->
  forall n, content_length res = Some n -> n = blen (Buffer_concat (body res)).
Proof.
  unfold complete, content_length. destruct (frame res) as [missing| |]; [|discriminate..].
  intros Hm%N.eqb_eq n [= <-]. lia.
Qed.

(** A stream whose bytes go over the limit is destroyed at the chunk
    that crosses it and the disk is as it was.  The promise is resolved,
    with the too-large outcome, only if the end of the message was parsed
    with that chunk; it is left unsettled otherwise. *)
Lemma emit_overflow res dest maxBytes fs : forall rest delivered l,
  maxBytes < total l + blen (Buffer_concat rest) ->
  total l <= maxBytes ->
  let r := emit res dest maxBytes rest delivered l fs in
  dl_disk r = fs /\
  exists k, dl_fate r = Destroyed k /\ (delivered < k <= delivered + length rest)%nat
            /\ dl_promise r = if end_parsed_with res k
                              then Resolved (DlFail "too-large") else Pending.
Proof.
  induction rest as [|chunk rest IH]; intros delivered l Hover Hle; cbn [emit].
  - unfold Buffer_concat, blen in Hover. simpl in Hover. lia.
  - rewrite blen_concat_cons in Hover.
    unfold on_data.
    destruct (N.ltb_spec maxBytes (total l + blen chunk)) as [Hlt|Hge].
    + unfold on_end. cbn [aborted].
      destruct (end_parsed_with res (S delivered)) eqn:Hend; cbn [dl_disk dl_fate dl_promise];
        (split; [reflexivity|]); exists (S delivered); rewrite Hend;
        (split; [reflexivity|]); (split; [cbn [length]; lia|reflexivity]).
    + specialize (IH (S delivered)
        {| chunks := chunks l ++ [chunk]; total := total l + blen chunk;
           aborted := aborted l |}).
      cbn [total] in IH. destruct IH as (Hd & k & Hk & Hrange & Hp); [lia|lia|].
      split; [exact Hd|]. exists k. split; [exact Hk|]. split; [cbn [length]; lia|exact Hp].
Qed.

(** A complete message that stays within the limit reaches ['end'], which
    writes the whole body and resolves with its size. *)
Lemma emit_within res dest maxBytes fs : forall rest delivered l,
  complete res = true ->
  listening l ->
  total l + blen (Buffer_concat rest) <= maxBytes ->
  emit res dest maxBytes rest delivered l fs
    = {| dl_promise := Resolved (DlOk (total l + blen (Buffer_concat rest)));
         dl_disk := <[dest := Buffer_concat (chunks l ++ rest)]> fs;
         dl_fate := Ended |}.
Proof.
  induction rest as [|chunk rest IH]; intros delivered l Hc Hl Hle; cbn [emit].
  - rewrite Hc. destruct Hl as [Hab Htot]. unfold on_end. rewrite Hab.
    rewrite app_nil_r. unfold Buffer_concat at 1, blen at 1. simpl.
    rewrite N.add_0_r. reflexivity.
  - rewrite blen_concat_cons in Hle |- *.
    destruct (on_data_keep maxBytes chunk l Hl) as [Hd Hl']; [lia|].
    rewrite Hd. rewrite IH; [|exact Hc|exact Hl'|cbn [total]; lia]. cbn [total chunks].
    rewrite <- app_assoc, N.add_assoc. reflexivity.
Qed.

(** An incomplete message that stays within the limit: every chunk is
    taken in, ['end'] never comes, the promise is left unsettled and the
    disk as it was. *)
Lemma emit_starved res dest maxBytes fs : forall rest delivered l,
  complete res = false ->
  total l + blen (Buffer_concat rest) <= maxBytes ->
  emit res dest maxBytes rest delivered l fs
    = {| dl_promise := Pending; dl_disk := fs; dl_fate := Starved |}.
Proof.
  induction rest as [|chunk rest IH]; intros delivered l Hc Hle; cbn [emit].
  - rewrite Hc. reflexivity.
  - rewrite blen_concat_cons in Hle. unfold on_data.
    destruct (N.ltb_spec maxBytes (total l + blen chunk)) as [Hlt|_]; [lia|].
    apply IH; [exact Hc|cbn [total]; lia].
Qed.

(** Whatever the reply, a download leaves every other file alone, and
    what it writes at [dest] is the whole body of a complete 200 response
    within the limit. *)
Lemma downloadWithLimit_disk reply dest maxBytes fs :
  let r := downloadWithLimit reply dest maxBytes fs in
  (dl_disk r = fs /\ forall n, dl_promise r <> Resolved (DlOk n))
  \/ (exists res,
        reply = Response res /\ statusCode res = 200 /\ complete res = true
        /\ dl_promise r = Resolved (DlOk (blen (Buffer_concat (body res))))
        /\ dl_disk r = <[dest := Buffer_concat (body res)]> fs
        /\ blen (Buffer_concat (body res)) <= maxBytes).
Proof.
  destruct reply as [msg|res]; simpl.
  { left. split; [reflexivity|discriminate]. }
  unfold on_response.
  destruct (N.eqb_spec (statusCode res) 200) as [Hs|Hs]; cbn [negb].
  2:{ left. split; [reflexivity|discriminate]. }
  assert (Hemit : let r := emit res dest maxBytes (body res) 0
                     {| chunks := []; total := 0; aborted := false |} fs in
    (dl_disk r = fs /\ forall n, dl_promise r <> Resolved (DlOk n))
    \/ (exists res',
          Response res = Response res' /\ statusCode res' = 200 /\ complete res' = true
          /\ dl_promise r = Resolved (DlOk (blen (Buffer_concat (body res'))))
          /\ dl_disk r = <[dest := Buffer_concat (body res')]> fs
          /\ blen (Buffer_concat (body res')) <= maxBytes)).
  { destruct (N.le_gt_cases (blen (Buffer_concat (body res))) maxBytes) as [Hle|Hgt].
    - destruct (complete res) eqn:Hc.
      + right. exists res.
        rewrite emit_within; [|exact Hc|exact listening_start|simpl; lia].
        repeat split; [exact Hs|exact Hc|exact Hle].
      + left. rewrite emit_starved; [|exact Hc|simpl; lia].
        split; [reflexivity|discriminate].
    - left. destruct (emit_overflow res dest maxBytes fs (body res) 0
                        {| chunks := []; total := 0; aborted := false |})
        as (Hd & k & _ & _ & Hp); [simpl; lia|simpl; lia|].
      split; [exact Hd|]. intros n. rewrite Hp.
      destruct (end_parsed_with res k); discriminate. }
  destruct (content_length res) as [n|]; [|exact Hemit].
  destruct (maxBytes <? n); [|exact Hemit].
  left. split; [reflexivity|discriminate].
Qed.

(** A complete 200 response without [content-length] whose body is one
    chunk within the limit. *)
Lemma downloadWithLimit_single_chunk (chunk : Buffer) (together : nat) dest maxBytes fs :
  blen chunk <= maxBytes ->
  downloadWithLimit
    (Response {| statusCode := 200; frame := Unannounced together; body := [chunk] |})
    dest maxBytes fs
  = {| dl_promise := Resolved (DlOk (blen chunk)); dl_disk := <[dest := chunk]> fs;
       dl_fate := Ended |}.
Proof.
  intros Hle. unfold downloadWithLimit, on_response, content_length.
  cbn [statusCode frame body]. change (negb (200 =? 200)) with false. cbv iota.
  assert (Hcat : Buffer_concat [chunk] = chunk) by apply app_nil_r.
  rewrite emit_within; [|reflexivity|exact listening_start|cbn [total]; rewrite Hcat; lia].
  cbn [total chunks app]. rewrite Hcat. reflexivity.
Qed.

(** What a 200 response that passes the header check comes to. *)
Lemma downloadWithLimit_streams res dest maxBytes fs :
  statusCode res = 200 ->
  (forall n, content_length res = Some n -> n <= maxBytes) ->
  downloadWithLimit (Response res) dest maxBytes fs
  = emit res dest maxBytes (body res) 0 {| chunks := []; total := 0; aborted := false |} fs.
Proof.
  intros Hs Hh. cbn [downloadWithLimit]. unfold on_response.
  rewrite Hs. change (negb (200 =? 200)) with false. cbv iota.
  destruct (content_length res) as [n|]; [|reflexivity].
  specialize (Hh n eq_refl). destruct (N.ltb_spec maxBytes n); [lia|reflexivity].
Qed.

End Downloader.

(** C2.  A 200 response whose [content-length] (if any) is within the
    limit and whose body goes over it: [downloadWithLimit] destroys the
    stream at the chunk that crosses the limit and writes no file.  The
    [resolve] of the too-large outcome sits in the ['end'] listener, and
    after [res.destroy()] an ['end'] is emitted only if the end of the
    message had been parsed in one read with the crossing chunk, when
    nothing of the body was left to abort.  Whenever the transfer is
    aborted before the end of the body has come, the promise is never
    settled; the claim has it resolve with the too-large outcome. *)
Theorem downloadWithLimit_overflow_outcome
    (res : response) (dest : string) (maxBytes : N) (fs : Disk) :
  statusCode res = 200 ->
  (forall n, content_length res = Some n -> n <= maxBytes) ->
  maxBytes < blen (Buffer_concat (body res)) ->
  let r := downloadWithLimit (Response res) dest maxBytes fs in
  dl_disk r = fs
  /\ exists k,
       dl_fate r = Destroyed k
       /\ (0 < k <= length (body res))%nat
       /\ (end_parsed_with res k = false ->
           dl_promise r = Pending /\ dl_promise r <> Resolved (DlFail "too-large"))
       /\ (end_parsed_with res k = true -> dl_promise r = Resolved (DlFail "too-large")).
Proof.
  intros Hstatus Hheader Hover. cbv zeta.
  rewrite (downloadWithLimit_streams res dest maxBytes fs Hstatus Hheader).
  destruct (emit_overflow res dest maxBytes fs (body res) 0
              {| chunks := []; total := 0; aborted := false |})
    as (Hd & k & Hk & Hrange & Hp); [cbn [total]; lia|cbn [total]; lia|].
  split; [exact Hd|]. exists k. split; [exact Hk|]. split; [lia|].
  rewrite Hp. split; intros ->; [split; [reflexivity|discriminate]|reflexivity].
Qed.

Lemma downloadWithLimit_overflow_outcome_witness :
  statusCode overflowing_response = 200
  /\ (forall n, content_length overflowing_response = Some n -> n <= 4)
  /\ 4 < blen (Buffer_concat (body overflowing_response))
  /\ dl_disk (downloadWithLimit (Response overflowing_response) "1.jpg" 4 ∅) = ∅
  /\ dl_fate (downloadWithLimit (Response overflowing_response) "1.jpg" 4 ∅) = Destroyed 2
  /\ end_parsed_with overflowing_response 2 = false
  /\ dl_promise (downloadWithLimit (Response overflowing_response) "1.jpg" 4 ∅) = Pending
  /\ dl_promise (downloadWithLimit (Response overflowing_in_one_read) "1.jpg" 4 ∅)
     = Resolved (DlFail "too-large").
Proof.
  assert (H1 : statusCode overflowing_response = 200) by reflexivity.
  assert (H2 : forall n, content_length overflowing_response = Some n -> n <= 4)
    by (intros n Hn; discriminate Hn).
  assert (H3 : 4 < blen (Buffer_concat (body overflowing_response))) by (vm_compute; reflexivity).
  split; [exact H1|]. split; [exact H2|]. split; [exact H3|].
  split;
    [exact (proj1 (downloadWithLimit_overflow_outcome overflowing_response "1.jpg" 4 ∅
                     H1 H2 H3))|].
  repeat split.
Defined.

(** A complete 200 response within the limit, by its header (if any) and
    by its body: the promise resolves with the size of the body, and the
    whole body is written to [dest]. *)
Lemma downloadWithLimit_within_limit
    (res : response) (dest : string) (maxBytes : N) (fs : Disk) :
  statusCode res = 200 ->
  complete res = true ->
  (forall n, content_length res = Some n -> n <= maxBytes) ->
  blen (Buffer_concat (body res)) <= maxBytes ->
  downloadWithLimit (Response res) dest maxBytes fs
  = {| dl_promise := Resolved (DlOk (blen (Buffer_concat (body res))));
       dl_disk := <[dest := Buffer_concat (body res)]> fs;
       dl_fate := Ended |}.
Proof.
  intros Hstatus Hc Hheader Hle.
  rewrite (downloadWithLimit_streams res dest maxBytes fs Hstatus Hheader).
  rewrite emit_within; [reflexivity|exact Hc|exact listening_start|cbn [total]; lia].
Qed.

Lemma downloadWithLimit_within_limit_witness :
  statusCode announced_in_full = 200
  /\ complete announced_in_full = true
  /\ content_length announced_in_full = Some 5
  /\ blen (Buffer_concat (body announced_in_full)) <= 20
  /\ downloadWithLimit (Response announced_in_full) "1.jpg" 20 ∅
     = {| dl_promise := Resolved (DlOk 5);
          dl_disk := {[ "1.jpg" := [Byte.x00; Byte.x01; Byte.x02; Byte.x03; Byte.x04] ]};
          dl_fate := Ended |}.
Proof.
  assert (H1 : statusCode announced_in_full = 200) by reflexivity.
  assert (H2 : complete announced_in_full = true) by reflexivity.
  assert (H3 : forall n, content_length announced_in_full = Some n -> n <= 20)
    by (intros n [= <-]; vm_compute; discriminate).
  assert (H4 : blen (Buffer_concat (body announced_in_full)) <= 20)
    by (vm_compute; discriminate).
  split; [exact H1|]. split; [exact H2|]. split; [reflexivity|]. split; [exact H4|].
  exact (downloadWithLimit_within_limit announced_in_full "1.jpg" 20 ∅ H1 H2 H3 H4).
Defined.

(** C7, as amended.  A 200 response whose [content-length] is over the
    limit: [downloadWithLimit] resolves with the too-large outcome at
    once, attaches no listener (nothing is buffered) and writes nothing;
    [res.resume()] lets the body run to its end and discards it. *)
Theorem downloadWithLimit_header_over_limit
    (res : response) (dest : string) (maxBytes n : N) (fs : Disk) :
  statusCode res = 200 ->
  content_length res = Some n ->
  maxBytes < n ->
  let r := downloadWithLimit (Response res) dest maxBytes fs in
  dl_promise r = Resolved (DlFail "too-large")
  /\ dl_disk r = fs
  /\ dl_fate r = Drained
  /\ bytes_read (dl_fate r) (body res) = blen (Buffer_concat (body res)).
Proof.
  intros Hstatus Hcl Hlt. simpl. unfold on_response.
  rewrite Hstatus, Hcl. simpl.
  destruct (N.ltb_spec maxBytes n); [|lia].
  repeat split.
Qed.

Lemma downloadWithLimit_header_over_limit_witness :
  statusCode advertised_too_long = 200
  /\ content_length advertised_too_long = Some 20
  /\ 10 < 20
  /\ dl_promise (downloadWithLimit (Response advertised_too_long) "1.jpg" 10 ∅)
      = Resolved (DlFail "too-large")
  /\ dl_disk (downloadWithLimit (Response advertised_too_long) "1.jpg" 10 ∅) = ∅.
Proof.
  assert (H3 : 10 < 20) by lia.
  split; [reflexivity|]. split; [reflexivity|]. split; [exact H3|].
  pose proof (downloadWithLimit_header_over_limit advertised_too_long "1.jpg" 10 20 ∅
                eq_refl eq_refl H3) as H.
  split; [exact (proj1 H)|exact (proj1 (proj2 H))].
Defined.

(** C7, as stated, fails twice.  With a status other than 200 the
    outcome is the bad-status one, whatever [content-length] says; and
    with status 200 the body is not left unread: it is drained. *)
Lemma downloadWithLimit_header_over_limit_counterexample :
  (content_length not_found_too_long = Some 20 /\ 10 < 20
   /\ dl_promise (downloadWithLimit (Response not_found_too_long) "1.jpg" 10 ∅)
       = Resolved (DlFail "status:404"))
  /\ (content_length advertised_too_long = Some 20 /\ 10 < 20
      /\ bytes_read (dl_fate (downloadWithLimit (Response advertised_too_long) "1.jpg" 10 ∅))
            (body advertised_too_long) = 5).
Proof.
  split; (split; [reflexivity|]); (split; [lia|]); vm_compute; reflexivity.
Qed.

(** ** The width ladder *)

Section WidthLadder.

Lemma filter_ext_elem {A} (P Q : A -> Prop)
    `{!forall x, Decision (P x)} `{!forall x, Decision (Q x)} (l : list A) :
  (forall x, x ∈ l -> P x <-> Q x) -> filter P l = filter Q l.
Proof.
  induction l as [|a l IH]; intros Hext; [reflexivity|].
  rewrite !filter_cons.
  assert (Ha : P a <-> Q a) by (apply Hext; left).
  rewrite IH by (intros x Hx; apply Hext; right; exact Hx).
  destruct (decide (P a)), (decide (Q a)); tauto.
Qed.

Lemma StronglySorted_filter {A} (R : relation A) (P : A -> Prop)
    `{!forall x, Decision (P x)} (l : list A) :
  StronglySorted R l -> StronglySorted R (filter P l).
Proof.
  induction 1 as [|a l Hl IH Hall]; [constructor|].
  rewrite filter_cons. destruct (decide (P a)); [|exact IH].
  constructor; [exact IH|].
  apply Forall_forall. intros x Hx. apply list_elem_of_filter in Hx as [_ Hx].
  rewrite Forall_forall in Hall. apply Hall, Hx.
Qed.

(** [indexOf] finds the first position. *)
Lemma indexOf_app_in (w : N) (pre l : list N) :
  w ∈ pre -> exists i, indexOf w (pre ++ l) = Some i /\ (i < length pre)%nat.
Proof.
  induction pre as [|x pre IH]; intros Hin; [inversion Hin|].
  simpl. destruct (decide (x = w)) as [->|Hne].
  - exists 0%nat. split; [reflexivity|simpl; lia].
  - apply elem_of_cons in Hin as [Heq|Hin]; [congruence|].
    destruct (IH Hin) as (i & Hi & Hlt). exists (S i).
    rewrite Hi. split; [reflexivity|simpl; lia].
Qed.

Lemma indexOf_app_notin (w : N) (pre l : list N) :
  w ∉ pre -> indexOf w (pre ++ w :: l) = Some (length pre).
Proof.
  induction pre as [|x pre IH]; intros Hnotin; simpl.
  - destruct (decide (w = w)); [reflexivity|congruence].
  - destruct (decide (x = w)) as [->|Hne].
    + exfalso. apply Hnotin. left.
    + rewrite IH; [reflexivity|]. intros Hin. apply Hnotin. right. exact Hin.
Qed.

(** The second filter of line 110 keeps an element exactly when it has
    not occurred before. *)
Lemma first_occurrences (arr : list N) : forall l pre,
  arr = pre ++ l ->
  NoDup l ->
  filter_idx (fun w idx => bool_decide (indexOf w arr = Some idx)) (length pre) l
    = filter (fun w => w ∉ pre) l.
Proof.
  induction l as [|w l IH]; intros pre Harr Hnd; [reflexivity|].
  cbn [filter_idx]. rewrite filter_cons.
  apply NoDup_cons in Hnd as [Hw Hnd].
  assert (Hrest : filter_idx (fun w idx => bool_decide (indexOf w arr = Some idx))
                    (S (length pre)) l = filter (fun w => w ∉ pre) l).
  { replace (S (length pre)) with (length (pre ++ [w])) by (rewrite length_app; simpl; lia).
    rewrite IH; [|rewrite Harr, <- app_assoc; reflexivity|exact Hnd].
    apply filter_ext_elem. intros x Hx. rewrite elem_of_app, list_elem_of_singleton.
    split; [tauto|]. intros Hpre [Hin| ->]; [tauto|contradiction]. }
  rewrite Hrest.
  destruct (decide (w ∉ pre)) as [Hnotin|Hin].
  - rewrite Harr, indexOf_app_notin by exact Hnotin.
    rewrite bool_decide_eq_true_2 by reflexivity. reflexivity.
  - assert (Hin' : w ∈ pre) by (destruct (decide (w ∈ pre)); tauto).
    destruct (indexOf_app_in w pre (w :: l) Hin') as (i & Hi & Hlt).
    rewrite Harr, Hi. rewrite bool_decide_eq_false_2; [reflexivity|].
    intros [= ->]. lia.
Qed.

Lemma COMMON_WIDTHS_sorted : StronglySorted (fun a b => b < a) COMMON_WIDTHS.
Proof. unfold COMMON_WIDTHS. repeat constructor; lia. Qed.

Lemma COMMON_WIDTHS_NoDup : NoDup COMMON_WIDTHS.
Proof. apply (bool_decide_unpack _). vm_compute. exact I. Qed.

(** The ladder in closed form: the source width, then the common widths
    strictly below it. *)
Lemma candidates_eq (width : N) :
  candidates width
    = if decide (width = 0) then [] else width :: filter (fun w => w < width) COMMON_WIDTHS.
Proof.
  unfold candidates. destruct (decide (width = 0)) as [->|Hpos]; [reflexivity|].
  assert (Harr : filter (fun w => 0 < w /\ w <= width) (width :: COMMON_WIDTHS)
                 = width :: filter (fun w => w <= width) COMMON_WIDTHS).
  { rewrite filter_cons. destruct (decide (0 < width /\ width <= width)) as [_|Hn]; [|lia].
    f_equal. apply filter_ext_elem. intros x Hx.
    assert (0 < x); [|tauto].
    unfold COMMON_WIDTHS in Hx. set_unfold in Hx. lia. }
  rewrite Harr. cbn [filter_idx].
  assert (Hhead : forall l, indexOf width (width :: l) = Some 0%nat).
  { intros l. apply (indexOf_app_notin width [] l). inversion 1. }
  rewrite Hhead, bool_decide_eq_true_2 by reflexivity. f_equal.
  pose proof (first_occurrences (width :: filter (fun w => w <= width) COMMON_WIDTHS)
                (filter (fun w => w <= width) COMMON_WIDTHS) [width] eq_refl
                (NoDup_filter _ _ COMMON_WIDTHS_NoDup)) as Hrest.
  cbn [length] in Hrest. rewrite Hrest.
  rewrite list_filter_filter. apply filter_ext_elem. intros x _.
  rewrite list_elem_of_singleton. lia.
Qed.

(** The ladder descends strictly, so it has no duplicates; every rung is
    positive and at most the source width (no upscaling), and is the
    source width or a common width. *)
Lemma candidates_sorted (width : N) : StronglySorted (fun a b => b < a) (candidates width).
Proof.
  rewrite candidates_eq. destruct (decide (width = 0)); [constructor|].
  constructor.
  - apply StronglySorted_filter, COMMON_WIDTHS_sorted.
  - apply Forall_forall. intros x Hx. apply list_elem_of_filter in Hx. tauto.
Qed.

Lemma candidates_range (width x : N) :
  x ∈ candidates width -> 0 < x <= width /\ (x = width \/ x ∈ COMMON_WIDTHS).
Proof.
  rewrite candidates_eq. destruct (decide (width = 0)) as [|Hpos]; [inversion 1|].
  intros [->|Hx]%elem_of_cons; [split; [lia|left; reflexivity]|].
  apply list_elem_of_filter in Hx as [Hlt Hx].
  split; [|right; exact Hx].
  unfold COMMON_WIDTHS in Hx. set_unfold in Hx. lia.
Qed.

End WidthLadder.

(** ** The search over (width, quality) *)

Section Search.

Variable encode : N -> N -> option Buffer.
Variable maxBytes : N.

Local Abbreviation too_big := (too_big encode maxBytes).
Local Abbreviation search_outcome := (search_outcome encode maxBytes).

Lemma search_outcome_cons p g f done :
  too_big p -> search_outcome g f done -> search_outcome (p :: g) f (p :: done).
Proof.
  intros Hp. destruct f as [|out|err]; simpl.
  - intros [-> Hall]. split; [reflexivity|]. constructor; assumption.
  - intros (q & before & after & -> & -> & Hall & Henc & Hfit).
    exists q, (p :: before), after. repeat split; try assumption.
    constructor; assumption.
  - intros (q & before & after & -> & -> & Hall & Henc).
    exists q, (p :: before), after. repeat split; try assumption.
    constructor; assumption.
Qed.

Lemma search_outcome_app g1 g2 f done :
  Forall too_big g1 -> search_outcome g2 f done -> search_outcome (g1 ++ g2) f (g1 ++ done).
Proof.
  induction 1 as [|p g1 Hp _ IH]; intros Hout; [exact Hout|].
  simpl. apply search_outcome_cons; [exact Hp|]. apply IH, Hout.
Qed.

Lemma search_outcome_prefix g f done : search_outcome g f done -> done `prefix_of` g.
Proof.
  destruct f as [|out|err]; simpl.
  - intros [-> _]. reflexivity.
  - intros (q & before & after & -> & -> & _). exists after.
    rewrite <- app_assoc. reflexivity.
  - intros (q & before & after & -> & -> & _). exists after.
    rewrite <- app_assoc. reflexivity.
Qed.

Lemma for_qualities_outcome targetWidth : forall qs tried,
  exists done,
    (for_qualities encode maxBytes targetWidth qs tried).2 = tried ++ done
    /\ search_outcome ((pair targetWidth <$> qs))
         (for_qualities encode maxBytes targetWidth qs tried).1 done.
Proof.
  induction qs as [|quality qs IH]; intros tried; cbn [for_qualities fmap list_fmap].
  - exists []. rewrite app_nil_r. split; [reflexivity|]. split; [reflexivity|constructor].
  - destruct (encode targetWidth quality) as [out|] eqn:Henc.
    + destruct (N.leb_spec (blen out) maxBytes) as [Hfit|Hbig].
      * exists [(targetWidth, quality)]. split; [reflexivity|].
        exists (targetWidth, quality), [], ((pair targetWidth <$> qs)).
        repeat split; [constructor|exact Henc|exact Hfit].
      * destruct (IH (tried ++ [(targetWidth, quality)])) as (done & Htr & Hout).
        exists ((targetWidth, quality) :: done). rewrite Htr, <- app_assoc.
        split; [reflexivity|].
        apply search_outcome_cons; [|exact Hout]. exists out. split; assumption.
    + exists [(targetWidth, quality)]. split; [reflexivity|].
      exists (targetWidth, quality), [], ((pair targetWidth <$> qs)).
      repeat split; [constructor|exact Henc].
Qed.

Lemma search_outcome_stop g1 g2 f done :
  f <> Next -> search_outcome g1 f done -> search_outcome (g1 ++ g2) f done.
Proof.
  destruct f as [|out|err]; simpl; [congruence| |]; intros _.
  - intros (q & before & after & -> & -> & Hrest).
    exists q, before, (after ++ g2). rewrite <- app_assoc. split; [reflexivity|].
    split; [reflexivity|exact Hrest].
  - intros (q & before & after & -> & -> & Hrest).
    exists q, before, (after ++ g2). rewrite <- app_assoc. split; [reflexivity|].
    split; [reflexivity|exact Hrest].
Qed.

Lemma for_widths_outcome : forall ws tried,
  exists done,
    (for_widths encode maxBytes ws tried).2 = tried ++ done
    /\ search_outcome (encode_grid ws) (for_widths encode maxBytes ws tried).1 done.
Proof.
  induction ws as [|targetWidth ws IH]; intros tried; cbn [for_widths encode_grid].
  - exists []. rewrite app_nil_r. split; [reflexivity|]. split; [reflexivity|constructor].
  - destruct (for_qualities_outcome targetWidth qualities tried) as (done1 & Htr1 & Hout1).
    destruct (for_qualities encode maxBytes targetWidth qualities tried) as [f tried1].
    simpl in Htr1, Hout1. subst tried1.
    destruct f as [|out|err].
    + destruct (IH (tried ++ done1)) as (done2 & Htr2 & Hout2).
      destruct Hout1 as [-> Hall].
      exists ((pair targetWidth <$> qualities) ++ done2).
      rewrite Htr2, <- app_assoc. split; [reflexivity|].
      apply search_outcome_app; assumption.
    + exists done1. split; [reflexivity|].
      apply search_outcome_stop; [discriminate|exact Hout1].
    + exists done1. split; [reflexivity|].
      apply search_outcome_stop; [discriminate|exact Hout1].
Qed.

End Search.

(** The grid descends in preference. *)
Lemma encode_grid_widths (ws : list N) (p : N * N) :
  p ∈ encode_grid ws -> p.1 ∈ ws /\ p.2 ∈ qualities.
Proof.
  induction ws as [|tw ws IH]; cbn [encode_grid]; [inversion 1|].
  rewrite elem_of_app. intros [Hin|Hin].
  - apply list_elem_of_fmap in Hin as (q & -> & Hq). split; [left|exact Hq].
  - destruct (IH Hin). split; [right|]; assumption.
Qed.

Lemma qualities_sorted : StronglySorted (fun a b => b < a) qualities.
Proof. unfold qualities. repeat constructor; lia. Qed.

Lemma encode_grid_sorted (ws : list N) :
  StronglySorted (fun a b => b < a) ws -> StronglySorted preferred (encode_grid ws).
Proof.
  induction 1 as [|tw ws Hws IH Hall]; cbn [encode_grid]; [constructor|].
  apply StronglySorted_app_2; [| |exact IH].
  - intros p1 p2 Hp1 Hp2. apply list_elem_of_fmap in Hp1 as (q & -> & _).
    apply encode_grid_widths in Hp2 as [Hp2 _].
    rewrite Forall_forall in Hall. left. simpl. apply Hall, Hp2.
  - apply (StronglySorted_fmap (pair tw) (fun a b => b < a) preferred);
      [|exact qualities_sorted].
    intros q1 q2 Hlt. right. simpl. split; [reflexivity|exact Hlt].
Qed.

(** In a list that descends in preference, whatever is preferred to an
    element stands before it. *)
Lemma preferred_before (before after : list (N * N)) (p p' : N * N) :
  StronglySorted preferred (before ++ p :: after) ->
  p' ∈ before ++ p :: after ->
  preferred p' p ->
  p' ∈ before.
Proof.
  intros Hsorted Hin Hpref.
  apply elem_of_app in Hin as [Hin|Hin]; [exact Hin|exfalso].
  apply StronglySorted_app in Hsorted as (_ & _ & Hsorted).
  apply StronglySorted_cons in Hsorted as [Hlater _].
  apply elem_of_cons in Hin as [->|Hin].
  - unfold preferred in Hpref. lia.
  - rewrite Forall_forall in Hlater. specialize (Hlater p' Hin).
    unfold preferred in Hpref, Hlater. lia.
Qed.

(** ** compressToLimit *)

(** What [compressToLimit] does on a file whose metadata can be read, in
    terms of the search over the grid of its width ladder. *)
Lemma compressToLimit_outcome (w : world) (filePath : string) (maxBytes : N) (fs : Disk)
    (input : Buffer) (meta : metadata) :
  fs !! filePath = Some input ->
  sharp_metadata w input = Some meta ->
  let r := compressToLimit w filePath maxBytes fs in
  let g := encode_grid (candidates (default 0 (meta_width meta))) in
  match cp_promise r with
  | Resolved true =>
      exists out, search_outcome (sharp_toBuffer w input) maxBytes g (Return out) (cp_tried r)
                  /\ cp_disk r = <[filePath := out]> fs
  | Resolved false =>
      search_outcome (sharp_toBuffer w input) maxBytes g Next (cp_tried r) /\ cp_disk r = fs
  | Rejected err =>
      search_outcome (sharp_toBuffer w input) maxBytes g (Throw err) (cp_tried r)
      /\ cp_disk r = fs
  | Pending => False
  end.
Proof.
  intros Hfile Hmeta. unfold compressToLimit. rewrite Hfile, Hmeta.
  destruct (for_widths_outcome (sharp_toBuffer w input) maxBytes
              (candidates (default 0 (meta_width meta))) []) as (done & Htr & Hout).
  destruct (for_widths (sharp_toBuffer w input) maxBytes
              (candidates (default 0 (meta_width meta))) []) as [f tried].
  cbn [fst snd app] in Htr, Hout. subst tried.
  destruct f as [|out|err]; cbn [cp_promise cp_tried cp_disk].
  - split; [exact Hout|reflexivity].
  - exists out. split; [exact Hout|reflexivity].
  - split; [exact Hout|reflexivity].
Qed.

(** C6.  On a file whose metadata can be read, the width ladder is the
    source width followed by the common widths below it: it descends
    strictly (so it holds no duplicate), and each rung is positive and at
    most the source width (no upscaling).  The quality ladder is 80, 70,
    60, 55, 50, 45, 40, 35.  The pairs handed to the encoder are an
    initial stretch of the grid in width-major, quality-minor order.
    When the function returns [true] it has written the output of the
    last pair tried, which fits the budget, after every pair before it
    came out over budget; every pair of the grid with a larger width, or
    the same width and a higher quality, was tried before the accepted
    one.  When it returns [false] the whole grid was tried and came out
    over budget. *)
Theorem compressToLimit_order (w : world) (filePath : string) (maxBytes : N) (fs : Disk)
    (input : Buffer) (meta : metadata) :
  fs !! filePath = Some input ->
  sharp_metadata w input = Some meta ->
  let width := default 0 (meta_width meta) in
  let encode := sharp_toBuffer w input in
  let r := compressToLimit w filePath maxBytes fs in
  candidates width
    = (if decide (width = 0) then []
       else width :: filter (fun x => x < width) [1000; 900; 800; 700; 640; 560; 480; 400])
  /\ StronglySorted (fun a b => b < a) (candidates width)
  /\ (forall x, x ∈ candidates width -> 0 < x <= width /\ (x = width \/ x ∈ COMMON_WIDTHS))
  /\ qualities = [80; 70; 60; 55; 50; 45; 40; 35]
  /\ cp_tried r `prefix_of` encode_grid (candidates width)
  /\ (cp_promise r = Resolved true ->
      exists p before out,
        cp_tried r = before ++ [p]
        /\ Forall (too_big encode maxBytes) before
        /\ encode p.1 p.2 = Some out /\ blen out <= maxBytes
        /\ cp_disk r = <[filePath := out]> fs
        /\ forall p', p' ∈ encode_grid (candidates width) -> preferred p' p -> p' ∈ before)
  /\ (cp_promise r = Resolved false ->
      cp_tried r = encode_grid (candidates width)
      /\ Forall (too_big encode maxBytes) (cp_tried r)
      /\ cp_disk r = fs).
Proof.
  intros Hfile Hmeta width encode r.
  pose proof (compressToLimit_outcome w filePath maxBytes fs input meta Hfile Hmeta) as Hout.
  cbv zeta in Hout. fold width encode r in Hout.
  split; [apply candidates_eq|].
  split; [apply candidates_sorted|].
  split; [apply candidates_range|].
  split; [reflexivity|].
  destruct (cp_promise r) as [|[|]|err] eqn:Hp.
  - contradiction.
  - destruct Hout as (out & Hsearch & Hdisk).
    split; [exact (search_outcome_prefix _ _ _ _ _ Hsearch)|].
    split; [|discriminate].
    intros _. destruct Hsearch as (p & before & after & Hg & Htried & Hall & Henc & Hfit).
    exists p, before, out. repeat split; try assumption.
    intros p' Hin Hpref.
    apply (preferred_before before after p p'); [|rewrite <- Hg; exact Hin|exact Hpref].
    rewrite <- Hg. apply encode_grid_sorted, candidates_sorted.
  - destruct Hout as [Hsearch Hdisk].
    split; [exact (search_outcome_prefix _ _ _ _ _ Hsearch)|].
    split; [discriminate|].
    intros _. destruct Hsearch as [Htried Hall]. rewrite Htried.
    repeat split; assumption.
  - destruct Hout as [Hsearch Hdisk].
    split; [exact (search_outcome_prefix _ _ _ _ _ Hsearch)|].
    split; discriminate.
Qed.

Lemma compressToLimit_order_witness :
  shrinking_disk !! "1.jpg" = Some (zeros 100)
  /\ sharp_metadata shrinking_world (zeros 100) = Some {| meta_width := Some 900 |}
  /\ cp_tried (compressToLimit shrinking_world "1.jpg" 30 shrinking_disk)
       `prefix_of` encode_grid (candidates 900)
  /\ cp_promise (compressToLimit shrinking_world "1.jpg" 30 shrinking_disk) = Resolved true
  /\ last (cp_tried (compressToLimit shrinking_world "1.jpg" 30 shrinking_disk))
      = Some (800, 35)
  /\ length (cp_tried (compressToLimit shrinking_world "1.jpg" 30 shrinking_disk)) = 16%nat.
Proof.
  assert (H1 : shrinking_disk !! "1.jpg" = Some (zeros 100)) by (vm_compute; reflexivity).
  assert (H2 : sharp_metadata shrinking_world (zeros 100) = Some {| meta_width := Some 900 |})
    by reflexivity.
  split; [exact H1|]. split; [exact H2|].
  split.
  - exact (proj1 (proj2 (proj2 (proj2 (proj2
      (compressToLimit_order shrinking_world "1.jpg" 30 shrinking_disk (zeros 100)
         {| meta_width := Some 900 |} H1 H2)))))).
  - vm_compute. repeat split; reflexivity.
Defined.

(** C10.  A download that succeeded with a file over the storage budget
    whose metadata can be read but has no width, or width 0: the ladder
    is empty, [compressToLimit] hands nothing to the encoder and returns
    [false], and the caller unlinks the file and goes on to the next URL,
    whatever the encoder would have produced. *)
Theorem try_url_no_width_deleted (w : world) (imageUrl outPath : string) (st : downloader)
    (n : N) (file : Buffer) (meta : metadata) :
  let run := downloadWithLimit (image_host w (requests st) imageUrl) outPath
               MAX_DOWNLOAD_BYTES (disk st) in
  dl_promise run = Resolved (DlOk n) ->
  dl_disk run !! outPath = Some file ->
  MAX_BYTES < blen file ->
  sharp_metadata w file = Some meta ->
  meta_width meta = None \/ meta_width meta = Some 0 ->
  candidates (default 0 (meta_width meta)) = []
  /\ compressToLimit w outPath MAX_BYTES (dl_disk run)
     = {| cp_promise := Resolved false; cp_disk := dl_disk run; cp_tried := [] |}
  /\ try_url w imageUrl outPath st
     = (NextUrl, {| disk := delete outPath (dl_disk run); saved := saved st;
                    requests := S (requests st) |})
  /\ (try_url w imageUrl outPath st).2.(disk) !! outPath = None.
Proof.
  intros run Hok Hfile Hbig Hmeta Hwidth.
  assert (Hzero : default 0 (meta_width meta) = 0) by (destruct Hwidth as [->| ->]; reflexivity).
  assert (Hladder : candidates (default 0 (meta_width meta)) = [])
    by (rewrite Hzero; reflexivity).
  assert (Hcompress : compressToLimit w outPath MAX_BYTES (dl_disk run)
            = {| cp_promise := Resolved false; cp_disk := dl_disk run; cp_tried := [] |}).
  { unfold compressToLimit. rewrite Hfile, Hmeta, Hladder. reflexivity. }
  assert (Htry : try_url w imageUrl outPath st
            = (NextUrl, {| disk := delete outPath (dl_disk run); saved := saved st;
                           requests := S (requests st) |})).
  { unfold try_url. fold run. rewrite Hok. cbn [ok disk].
    rewrite Hfile. destruct (N.ltb_spec MAX_BYTES (blen file)); [|lia].
    rewrite Hcompress. reflexivity. }
  split; [exact Hladder|]. split; [exact Hcompress|]. split; [exact Htry|].
  rewrite Htry. apply lookup_delete_eq.
Qed.

Lemma blen_zeros (n : N) : blen (zeros n) = n.
Proof. unfold blen, zeros. rewrite repeat_length. apply N2Nat.id. Qed.

Lemma widthless_run_eq :
  widthless_run
  = {| dl_promise := Resolved (DlOk 512001);
       dl_disk := <["1.jpg" := zeros 512001]> (disk fresh_start);
       dl_fate := Ended |}.
Proof.
  change (image_host widthless_world (requests fresh_start) "https://www.bing.com/a.jpg")
    with (Response {| statusCode := 200; frame := Unannounced 1; body := [zeros 512001] |}).
  rewrite downloadWithLimit_single_chunk by (rewrite blen_zeros; unfold MAX_DOWNLOAD_BYTES; lia).
  rewrite blen_zeros. reflexivity.
Qed.

Lemma try_url_no_width_deleted_witness :
  dl_promise widthless_run = Resolved (DlOk 512001)
  /\ dl_disk widthless_run !! "1.jpg" = Some (zeros 512001)
  /\ MAX_BYTES < blen (zeros 512001)
  /\ sharp_metadata widthless_world (zeros 512001) = Some {| meta_width := None |}
  /\ (exists out, sharp_toBuffer widthless_world (zeros 512001) 400 80 = Some out
                  /\ blen out <= MAX_BYTES)
  /\ (try_url widthless_world "https://www.bing.com/a.jpg" "1.jpg" fresh_start).2.(disk)
       !! "1.jpg" = None.
Proof.
  assert (H1 : dl_promise widthless_run = Resolved (DlOk 512001))
    by (rewrite widthless_run_eq; reflexivity).
  assert (H2 : dl_disk widthless_run !! "1.jpg" = Some (zeros 512001))
    by (rewrite widthless_run_eq; apply lookup_insert_eq).
  assert (H3 : MAX_BYTES < blen (zeros 512001))
    by (rewrite blen_zeros; unfold MAX_BYTES; lia).
  assert (H4 : sharp_metadata widthless_world (zeros 512001) = Some {| meta_width := None |})
    by reflexivity.
  split; [exact H1|]. split; [exact H2|]. split; [exact H3|]. split; [exact H4|].
  split.
  - exists (zeros 10). split; [reflexivity|rewrite blen_zeros; unfold MAX_BYTES; lia].
  - exact (proj2 (proj2 (proj2
      (try_url_no_width_deleted widthless_world "https://www.bing.com/a.jpg" "1.jpg"
         fresh_start 512001 (zeros 512001) {| meta_width := None |}
         H1 H2 H3 H4 (or_introl eq_refl))))).
Defined.

(** ** The collector *)

Section Collector.

Variable w : world.

Lemma for_items_queries : forall items st, queries (for_items items st) = queries st.
Proof.
  induction items as [|[|it] items IH]; intros st; cbn [for_items]; [reflexivity..|].
  destruct (truthy (item_url it)) as [u|]; [|apply IH].
  destruct (decide _); [apply IH|].
  match goal with |- context [(?a <=? ?b)%nat] => destruct (a <=? b)%nat end;
    [reflexivity|]. rewrite IH. reflexivity.
Qed.

(** The loop over the items stops at the target: it never goes past it. *)
Lemma for_items_length : forall items st,
  (length (images st) < TARGET_COUNT ->
   length (images st) <= length (images (for_items items st)) <= TARGET_COUNT)%nat.
Proof.
  induction items as [|[|it] items IH]; intros st Hlt; cbn [for_items images]; [lia..|].
  destruct (truthy (item_url it)) as [u|]; [|apply IH, Hlt].
  destruct (decide _); [apply IH, Hlt|].
  cbn [images].
  match goal with |- context [(?a <=? ?b)%nat] =>
    destruct (Nat.leb_spec a b) as [Hfull|Hshort] end;
    cbn [images]; rewrite length_app in *; cbn [length] in *.
  - lia.
  - match goal with |- context [for_items items ?s] => specialize (IH s) end.
    cbn [images] in IH. rewrite length_app in IH. cbn [length] in IH. lia.
Qed.


Lemma visit_queries st q : queries (visit w st q) = queries st ++ [q].
Proof.
  unfold visit. destruct (fetchJson _); [reflexivity| |reflexivity].
  rewrite for_items_queries. reflexivity.
Qed.

Lemma visit_length st q :
  (length (images st) < TARGET_COUNT ->
   length (images st) <= length (images (visit w st q)) <= TARGET_COUNT)%nat.
Proof.
  intros Hlt. unfold visit. destruct (fetchJson _); cbn [images]; [lia| |lia].
  match goal with |- context [for_items ?i ?s] => pose proof (for_items_length i s) as H end.
  cbn [images] in H. apply H, Hlt.
Qed.

Lemma over_false st :
  over st = false <-> halted st = None /\ (length (images st) < TARGET_COUNT)%nat.
Proof.
  unfold over. destruct (halted st); [split; [discriminate|intros [? _]; discriminate]|].
  destruct (Nat.leb_spec TARGET_COUNT (length (images st))); split;
    try discriminate; try (intros [_ ?]; lia); intros _; split; [reflexivity|lia].
Qed.

Lemma over_true st :
  over st = true <-> is_Some (halted st) \/ (TARGET_COUNT <= length (images st))%nat.
Proof.
  unfold over. destruct (halted st) as [h|].
  - split; [intros _; left; eexists; reflexivity|reflexivity].
  - destruct (Nat.leb_spec TARGET_COUNT (length (images st))); split; try discriminate;
      try reflexivity; [intros _; right; assumption|].
    intros [[h Hh]|Hfull]; [discriminate Hh|lia].
Qed.

Lemma sweep_length : forall qs st,
  (length (images st) <= TARGET_COUNT ->
   length (images st) <= length (images (sweep w qs st)) <= TARGET_COUNT)%nat.
Proof.
  induction qs as [|q qs IH]; intros st Hle; cbn [sweep]; [lia|].
  destruct (over st) eqn:Hover; [lia|]. apply over_false in Hover as [_ Hshort].
  pose proof (visit_length st q Hshort) as Hv.
  specialize (IH (visit w st q)). lia.
Qed.

Lemma sweep_stopped qs st : over st = true -> sweep w qs st = st.
Proof.
  intros Hover. destruct qs as [|q qs]; [reflexivity|]. cbn [sweep].
  rewrite Hover. reflexivity.
Qed.

Lemma sweep_full qs st :
  (TARGET_COUNT <= length (images st))%nat -> sweep w qs st = st.
Proof. intros Hfull. apply sweep_stopped, over_true. right. exact Hfull. Qed.

Lemma sweep_app : forall qs1 qs2 st, sweep w (qs1 ++ qs2) st = sweep w qs2 (sweep w qs1 st).
Proof.
  induction qs1 as [|q qs1 IH]; intros qs2 st; [reflexivity|].
  cbn [app sweep].
  destruct (over st) eqn:Hover; [|apply IH].
  rewrite sweep_stopped; [reflexivity|exact Hover].
Qed.

(** The loop over the markets of one day is a sweep of that day's
    queries. *)
Lemma for_markets_sweep idx : forall markets st,
  over st = false ->
  for_markets w idx markets st = sweep w (pair idx <$> markets) st.
Proof.
  induction markets as [|market rest IH]; intros st Hover; [reflexivity|].
  cbn [for_markets fmap list_fmap sweep]. rewrite Hover.
  unfold visit. cbn [fst snd].
  set (st1 := {| images := images st; seen := seen st;
                 queries := queries st ++ [(idx, market)]; halted := halted st |}).
  assert (Hover1 : over st1 = false) by exact Hover.
  destruct (fetchJson _) as [|p|err]; [|  |apply IH, Hover1].
  { rewrite sweep_stopped; reflexivity. }
  destruct (extractImages p) as [|it items] eqn:Hitems.
  { cbn [length Nat.eqb for_items]. apply IH, Hover1. }
  change (length (it :: items) =? 0)%nat with false. cbv iota.
  destruct (over (for_items (it :: items) st1)) eqn:Hover2.
  - rewrite sweep_stopped by exact Hover2. unfold over in Hover2.
    destruct (halted (for_items (it :: items) st1)); [reflexivity|].
    rewrite Hover2. reflexivity.
  - rewrite <- IH by exact Hover2. apply over_false in Hover2 as [Hh Hshort].
    rewrite Hh. destruct (Nat.leb_spec TARGET_COUNT (length (images (for_items (it :: items) st1))));
      [lia|reflexivity].
Qed.

(** The loop over the days is a sweep of the day-major grid, and the
    fuel of one more than the days left is enough. *)
Lemma while_days_sweep : forall n idx fuel st,
  (idx + n = MAX_FETCH_DAYS)%nat ->
  (n < fuel)%nat ->
  while_days w fuel idx st = Some (sweep w (day_major (seq idx n)) st).
Proof.
  induction n as [|n IH]; intros idx fuel st Hidx Hfuel;
    (destruct fuel as [|fuel]; [lia|]); cbn [while_days].
  - destruct (halted st); [reflexivity|].
    destruct (Nat.ltb_spec idx MAX_FETCH_DAYS); [lia|].
    rewrite andb_false_r. reflexivity.
  - destruct (over st) eqn:Hover.
    + rewrite sweep_stopped by exact Hover. unfold over in Hover.
      destruct (halted st); [reflexivity|].
      destruct (Nat.ltb_spec (length (images st)) TARGET_COUNT) as [Hshort|_]; [|reflexivity].
      apply Nat.leb_le in Hover. lia.
    + pose proof Hover as [Hh Hshort]%over_false. rewrite Hh.
      destruct (Nat.ltb_spec idx MAX_FETCH_DAYS); [|lia].
      rewrite andb_true_r.
      destruct (Nat.ltb_spec (length (images st)) TARGET_COUNT) as [_|Hfull]; [|lia].
      rewrite IH by (unfold BATCH_SIZE; lia).
      rewrite for_markets_sweep by exact Hover.
      unfold BATCH_SIZE. replace (idx + 1)%nat with (S idx) by lia.
      change (day_major (seq idx (S n)))
        with ((pair idx <$> MARKETS) ++ day_major (seq (S idx) n)).
      rewrite sweep_app. reflexivity.
Qed.

(** A sweep makes the first [k] queries of its list and no more: it
    goes on while the loop is not over and stops at once when it is. *)
Lemma sweep_take : forall qs st,
  exists k,
    (k <= length qs)%nat
    /\ sweep w qs st = foldl (visit w) st (take k qs)
    /\ (forall j, (j < k)%nat -> over (foldl (visit w) st (take j qs)) = false)
    /\ ((k < length qs)%nat -> over (sweep w qs st) = true).
Proof.
  induction qs as [|q qs IH]; intros st.
  - exists 0%nat. cbn. repeat split; [lia|intros; lia..].
  - cbn [sweep].
    destruct (over st) eqn:Hover.
    + exists 0%nat. cbn [take foldl length]. repeat split; [lia|intros; lia|].
      intros _. exact Hover.
    + destruct (IH (visit w st q)) as (k & Hk & Heq & Hbefore & Hstop).
      exists (S k). cbn [take foldl length].
      repeat split; [lia|exact Heq| |intros; apply Hstop; lia].
      intros [|j] Hj; [exact Hover|]. cbn [take foldl]. apply Hbefore. lia.
Qed.

Lemma foldl_visit_queries : forall qs st,
  queries (foldl (visit w) st qs) = queries st ++ qs.
Proof.
  induction qs as [|q qs IH]; intros st; cbn [foldl]; [rewrite app_nil_r; reflexivity|].
  rewrite IH, visit_queries, <- app_assoc. reflexivity.
Qed.

End Collector.

(** C9, as amended.  The loop over the markets is nested inside the loop
    over the day offsets: the queries made are the first [k] of the
    day-major grid (day 0 with every market in the order of the list,
    then day 1, up to day 7) and their results are taken in one after the
    other; before each of them the list is still short of the target and
    the loop has not been left, and when the loop stops before the end of
    the grid without having been left by an error or a stalled request,
    the target of 50 is met exactly. *)
Theorem collector_day_major (w : world) :
  exists c k,
    while_days w (S MAX_FETCH_DAYS) 0 start = Some c
    /\ (k <= length (day_major (seq 0 MAX_FETCH_DAYS)))%nat
    /\ c = foldl (visit w) start (take k (day_major (seq 0 MAX_FETCH_DAYS)))
    /\ queries c = take k (day_major (seq 0 MAX_FETCH_DAYS))
    /\ (forall j, (j < k)%nat ->
          (length (images (foldl (visit w) start (take j (day_major (seq 0 MAX_FETCH_DAYS)))))
           < TARGET_COUNT)%nat
          /\ halted (foldl (visit w) start (take j (day_major (seq 0 MAX_FETCH_DAYS)))) = None)
    /\ ((k < length (day_major (seq 0 MAX_FETCH_DAYS)))%nat ->
        halted c = None ->
        length (images c) = TARGET_COUNT)
    /\ (length (images c) <= TARGET_COUNT)%nat.
Proof.
  destruct (sweep_take w (day_major (seq 0 MAX_FETCH_DAYS)) start)
    as (k & Hk & Heq & Hbefore & Hstop).
  pose proof (sweep_length w (day_major (seq 0 MAX_FETCH_DAYS)) start) as Hlen.
  exists (sweep w (day_major (seq 0 MAX_FETCH_DAYS)) start), k.
  split; [apply while_days_sweep; [reflexivity|lia]|].
  split; [exact Hk|]. split; [exact Heq|].
  split; [rewrite Heq, foldl_visit_queries; reflexivity|].
  split; [intros j Hj; destruct (proj1 (over_false _) (Hbefore j Hj)); split; assumption|].
  assert (Hle : (length (images (sweep w (day_major (seq 0 MAX_FETCH_DAYS)) start))
                 <= TARGET_COUNT)%nat) by (apply Hlen; cbn; unfold TARGET_COUNT; lia).
  split; [|exact Hle].
  intros Hearly Hrun. specialize (Hstop Hearly).
  apply over_true in Hstop as [[h Hh]|Hfull]; [congruence|lia].
Qed.

(** C9, as stated, has each market go through all its day offsets before
    the next market is tried.  The code asks the second market for day 0
    right after the first one; day 1 of the first market only comes after
    all 32 markets were asked for day 0. *)
Lemma collector_market_major_counterexample :
  exists c,
    while_days silent_world (S MAX_FETCH_DAYS) 0 start = Some c
    /\ queries c !! 0%nat = Some (0%nat, "zh-CN")
    /\ queries c !! 1%nat = Some (0%nat, "en-US")
    /\ queries c !! 32%nat = Some (1%nat, "zh-CN")
    /\ market_major (seq 0 MAX_FETCH_DAYS) !! 1%nat = Some (1%nat, "zh-CN")
    /\ queries c <> market_major (seq 0 MAX_FETCH_DAYS).
Proof.
  eexists. split; [vm_compute; reflexivity|].
  repeat split; try (vm_compute; reflexivity).
  intros Heq. apply (f_equal (fun l => l !! 1%nat)) in Heq. vm_compute in Heq. discriminate Heq.
Qed.

(** ** Padding *)

Lemma pad_loop_cycles (original : list candidate) :
  original <> [] ->
  forall fuel imgs,
    (length imgs <= TARGET_COUNT)%nat ->
    (TARGET_COUNT - length imgs < fuel)%nat ->
    (forall i, (i < length imgs)%nat -> imgs !! i = original !! (i mod length original)%nat) ->
    exists p,
      pad_loop fuel original imgs = Some p
      /\ length p = TARGET_COUNT
      /\ imgs `prefix_of` p
      /\ forall i, (i < TARGET_COUNT)%nat -> p !! i = original !! (i mod length original)%nat.
Proof.
  intros Hne.
  assert (Hpos : (0 < length original)%nat) by (destruct original; [congruence|simpl; lia]).
  induction fuel as [|fuel IH]; intros imgs Hle Hfuel Hcyc; [lia|].
  cbn [pad_loop].
  destruct (Nat.ltb_spec (length imgs) TARGET_COUNT) as [Hshort|Hfull].
  - destruct (IH (imgs ++ [original !!! (length imgs mod length original)%nat]))
      as (p & Hp & Hlen & Hpre & Hall).
    + rewrite length_app. simpl. lia.
    + rewrite length_app. simpl. lia.
    + intros i Hi. rewrite length_app in Hi. simpl in Hi.
      destruct (decide (i = length imgs)) as [->|Hne'].
      * rewrite lookup_app_r, Nat.sub_diag by lia. simpl.
        symmetry. apply list_lookup_lookup_total_lt.
        apply Nat.mod_upper_bound. lia.
      * rewrite lookup_app_l by lia. apply Hcyc. lia.
    + exists p. split; [exact Hp|]. split; [exact Hlen|]. split; [|exact Hall].
      etrans; [|exact Hpre]. apply prefix_app_r. reflexivity.
  - exists imgs. split; [reflexivity|]. split; [lia|]. split; [reflexivity|].
    intros i Hi. apply Hcyc. lia.
Qed.

(** C5.  A collected list that is not empty and shorter than the target
    is padded to exactly the target length; the original entries stay in
    front, and entry [k] of the padded tail is [original[k mod
    original.length]], the original sequence over and over in its order.
    (Entry [i] of the whole list is [original[i mod original.length]]
    just the same.) *)
Theorem pad_cycles (original : list candidate) :
  original <> [] ->
  (length original < TARGET_COUNT)%nat ->
  exists p,
    pad original = Some p
    /\ length p = TARGET_COUNT
    /\ take (length original) p = original
    /\ (forall k, (k < TARGET_COUNT - length original)%nat ->
          drop (length original) p !! k = original !! (k mod length original)%nat)
    /\ (forall i, (i < TARGET_COUNT)%nat -> p !! i = original !! (i mod length original)%nat).
Proof.
  intros Hne Hshort.
  assert (Hpos : (0 < length original)%nat) by (destruct original; [congruence|simpl; lia]).
  destruct (pad_loop_cycles original Hne (S TARGET_COUNT) original) as (p & Hp & Hlen & Hpre & Hall).
  - lia.
  - lia.
  - intros i Hi. rewrite Nat.mod_small by exact Hi. reflexivity.
  - exists p. unfold pad.
    destruct (Nat.ltb_spec (length original) TARGET_COUNT); [|lia].
    split; [exact Hp|]. split; [exact Hlen|].
    destruct Hpre as [tail_ ->].
    split; [rewrite take_app_length; reflexivity|].
    split; [|exact Hall].
    intros k Hk. rewrite lookup_drop, Hall by lia.
    f_equal. rewrite Nat.add_comm.
    rewrite <- (Nat.mul_1_l (length original)) at 1.
    apply Nat.Div0.mod_add.
Qed.

Lemma pad_cycles_witness :
  three_found <> []
  /\ (length three_found < TARGET_COUNT)%nat
  /\ exists p, pad three_found = Some p
               /\ length p = TARGET_COUNT
               /\ p !! 3%nat = three_found !! 0%nat
               /\ p !! 49%nat = three_found !! 1%nat.
Proof.
  assert (H1 : three_found <> []) by discriminate.
  assert (H2 : (length three_found < TARGET_COUNT)%nat) by (vm_compute; lia).
  split; [exact H1|]. split; [exact H2|].
  destruct (pad_cycles three_found H1 H2) as (p & Hp & Hlen & _ & _ & Hall).
  exists p. split; [exact Hp|]. split; [exact Hlen|].
  split; [exact (Hall 3%nat ltac:(vm_compute; lia))|exact (Hall 49%nat ltac:(vm_compute; lia))].
Defined.

(** ** Deduplication *)

Section Dedup.

Variable w : world.

Lemma truthy_idemp (v : option string) : truthy (truthy v) = truthy v.
Proof.
  destruct v as [s|]; [|reflexivity]. simpl.
  destruct (decide (s = "")) as [|Hne]; [reflexivity|]. simpl.
  destruct (decide (s = "")); [contradiction|reflexivity].
Qed.

Lemma keyed_start : keyed start.
Proof.
  split; [constructor|]. split; [|constructor].
  intros k. cbn. set_solver.
Qed.

Lemma keyed_push st c :
  keyed st ->
  dedupeKey c ∉ seen st ->
  truthy (urlBase c) = urlBase c ->
  keyed {| images := images st ++ [c]; seen := {[dedupeKey c]} ∪ seen st;
           queries := queries st; halted := halted st |}.
Proof.
  intros (Hnd & Hseen & Hnorm) Hfresh Hc. unfold keyed. cbn [images seen].
  rewrite fmap_app. cbn [fmap list_fmap].
  split; [|split].
  - apply NoDup_app. split; [exact Hnd|]. split; [|apply NoDup_singleton].
    intros k Hk ->%list_elem_of_singleton. apply Hfresh, Hseen, Hk.
  - intros k. rewrite elem_of_union, elem_of_singleton, elem_of_app,
      list_elem_of_singleton, Hseen. tauto.
  - apply Forall_app. split; [exact Hnorm|]. constructor; [exact Hc|constructor].
Qed.

Lemma for_items_keyed : forall items st, keyed st -> keyed (for_items items st).
Proof.
  induction items as [|[|it] items IH]; intros st Hst; cbn [for_items]; [exact Hst..|].
  destruct (truthy (item_url it)) as [u|]; [|apply IH, Hst].
  destruct (decide _) as [|Hfresh]; [apply IH, Hst|].
  assert (Hpush := keyed_push st _ Hst Hfresh (truthy_idemp (item_urlbase it))).
  match goal with |- context [(?a <=? ?b)%nat] => destruct (a <=? b)%nat end;
    [exact Hpush|apply IH, Hpush].
Qed.

Lemma visit_keyed st q : keyed st -> keyed (visit w st q).
Proof.
  intros Hst. unfold visit.
  destruct (fetchJson _); [exact Hst| |exact Hst].
  apply for_items_keyed. exact Hst.
Qed.

Lemma foldl_visit_keyed : forall qs st, keyed st -> keyed (foldl (visit w) st qs).
Proof.
  induction qs as [|q qs IH]; intros st Hst; cbn [foldl]; [exact Hst|].
  apply IH, visit_keyed, Hst.
Qed.

(** Nothing is ever taken back from [images] or [seen]. *)
Lemma for_items_grows : forall items st,
  images st `prefix_of` images (for_items items st)
  /\ seen st ⊆ seen (for_items items st).
Proof.
  induction items as [|[|it] items IH]; intros st; cbn [for_items]; [split; reflexivity..|].
  destruct (truthy (item_url it)) as [u|]; [|apply IH].
  destruct (decide _) as [|Hfresh]; [apply IH|].
  match goal with |- context [(?a <=? ?b)%nat] => destruct (a <=? b)%nat end.
  - cbn [images seen]. split; [apply prefix_app_r; reflexivity|apply union_subseteq_r].
  - match goal with |- context [for_items items ?s] => pose proof (IH s) as [Hi Hs] end.
    cbn [images seen] in Hi, Hs. split.
    + etrans; [|exact Hi]. apply prefix_app_r. reflexivity.
    + etrans; [apply union_subseteq_r|exact Hs].
Qed.

Lemma visit_grows st q :
  images st `prefix_of` images (visit w st q) /\ seen st ⊆ seen (visit w st q).
Proof.
  unfold visit. destruct (fetchJson _); [split; reflexivity| |split; reflexivity].
  match goal with |- context [for_items ?i ?s] => exact (for_items_grows i s) end.
Qed.

Lemma foldl_visit_grows : forall qs st,
  images st `prefix_of` images (foldl (visit w) st qs)
  /\ seen st ⊆ seen (foldl (visit w) st qs).
Proof.
  induction qs as [|q qs IH]; intros st; cbn [foldl]; [split; reflexivity|].
  pose proof (IH (visit w st q)) as [Hi Hs]. pose proof (visit_grows st q) as [Hi' Hs'].
  split; etrans; eassumption.
Qed.

(** Once the loop is left, it stays left. *)
Lemma for_items_stays_halted : forall items st,
  is_Some (halted st) -> is_Some (halted (for_items items st)).
Proof.
  induction items as [|[|it] items IH]; intros st Hst; cbn [for_items];
    [exact Hst|eexists; reflexivity|].
  destruct (truthy (item_url it)) as [u|]; [|apply IH, Hst].
  destruct (decide _); [apply IH, Hst|].
  match goal with |- context [(?a <=? ?b)%nat] => destruct (a <=? b)%nat end;
    [exact Hst|apply IH; exact Hst].
Qed.

Lemma visit_stays_halted st q : is_Some (halted st) -> is_Some (halted (visit w st q)).
Proof.
  intros Hst. unfold visit.
  destruct (fetchJson _); [eexists; reflexivity| |exact Hst].
  apply for_items_stays_halted. exact Hst.
Qed.

Lemma foldl_visit_stays_halted : forall qs st,
  is_Some (halted st) -> is_Some (halted (foldl (visit w) st qs)).
Proof.
  induction qs as [|q qs IH]; intros st Hst; cbn [foldl]; [exact Hst|].
  apply IH, visit_stays_halted, Hst.
Qed.

Lemma foldl_visit_ran st q qs :
  halted (foldl (visit w) (visit w st q) qs) = None -> halted (visit w st q) = None.
Proof.
  intros Hrun. destruct (halted (visit w st q)) as [h|] eqn:Hh; [|reflexivity].
  destruct (foldl_visit_stays_halted qs (visit w st q)) as [h' Hh']; [eexists; exact Hh|].
  congruence.
Qed.

(** Short of the target and with the loop run to its end, every item with
    a usable [url] has its key in [seen] once the loop over the items is
    through. *)
Lemma for_items_seen : forall items st it u,
  Obj it ∈ items ->
  truthy (item_url it) = Some u ->
  halted (for_items items st) = None ->
  (length (images (for_items items st)) < TARGET_COUNT)%nat ->
  dedupeKey (candidate_of u it) ∈ seen (for_items items st).
Proof.
  induction items as [|[|it'] items IH]; intros st it u Hin Hu Hrun Hshort;
    [inversion Hin|discriminate Hrun|].
  apply elem_of_cons in Hin as [[= <-]|Hin].
  - cbn [for_items] in *. rewrite Hu in *. fold (candidate_of u it) in *.
    destruct (decide _) as [Hseen|Hfresh].
    + apply (proj2 (for_items_grows items st)), Hseen.
    + cbn [images] in *.
      match goal with |- context [(?a <=? ?b)%nat] =>
        destruct (Nat.leb_spec a b) as [Hfull|_] end.
      * cbn [images] in Hshort. lia.
      * match goal with |- context [for_items items ?s] =>
          apply (proj2 (for_items_grows items s)) end.
        cbn [seen]. set_solver.
  - cbn [for_items] in *.
    destruct (truthy (item_url it')) as [u'|]; [|apply IH; assumption].
    destruct (decide _) as [|Hfresh]; [apply IH; assumption|].
    cbn [images] in *.
    match goal with |- context [(?a <=? ?b)%nat] =>
      destruct (Nat.leb_spec a b) as [Hfull|_] end.
    + cbn [images] in Hshort. lia.
    + apply IH; assumption.
Qed.

Lemma foldl_visit_seen : forall qs st q p it u,
  q ∈ qs ->
  fetchJson (archive w (buildArchiveUrl q.1 BATCH_SIZE q.2)) = Resolved p ->
  Obj it ∈ extractImages p ->
  truthy (item_url it) = Some u ->
  halted (foldl (visit w) st qs) = None ->
  (length (images (foldl (visit w) st qs)) < TARGET_COUNT)%nat ->
  dedupeKey (candidate_of u it) ∈ seen (foldl (visit w) st qs).
Proof.
  induction qs as [|q' qs IH]; intros st q p it u Hq Hfetch Hit Hu Hrun Hshort;
    [inversion Hq|].
  cbn [foldl] in *.
  apply elem_of_cons in Hq as [<-|Hq]; [|eapply IH; eassumption].
  apply (proj2 (foldl_visit_grows qs (visit w st q))).
  pose proof (prefix_length _ _ (proj1 (foldl_visit_grows qs (visit w st q)))) as Hlen.
  assert (Hshort' : (length (images (visit w st q)) < TARGET_COUNT)%nat) by lia.
  apply foldl_visit_ran in Hrun.
  clear Hlen Hshort IH. unfold visit in *. rewrite Hfetch in *.
  apply for_items_seen; assumption.
Qed.

End Dedup.

(** With distinct keys, at most one element answers to a key, and exactly
    one when the key occurs. *)
Lemma filter_no_match {A} (P : A -> Prop) `{!forall x, Decision (P x)} (l : list A) :
  (forall x, x ∈ l -> ~ P x) -> filter P l = [].
Proof.
  induction l as [|a l IH]; intros Hnone; [reflexivity|].
  rewrite filter_cons. destruct (decide (P a)) as [Ha|_].
  - exfalso. apply (Hnone a); [left|exact Ha].
  - apply IH. intros x Hx. apply Hnone. right. exact Hx.
Qed.

Lemma keyed_at_most_one {A} (f : A -> string) (P : A -> Prop)
    `{!forall x, Decision (P x)} (b : string) (l : list A) :
  NoDup (f <$> l) ->
  (forall x, x ∈ l -> P x -> f x = b) ->
  (length (filter P l) <= 1)%nat.
Proof.
  induction l as [|a l IH]; intros Hnd Hkey; [simpl; lia|].
  cbn [fmap list_fmap] in Hnd. apply NoDup_cons in Hnd as [Ha Hnd].
  rewrite filter_cons. destruct (decide (P a)) as [HPa|_].
  - rewrite filter_no_match; [simpl; lia|].
    intros x Hx HPx. apply Ha.
    rewrite (Hkey a) by (left || exact HPa).
    rewrite <- (Hkey x) by (right; exact Hx) || exact HPx.
    apply list_elem_of_fmap. exists x. split; [reflexivity|exact Hx].
  - apply IH; [exact Hnd|]. intros x Hx. apply Hkey. right. exact Hx.
Qed.

Lemma keyed_exactly_one {A} (f : A -> string) (b : string) (l : list A) :
  NoDup (f <$> l) ->
  b ∈ f <$> l ->
  length (filter (fun x => f x = b) l) = 1%nat.
Proof.
  induction l as [|a l IH]; intros Hnd Hin; [inversion Hin|].
  cbn [fmap list_fmap] in Hnd, Hin. apply NoDup_cons in Hnd as [Ha Hnd].
  rewrite filter_cons. destruct (decide (f a = b)) as [Hab|Hab].
  - rewrite filter_no_match; [reflexivity|].
    intros x Hx Hxb. apply Ha. rewrite Hab, <- Hxb.
    apply list_elem_of_fmap. exists x. split; [reflexivity|exact Hx].
  - apply elem_of_cons in Hin as [Heq|Hin]; [congruence|]. apply IH; assumption.
Qed.

(** C4, as amended.  The keys of the collected candidates ([urlBase]
    when there is one, the full [url] otherwise) are pairwise distinct,
    so at most one collected candidate carries a given [urlBase], however
    often the archive returned it.  And when the collection runs to its
    end and ends short of the target (the case in which padding follows),
    every [urlbase] that the archive returned on an item with a usable
    [url], on any day and in any market, is the key of exactly one
    collected candidate. *)
Theorem collected_keys_distinct (w : world) :
  exists c,
    while_days w (S MAX_FETCH_DAYS) 0 start = Some c
    /\ NoDup (dedupeKey <$> images c)
    /\ (forall x, x ∈ images c -> dedupeKey x = default (url x) (urlBase x))
    /\ (forall b, (length (filter (fun x => urlBase x = Some b) (images c)) <= 1)%nat)
    /\ (halted c = None ->
        (length (images c) < TARGET_COUNT)%nat ->
        forall d m p it u b,
          (d < MAX_FETCH_DAYS)%nat ->
          m ∈ MARKETS ->
          fetchJson (archive w (buildArchiveUrl d BATCH_SIZE m)) = Resolved p ->
          Obj it ∈ extractImages p ->
          truthy (item_url it) = Some u ->
          truthy (item_urlbase it) = Some b ->
          length (filter (fun x => dedupeKey x = b) (images c)) = 1%nat).
Proof.
  destruct (sweep_take w (day_major (seq 0 MAX_FETCH_DAYS)) start)
    as (k & Hk & Heq & _ & Hstop).
  exists (sweep w (day_major (seq 0 MAX_FETCH_DAYS)) start).
  split; [apply while_days_sweep; [reflexivity|lia]|].
  destruct (foldl_visit_keyed w (take k (day_major (seq 0 MAX_FETCH_DAYS))) start keyed_start)
    as (Hnd & Hseen & Hnorm).
  rewrite <- Heq in Hnd, Hseen, Hnorm.
  set (c := sweep w (day_major (seq 0 MAX_FETCH_DAYS)) start) in *.
  rewrite Forall_forall in Hnorm.
  assert (Hkey : forall x, x ∈ images c -> dedupeKey x = default (url x) (urlBase x)).
  { intros x Hx. unfold dedupeKey. rewrite (Hnorm x Hx). reflexivity. }
  split; [exact Hnd|]. split; [exact Hkey|].
  split.
  - intros b. apply (keyed_at_most_one dedupeKey _ b); [exact Hnd|].
    intros x Hx Hb. rewrite (Hkey x Hx), Hb. reflexivity.
  - intros Hrun Hshort d m p it u b Hd Hm Hfetch Hit Hu Hb.
    apply keyed_exactly_one; [exact Hnd|]. apply Hseen.
    assert (Hall : k = length (day_major (seq 0 MAX_FETCH_DAYS))).
    { destruct (decide (k < length (day_major (seq 0 MAX_FETCH_DAYS)))%nat) as [Hlt|]; [|lia].
      specialize (Hstop Hlt). apply over_true in Hstop as [[h Hh]|Hfull]; [congruence|lia]. }
    assert (Hb' : dedupeKey (candidate_of u it) = b).
    { unfold dedupeKey, candidate_of. cbn [urlBase url].
      rewrite truthy_idemp, Hb. reflexivity. }
    rewrite <- Hb'. rewrite Hall, firstn_all in Heq. rewrite Heq.
    apply (foldl_visit_seen w _ start (d, m) p it u); [|exact Hfetch|exact Hit|exact Hu| |].
    + unfold day_major. apply list_elem_of_bind. exists d.
      split; [|apply elem_of_seq; lia].
      apply list_elem_of_fmap. exists m. split; [reflexivity|exact Hm].
    + rewrite <- Heq. exact Hrun.
    + rewrite <- Heq. exact Hshort.
Qed.

(** C4, as stated, has a [urlbase] that was returned twice occur exactly
    once in the collected list.  It occurs not at all when its items have
    no usable [url], when its key is already taken by the full URL of a
    candidate without [urlbase], or when its items come after the target
    was met. *)
Lemma collected_exactly_once_counterexample :
  (exists c, while_days urlless_world (S MAX_FETCH_DAYS) 0 start = Some c
     /\ length (filter (fun x => urlBase x = Some "/th?id=OHR.A") (images c)) = 0%nat)
  /\ (exists c, while_days colliding_world (S MAX_FETCH_DAYS) 0 start = Some c
       /\ length (images c) = 1%nat
       /\ length (filter (fun x => urlBase x = Some "https://www.bing.com/a") (images c))
          = 0%nat)
  /\ (exists c, while_days crowded_world (S MAX_FETCH_DAYS) 0 start = Some c
       /\ length (images c) = 50%nat
       /\ length (filter (fun x => urlBase x = Some "/th?id=OHR.Late") (images c)) = 0%nat).
Proof.
  split; [|split]; eexists; (split; [vm_compute; reflexivity|]);
    repeat split; vm_compute; reflexivity.
Qed.

(** ** The output directory *)

Lemma string_length_app (s t : string) :
  String.length (s +:+ t) = (String.length s + String.length t)%nat.
Proof. induction s as [|a s IH]; [reflexivity|]. simpl. f_equal. exact IH. Qed.

Lemma string_app_inj_r (t : string) : forall s1 s2, s1 +:+ t = s2 +:+ t -> s1 = s2.
Proof.
  induction s1 as [|a s1 IH]; intros [|b s2] Heq; [reflexivity| | |].
  - apply (f_equal String.length) in Heq.
    rewrite !string_length_app in Heq. simpl in Heq. lia.
  - apply (f_equal String.length) in Heq.
    rewrite !string_length_app in Heq. simpl in Heq. lia.
  - simpl in Heq. injection Heq as -> Heq. f_equal. apply IH, Heq.
Qed.

Lemma jpg_inj (j k : nat) : jpg j = jpg k -> j = k.
Proof. unfold jpg. intros Heq%string_app_inj_r. apply (inj pretty), Heq. Qed.

Section Outputs.

Variable w : world.

(** [compressToLimit] touches the file only to replace it by an output
    within the budget, and rejects only when the file is not there or
    the encoder throws on it. *)
Lemma compressToLimit_disk (filePath : string) (maxBytes : N) (fs : Disk) :
  let r := compressToLimit w filePath maxBytes fs in
  match cp_promise r with
  | Resolved true => exists out, cp_disk r = <[filePath := out]> fs /\ blen out <= maxBytes
  | Resolved false => cp_disk r = fs
  | Rejected _ =>
      cp_disk r = fs
      /\ (fs !! filePath = None
          \/ exists input targetWidth quality,
               fs !! filePath = Some input
               /\ sharp_toBuffer w input targetWidth quality = None)
  | Pending => False
  end.
Proof.
  unfold compressToLimit.
  destruct (fs !! filePath) as [input|] eqn:Hfile; cbn [cp_promise cp_disk];
    [|split; [reflexivity|left; reflexivity]].
  destruct (sharp_metadata w input) as [meta|]; cbn [cp_promise cp_disk]; [|reflexivity].
  destruct (for_widths_outcome (sharp_toBuffer w input) maxBytes
              (candidates (default 0 (meta_width meta))) []) as (done & _ & Hout).
  destruct (for_widths (sharp_toBuffer w input) maxBytes
              (candidates (default 0 (meta_width meta))) []) as [[|out|err] tried];
    cbn [fst cp_promise cp_disk] in *.
  - reflexivity.
  - destruct Hout as (p & before & after & _ & _ & _ & _ & Hfit).
    exists out. split; [reflexivity|exact Hfit].
  - split; [reflexivity|]. right.
    destruct Hout as (p & before & after & _ & _ & _ & Henc).
    exists input, p.1, p.2. split; [reflexivity|exact Henc].
Qed.

(** One URL of the ladder: only [outPath] can change; a stored file is
    within the budget; and when nothing is stored, [outPath] is absent,
    or as it was, or the encoder threw on the downloaded body. *)
Lemma try_url_effect (imageUrl outPath : string) (st : downloader) :
  let r := try_url w imageUrl outPath st in
  (forall p, p <> outPath -> disk r.2 !! p = disk st !! p)
  /\ match r.1 with
     | Stored =>
         saved r.2 = S (saved st)
         /\ exists f, disk r.2 !! outPath = Some f /\ blen f <= MAX_BYTES
     | _ =>
         saved r.2 = saved st
         /\ (disk r.2 !! outPath = None
             \/ disk r.2 !! outPath = disk st !! outPath
             \/ encoder_rejects_served w)
     end.
Proof.
  unfold try_url.
  set (run := downloadWithLimit (image_host w (requests st) imageUrl) outPath
                MAX_DOWNLOAD_BYTES (disk st)).
  destruct (downloadWithLimit_disk (image_host w (requests st) imageUrl) outPath
              MAX_DOWNLOAD_BYTES (disk st))
    as [[Hd Hnok]|(res & Hres & _ & Hcomplete & Hp & Hd & Hle)];
    fold run in Hd |- *.
  - fold run in Hnok.
    destruct (dl_promise run) as [|[n|reason]|err]; cbn [fst snd disk saved ok];
      try (rewrite Hd; split; [reflexivity|split; [reflexivity|right; left; reflexivity]]).
    exfalso. exact (Hnok n eq_refl).
  - fold run in Hp. rewrite Hp. cbn [ok disk]. rewrite Hd, lookup_insert_eq.
    set (file := Buffer_concat (body res)) in *.
    destruct (N.ltb_spec MAX_BYTES (blen file)) as [Hbig|Hsmall].
    + pose proof (compressToLimit_disk outPath MAX_BYTES (<[outPath := file]> (disk st)))
        as Hc. cbv zeta in Hc.
      destruct (cp_promise (compressToLimit w outPath MAX_BYTES (<[outPath := file]> (disk st))))
        as [|[|]|err]; cbn [fst snd disk saved].
      * contradiction.
      * destruct Hc as (out & -> & Hfit). split; [|split; [reflexivity|]].
        -- intros p Hne. rewrite !lookup_insert_ne by congruence. reflexivity.
        -- exists out. split; [apply lookup_insert_eq|exact Hfit].
      * rewrite Hc. split; [|split; [reflexivity|left; apply lookup_delete_eq]].
        intros p Hne. rewrite lookup_delete_ne, lookup_insert_ne by congruence. reflexivity.
      * destruct Hc as [-> [Hnone|(input & tw & q & Hin & Hthrow)]].
        -- rewrite lookup_insert_eq in Hnone. discriminate Hnone.
        -- rewrite lookup_insert_eq in Hin. injection Hin as <-.
           split; [|split; [reflexivity|right; right]].
           ++ intros p Hne. rewrite lookup_insert_ne by congruence. reflexivity.
           ++ exists (requests st), imageUrl, res, tw, q.
              split; [exact Hres|]. split; [exact Hcomplete|exact Hthrow].
    + cbn [fst snd disk saved]. split; [|split; [reflexivity|]].
      * intros p Hne. rewrite lookup_insert_ne by congruence. reflexivity.
      * exists file. split; [apply lookup_insert_eq|exact Hsmall].
Qed.

(** The whole ladder of one candidate. *)
Lemma for_urls_effect (outPath : string) : forall urls st,
  let r := for_urls w urls outPath st in
  (forall p, p <> outPath -> disk r.2 !! p = disk st !! p)
  /\ match r.1 with
     | Stored =>
         saved r.2 = S (saved st)
         /\ exists f, disk r.2 !! outPath = Some f /\ blen f <= MAX_BYTES
     | _ =>
         saved r.2 = saved st
         /\ (disk r.2 !! outPath = None
             \/ disk r.2 !! outPath = disk st !! outPath
             \/ encoder_rejects_served w)
     end.
Proof.
  induction urls as [|imageUrl rest IH]; intros st; cbn [for_urls].
  - cbn [fst snd]. split; [reflexivity|]. split; [reflexivity|right; left; reflexivity].
  - pose proof (try_url_effect imageUrl outPath st) as Htry. cbv zeta in Htry.
    destruct (try_url w imageUrl outPath st) as [e st']. cbn [fst snd] in Htry.
    destruct e; [exact Htry| |exact Htry].
    destruct Htry as (Hframe & Hsaved & Hpath).
    specialize (IH st'). cbv zeta in IH.
    destruct (for_urls w rest outPath st') as [e' st'']. cbn [fst snd] in IH |- *.
    destruct IH as (Hframe' & Hrest).
    split; [intros p Hne; rewrite Hframe', Hframe by exact Hne; reflexivity|].
    destruct e'.
    + destruct Hrest as [Hs Hf]. split; [lia|exact Hf].
    + destruct Hrest as [Hs Hp']. split; [lia|].
      destruct Hp' as [Hn|[Hsame|Ht]]; [left; exact Hn| |right; right; exact Ht].
      rewrite Hsame. exact Hpath.
    + destruct Hrest as [Hs Hp']. split; [lia|].
      destruct Hp' as [Hn|[Hsame|Ht]]; [left; exact Hn| |right; right; exact Ht].
      rewrite Hsame. exact Hpath.
Qed.

End Outputs.

Section Directory.

Variable w : world.

Lemma outputs_ok_slot (c : candidate) (st : downloader) :
  outputs_ok w st ->
  (saved st < TARGET_COUNT)%nat ->
  outputs_ok w (for_urls w (url_ladder c) (jpg (saved st + 1)) st).2.
Proof.
  intros (Hle & Hfiles & Honly) Hshort.
  pose proof (for_urls_effect w (jpg (saved st + 1)) (url_ladder c) st) as Heff.
  cbv zeta in Heff.
  destruct (for_urls w (url_ladder c) (jpg (saved st + 1)) st) as [e st'].
  cbn [fst snd] in *. destruct Heff as [Hframe Hcase].
  assert (Hkept : forall k, (1 <= k <= saved st)%nat ->
            exists f, disk st' !! jpg k = Some f /\ blen f <= MAX_BYTES).
  { intros k Hk. rewrite Hframe; [apply Hfiles, Hk|].
    intros Heq%jpg_inj. lia. }
  assert (Hold : forall p, p <> jpg (saved st + 1) -> is_Some (disk st' !! p) ->
            exists k, p = jpg k /\ (1 <= k <= saved st)%nat).
  { intros p Hne Hp. rewrite Hframe in Hp by exact Hne.
    destruct (Honly p Hp) as (k & -> & Hk1 & [Hk|[[-> _] _]]); [|congruence].
    exists k. split; [reflexivity|lia]. }
  destruct e; unfold outputs_ok.
  - destruct Hcase as [Hsaved (f & Hf & Hfit)]. rewrite Hsaved.
    split; [lia|]. split.
    + intros k Hk. destruct (decide (k = S (saved st))) as [->|Hne].
      * exists f. replace (S (saved st)) with (saved st + 1)%nat by lia.
        split; [exact Hf|exact Hfit].
      * apply Hkept. lia.
    + intros p Hp. destruct (decide (p = jpg (saved st + 1))) as [->|Hne].
      * exists (saved st + 1)%nat. split; [reflexivity|]. split; [lia|left; lia].
      * destruct (Hold p Hne Hp) as (k & -> & Hk). exists k.
        split; [reflexivity|]. split; [lia|left; lia].
  - destruct Hcase as [Hsaved Hpath]. rewrite Hsaved.
    split; [exact Hle|]. split; [exact Hkept|].
    intros p Hp. destruct (decide (p = jpg (saved st + 1))) as [->|Hne].
    + exists (saved st + 1)%nat. split; [reflexivity|]. split; [lia|right].
      split; [lia|].
      destruct Hpath as [Hnone|[Hsame|Hthrow]]; [|  |exact Hthrow].
      * rewrite Hnone in Hp. destruct Hp as [? Hp]. discriminate Hp.
      * rewrite Hsame in Hp.
        destruct (Honly _ Hp) as (k & Hk & _ & [Hki|[_ Hthrow]]); [|exact Hthrow].
        apply jpg_inj in Hk. lia.
    + destruct (Hold p Hne Hp) as (k & -> & Hk). exists k.
      split; [reflexivity|]. split; [lia|left; lia].
  - destruct Hcase as [Hsaved Hpath]. rewrite Hsaved.
    split; [exact Hle|]. split; [exact Hkept|].
    intros p Hp. destruct (decide (p = jpg (saved st + 1))) as [->|Hne].
    + exists (saved st + 1)%nat. split; [reflexivity|]. split; [lia|right].
      split; [lia|].
      destruct Hpath as [Hnone|[Hsame|Hthrow]]; [|  |exact Hthrow].
      * rewrite Hnone in Hp. destruct Hp as [? Hp]. discriminate Hp.
      * rewrite Hsame in Hp.
        destruct (Honly _ Hp) as (k & Hk & _ & [Hki|[_ Hthrow]]); [|exact Hthrow].
        apply jpg_inj in Hk. lia.
    + destruct (Hold p Hne Hp) as (k & -> & Hk). exists k.
      split; [reflexivity|]. split; [lia|left; lia].
Qed.

Lemma outputs_ok_for_images : forall imgs st,
  outputs_ok w st -> outputs_ok w (for_images w imgs st).2.
Proof.
  induction imgs as [|c rest IH]; intros st Hst; cbn [for_images]; [exact Hst|].
  destruct (Nat.ltb_spec (saved st) TARGET_COUNT) as [Hshort|_]; [|exact Hst].
  pose proof (outputs_ok_slot c st Hst Hshort) as Hslot.
  destruct (for_urls w (url_ladder c) (jpg (saved st + 1)) st) as [e st'].
  cbn [snd] in Hslot. destruct e; [apply IH, Hslot|apply IH, Hslot|exact Hslot].
Qed.

Lemma outputs_ok_empty : outputs_ok w {| disk := ∅; saved := 0; requests := 0 |}.
Proof.
  split; [cbn; lia|]. split; [cbn; intros; lia|].
  cbn. intros p [f Hf]. rewrite lookup_empty in Hf. discriminate Hf.
Qed.

(** [main] returns: the fuel of its loops is enough.  What it comes to,
    case by case; [c] is the sweep of the day-major grid. *)
Lemma main_shape (fs0 : Disk) :
  let c := sweep w (day_major (seq 0 MAX_FETCH_DAYS)) start in
  let st0 := {| disk := fs0; saved := 0; requests := 0 |} in
  exists r,
    main w fs0 = Some r
    /\ ((is_Some (mkdir_error w)
         /\ r = {| ended := Crashed; collected := start; padded := []; final := st0 |})
        \/ (mkdir_error w = None
            /\ ((exists err, halted c = Some (Threw err))
                /\ r = {| ended := Crashed; collected := c; padded := []; final := st0 |}
                \/ halted c = Some Awaits
                   /\ r = {| ended := Waiting; collected := c; padded := []; final := st0 |}
                \/ halted c = None /\ images c = []
                   /\ r = {| ended := NoImages; collected := c; padded := []; final := st0 |}
                \/ halted c = None /\ images c <> []
                   /\ exists p,
                        pad (images c) = Some p
                        /\ length p = TARGET_COUNT
                        /\ images c `prefix_of` p
                        /\ (forall x, x ∈ p -> x ∈ images c)
                        /\ r = {| ended := if (for_images w p st0).1 then Waiting else Finished;
                                  collected := c; padded := p;
                                  final := (for_images w p st0).2 |}))).
Proof.
  cbv zeta. unfold main. fold start.
  destruct (mkdir_error w) as [err|].
  { eexists. split; [reflexivity|]. left. split; [eexists; reflexivity|reflexivity]. }
  rewrite (while_days_sweep w MAX_FETCH_DAYS 0 (S MAX_FETCH_DAYS)) by (reflexivity || lia).
  cbn [mbind option_bind].
  set (c := sweep w (day_major (seq 0 MAX_FETCH_DAYS)) start).
  destruct (halted c) as [[err|]|] eqn:Hh.
  { eexists. split; [reflexivity|]. right. split; [reflexivity|].
    left. split; [eexists; reflexivity|reflexivity]. }
  { eexists. split; [reflexivity|]. right. split; [reflexivity|].
    right; left. split; reflexivity. }
  destruct (images c) as [|c0 cs] eqn:Himgs.
  - cbn [length Nat.eqb]. eexists. split; [reflexivity|]. right. split; [reflexivity|].
    right; right; left. repeat split.
  - change (length (c0 :: cs) =? 0)%nat with false. cbv iota.
    assert (Hle : (length (images c) <= TARGET_COUNT)%nat).
    { apply (sweep_length w (day_major (seq 0 MAX_FETCH_DAYS)) start).
      cbn. unfold TARGET_COUNT. lia. }
    rewrite Himgs in Hle.
    assert (Hpad : exists p, pad (c0 :: cs) = Some p /\ length p = TARGET_COUNT
                             /\ (c0 :: cs) `prefix_of` p
                             /\ forall x, x ∈ p -> x ∈ c0 :: cs).
    { unfold pad. destruct (Nat.ltb_spec (length (c0 :: cs)) TARGET_COUNT) as [Hshort|Hfull].
      - destruct (pad_loop_cycles (c0 :: cs) ltac:(discriminate) (S TARGET_COUNT) (c0 :: cs))
          as (p & Hp & Hlen & Hcyc); [lia|lia| |].
        + intros i Hi. rewrite Nat.mod_small by exact Hi. reflexivity.
        + destruct Hcyc as [Hpre Hcyc].
          exists p. split; [exact Hp|]. split; [lia|]. split; [exact Hpre|].
          intros x [i Hi]%list_elem_of_lookup.
          assert (Hip : (i < length p)%nat) by (eapply lookup_lt_Some; exact Hi).
          rewrite (Hcyc i) in Hi by lia.
          apply list_elem_of_lookup. eexists. exact Hi.
      - exists (c0 :: cs). split; [reflexivity|]. split; [lia|].
        split; [reflexivity|intros x Hx; exact Hx]. }
    destruct Hpad as (p & Hp & Hlen & Hpre & Hsub).
    rewrite Hp. cbn [mbind option_bind].
    destruct (for_images w p {| disk := fs0; saved := 0; requests := 0 |}) as [stuck d] eqn:Hd.
    eexists. split; [reflexivity|]. right. split; [reflexivity|].
    right; right; right. split; [reflexivity|]. split; [discriminate|].
    exists p. split; [reflexivity|]. split; [exact Hlen|]. split; [exact Hpre|].
    split; [exact Hsub|]. rewrite Hd. reflexivity.
Qed.

(** The downloader's part of a run: nothing, or the loop over a list of
    [TARGET_COUNT] entries. *)
Lemma main_final (fs0 : Disk) :
  let st0 := {| disk := fs0; saved := 0; requests := 0 |} in
  exists r,
    main w fs0 = Some r
    /\ ((final r = st0 /\ padded r = [] /\ ended r <> Finished)
        \/ (length (padded r) = TARGET_COUNT
            /\ final r = (for_images w (padded r) st0).2
            /\ ended r = if (for_images w (padded r) st0).1 then Waiting else Finished)).
Proof.
  cbv zeta.
  destruct (main_shape fs0) as (r & Hr & [[_ Heq]|[_ [[_ Heq]|[[_ Heq]|[(_ & _ & Heq)|Hrun]]]]]);
    exists r; (split; [exact Hr|]);
    try (left; rewrite Heq; repeat split; discriminate).
  destruct Hrun as (_ & _ & p & _ & Hlen & _ & _ & Heq). right. rewrite Heq.
  cbn [padded final ended]. repeat split. exact Hlen.
Qed.

(** Starting from an empty directory, [main] leaves it in order. *)
Lemma main_outputs_ok :
  exists r, main w ∅ = Some r /\ outputs_ok w (final r).
Proof.
  destruct (main_final ∅) as (r & Hr & [(Heq & _)|(_ & Heq & _)]);
    exists r; (split; [exact Hr|]); rewrite Heq.
  - apply outputs_ok_empty.
  - apply outputs_ok_for_images, outputs_ok_empty.
Qed.

Lemma encoder_rejects_served_throws : encoder_rejects_served w -> encoder_throws w.
Proof.
  intros (k & imageUrl & res & tw & q & _ & _ & Hthrow).
  exists (Buffer_concat (body res)), tw, q. exact Hthrow.
Qed.

End Directory.

(** The count and the names of the files, on every run from an empty
    directory: the files are [1.jpg] to [n.jpg] for an [n] of at most the
    target, where [n] is the number of saved images, or one more when the
    file of the slot after the last saved one was left behind by a
    throwing encoder. *)
Lemma output_files_consecutive (w : world) :
  exists r n,
    main w ∅ = Some r
    /\ (n <= TARGET_COUNT)%nat
    /\ (saved (final r) <= n <= saved (final r) + 1)%nat
    /\ (forall p, p ∈ dom (disk (final r)) <-> exists k, (1 <= k <= n)%nat /\ p = jpg k)
    /\ size (dom (disk (final r))) = n
    /\ (forall k, (1 <= k <= saved (final r))%nat ->
          exists f, disk (final r) !! jpg k = Some f /\ blen f <= MAX_BYTES)
    /\ (~ encoder_throws w -> n = saved (final r)).
Proof.
  destruct (main_outputs_ok w) as (r & Hr & Hle & Hfiles & Honly).
  set (d := final r) in *.
  set (n := if decide (is_Some (disk d !! jpg (saved d + 1))) then (saved d + 1)%nat
            else saved d).
  assert (Hstale : is_Some (disk d !! jpg (saved d + 1)) ->
            (saved d + 1 <= TARGET_COUNT)%nat /\ encoder_throws w).
  { intros Hp. destruct (Honly _ Hp) as (k & Hk & _ & [Hki|[[_ Hkt] Hthrow]]).
    - apply jpg_inj in Hk. lia.
    - apply jpg_inj in Hk. split; [lia|apply encoder_rejects_served_throws, Hthrow]. }
  assert (Hdom : forall p, p ∈ dom (disk d) <-> exists k, (1 <= k <= n)%nat /\ p = jpg k).
  { intros p. rewrite elem_of_dom. split.
    - intros Hp. destruct (Honly p Hp) as (k & -> & Hk1 & [Hk|[[-> _] _]]).
      + exists k. split; [|reflexivity]. unfold n. destruct (decide _); lia.
      + exists (saved d + 1)%nat. split; [|reflexivity]. unfold n.
        destruct (decide _) as [|Hno]; [lia|contradiction].
    - intros (k & Hk & ->). destruct (decide (k <= saved d)%nat) as [Hks|Hks].
      + destruct (Hfiles k) as (f & Hf & _); [lia|]. rewrite Hf. eexists. reflexivity.
      + unfold n in Hk. destruct (decide _) as [Hyes|]; [|lia].
        replace k with (saved d + 1)%nat by lia. exact Hyes. }
  exists r, n. fold d. split; [exact Hr|].
  split; [unfold n; destruct (decide _) as [Hyes|]; [apply Hstale, Hyes|exact Hle]|].
  split; [unfold n; destruct (decide _); lia|].
  split; [exact Hdom|].
  split; [|split; [exact Hfiles|]].
  - assert (Heq : dom (disk d) = list_to_set (jpg <$> seq 1 n)).
    { apply set_eq. intros p. rewrite Hdom, elem_of_list_to_set, list_elem_of_fmap.
      split.
      - intros (k & Hk & ->). exists k. split; [reflexivity|]. apply elem_of_seq. lia.
      - intros (k & -> & Hk%elem_of_seq). exists k. split; [lia|reflexivity]. }
    rewrite Heq, size_list_to_set, length_fmap, length_seq; [reflexivity|].
    apply NoDup_fmap_2_strong; [|apply NoDup_seq].
    intros j k _ _ Hjk. apply jpg_inj, Hjk.
  - intros Hquiet. unfold n. destruct (decide _) as [Hyes|]; [|reflexivity].
    exfalso. apply Hquiet, Hstale, Hyes.
Qed.



(** C1.  In [truncated_world] the first 49 images find no host; the
    download of the last image's canonical URL succeeds with 512001
    bytes, over the budget of 512000.  [compressToLimit] reads the
    metadata and throws out of its first re-encoding; the [catch] of the
    URL loop takes the exception for a failed download and goes on, and
    the file is neither rewritten nor unlinked.  The run finishes with no
    image saved and [1.jpg] of 512001 bytes in the directory. *)
Theorem oversized_file_left_behind :
  MAX_BYTES < 512001
  /\ option_map
       (fun r => (ended r, saved (final r), blen <$> disk (final r) !! "1.jpg"))
       (main truncated_world ∅)
     = Some (Finished, 0%nat, Some 512001).
Proof. split; [reflexivity|]. vm_compute. reflexivity. Qed.

(** C3.  In the same run the directory holds [1.jpg] while the number of
    saved images is 0: the file of the slot after the last saved one stays
    behind, uncounted. *)
Theorem leftover_file_not_counted :
  option_map
    (fun r => (saved (final r), elements (dom (disk (final r)))))
    (main truncated_world ∅)
  = Some (0%nat, ["1.jpg"]).
Proof. vm_compute. reflexivity. Qed.

(** ** The exit status *)

Section Barren.

Variable w : world.









End Barren.




(** A run that collected fifty images, saved none, and exits with status
    0. *)
Lemma partial_run_exits_zero :
  option_map
    (fun r => (length (images (collected r)), saved (final r), exit_status (ended r)))
    (main truncated_world ∅)
  = Some (50%nat, 0%nat, 0).
Proof. vm_compute. reflexivity. Qed.

(** ** More on the downloader *)

Lemma blen_take_le (l : list Buffer) (j : nat) :
  blen (Buffer_concat (take j l)) <= blen (Buffer_concat l).
Proof.
  rewrite <- (take_drop j l) at 2. unfold Buffer_concat. rewrite concat_app, blen_app. lia.
Qed.

Lemma blen_take_mono (l : list Buffer) (j j' : nat) :
  (j <= j')%nat -> blen (Buffer_concat (take j l)) <= blen (Buffer_concat (take j' l)).
Proof.
  intros Hle. replace (take j l) with (take j (take j' l)); [apply blen_take_le|].
  rewrite take_take. f_equal. lia.
Qed.

(** The bytes go over the limit at one chunk only. *)
Lemma crosses_unique (body : list Buffer) (maxBytes : N) (k k' : nat) :
  crosses body maxBytes k -> crosses body maxBytes k' -> k = k'.
Proof.
  intros (Hk & Hb & Ha) (Hk' & Hb' & Ha').
  destruct (Nat.lt_trichotomy k k') as [Hlt|[Heq|Hgt]]; [exfalso|exact Heq|exfalso].
  - pose proof (blen_take_mono body k (k' - 1)). lia.
  - pose proof (blen_take_mono body k' (k - 1)). lia.
Qed.

Lemma crosses_overflows (body : list Buffer) (maxBytes : N) (k : nat) :
  crosses body maxBytes k -> maxBytes < blen (Buffer_concat body).
Proof. intros (_ & _ & Ha). pose proof (blen_take_le body k). lia. Qed.

(** Where a stream is destroyed: at the first chunk with which the bytes
    received go over the limit.  What was buffered before it is within
    the limit. *)
Lemma emit_destroyed_at (res : response) (dest : string) (maxBytes : N) (fs : Disk) :
  forall rest pre l k,
    chunks l = pre -> total l = blen (Buffer_concat pre) -> total l <= maxBytes ->
    dl_fate (emit res dest maxBytes rest (length pre) l fs) = Destroyed k ->
    (length pre < k <= length pre + length rest)%nat
    /\ blen (Buffer_concat (take (k - 1) (pre ++ rest))) <= maxBytes
    /\ maxBytes < blen (Buffer_concat (take k (pre ++ rest))).
Proof.
  induction rest as [|chunk rest IH]; intros pre l k Hch Htot Hle Hfate; cbn [emit] in Hfate.
  - unfold on_end in Hfate. destruct (complete res); [|discriminate Hfate].
    destruct (aborted l); discriminate Hfate.
  - assert (Hsnoc : blen (Buffer_concat (pre ++ [chunk])) = total l + blen chunk).
    { unfold Buffer_concat. rewrite concat_app, blen_app. cbn [concat].
      rewrite app_nil_r. fold (Buffer_concat pre). rewrite <- Htot. reflexivity. }
    assert (Hlen : length (pre ++ [chunk]) = S (length pre))
      by (rewrite length_app; cbn; lia).
    assert (Happ : pre ++ chunk :: rest = (pre ++ [chunk]) ++ rest)
      by (rewrite <- app_assoc; reflexivity).
    unfold on_data in Hfate.
    destruct (N.ltb_spec maxBytes (total l + blen chunk)) as [Hover|Hfit].
    + assert (Hk : k = S (length pre)).
      { destruct (end_parsed_with res (S (length pre))); unfold on_end in Hfate;
          cbn [aborted dl_fate] in Hfate; injection Hfate as <-; reflexivity. }
      subst k. split; [cbn [length]; lia|].
      replace (S (length pre) - 1)%nat with (length pre) by lia.
      rewrite take_app_length.
      rewrite Happ, <- Hlen, take_app_length, Hsnoc, <- Htot.
      split; [exact Hle|exact Hover].
    + rewrite <- Hlen in Hfate.
      apply IH in Hfate; [| cbn [chunks]; rewrite Hch; reflexivity
                          | cbn [total]; rewrite Hsnoc; reflexivity
                          | cbn [total]; exact Hfit].
      rewrite Happ. rewrite Hlen in Hfate. cbn [length].
      destruct Hfate as (Hk & Hb & Ha). split; [lia|]. split; assumption.
Qed.

(** A 200 response that passes the header check and whose body goes
    over the limit. *)
Lemma downloadWithLimit_overflow_at (res : response) (dest : string) (maxBytes : N)
    (fs : Disk) :
  statusCode res = 200 ->
  (forall n, content_length res = Some n -> n <= maxBytes) ->
  maxBytes < blen (Buffer_concat (body res)) ->
  let r := downloadWithLimit (Response res) dest maxBytes fs in
  exists k,
    crosses (body res) maxBytes k
    /\ dl_fate r = Destroyed k
    /\ dl_disk r = fs
    /\ dl_promise r = if end_parsed_with res k then Resolved (DlFail "too-large") else Pending.
Proof.
  intros Hs Hh Hover. cbv zeta. rewrite (downloadWithLimit_streams res dest maxBytes fs Hs Hh).
  destruct (emit_overflow res dest maxBytes fs (body res) 0
              {| chunks := []; total := 0; aborted := false |})
    as (Hd & k & Hk & Hrange & Hp); [cbn [total]; lia|cbn [total]; lia|].
  exists k. split; [|split; [exact Hk|split; [exact Hd|exact Hp]]].
  clear Hp Hd.
  apply (emit_destroyed_at res dest maxBytes fs (body res) [] _ k) in Hk;
    [|reflexivity|reflexivity|cbn [total]; lia].
  cbn [length app] in Hk. destruct Hk as (H1 & H2 & H3).
  split; [lia|]. split; assumption.
Qed.

(** On which replies the promise of [downloadWithLimit] is never
    settled. *)
Lemma downloadWithLimit_pending_iff (reply : http_get) (dest : string) (maxBytes : N)
    (fs : Disk) :
  dl_promise (downloadWithLimit reply dest maxBytes fs) = Pending
  <-> exists res, reply = Response res /\ never_settles res maxBytes.
Proof.
  split.
  - intros Hp. destruct reply as [msg|res]; [discriminate Hp|].
    exists res. split; [reflexivity|].
    assert (Hs : statusCode res = 200).
    { cbn [downloadWithLimit] in Hp. unfold on_response in Hp.
      destruct (N.eqb_spec (statusCode res) 200) as [Hs|_]; [exact Hs|discriminate Hp]. }
    assert (Hh : forall n, content_length res = Some n -> n <= maxBytes).
    { intros n Hn. cbn [downloadWithLimit] in Hp. unfold on_response in Hp.
      rewrite Hs, Hn in Hp. change (negb (200 =? 200)) with false in Hp. cbv iota in Hp.
      destruct (N.ltb_spec maxBytes n); [discriminate Hp|assumption]. }
    split; [exact Hs|]. split; [exact Hh|].
    destruct (N.le_gt_cases (blen (Buffer_concat (body res))) maxBytes) as [Hle|Hgt].
    + left. split; [exact Hle|].
      destruct (complete res) eqn:Hc; [|reflexivity].
      rewrite (downloadWithLimit_streams res dest maxBytes fs Hs Hh) in Hp.
      rewrite emit_within in Hp; [discriminate Hp|exact Hc|exact listening_start|].
      cbn [total]. lia.
    + right. destruct (downloadWithLimit_overflow_at res dest maxBytes fs Hs Hh Hgt)
        as (k & Hk & _ & _ & Hp').
      exists k. split; [exact Hk|]. rewrite Hp in Hp'.
      destruct (end_parsed_with res k); [discriminate Hp'|reflexivity].
  - intros (res & -> & Hs & Hh & [[Hle Hc]|(k & Hk & Hend)]).
    + rewrite (downloadWithLimit_streams res dest maxBytes fs Hs Hh).
      rewrite emit_starved; [reflexivity|exact Hc|cbn [total]; lia].
    + destruct (downloadWithLimit_overflow_at res dest maxBytes fs Hs Hh
                  (crosses_overflows _ _ _ Hk)) as (k' & Hk' & _ & _ & Hp).
      rewrite (crosses_unique _ _ _ _ Hk' Hk) in Hp. rewrite Hend in Hp. exact Hp.
Qed.

(** [downloadWithLimit] resolves with [{ ok: true }] exactly on a complete
    200 response that is within the limit by its header (if any) and by
    its body; in every other case the disk is as it was. *)
Theorem downloadWithLimit_ok_iff (reply : http_get) (dest : string) (maxBytes : N) (fs : Disk) :
  let r := downloadWithLimit reply dest maxBytes fs in
  ((exists n, dl_promise r = Resolved (DlOk n))
   <-> exists res, reply = Response res
                   /\ statusCode res = 200
                   /\ complete res = true
                   /\ (forall n, content_length res = Some n -> n <= maxBytes)
                   /\ blen (Buffer_concat (body res)) <= maxBytes)
  /\ ((exists n, dl_promise r = Resolved (DlOk n)) ->
      exists res, reply = Response res
                  /\ dl_promise r = Resolved (DlOk (blen (Buffer_concat (body res))))
                  /\ dl_disk r = <[dest := Buffer_concat (body res)]> fs)
  /\ ((forall n, dl_promise r <> Resolved (DlOk n)) -> dl_disk r = fs).
Proof.
  cbv zeta. split; [|split].
  - split.
    + intros [n Hn].
      destruct (downloadWithLimit_disk reply dest maxBytes fs)
        as [[_ Hnok]|(res & -> & Hs & Hc & _ & _ & Hle)]; [exfalso; exact (Hnok n Hn)|].
      exists res. split; [reflexivity|]. split; [exact Hs|]. split; [exact Hc|].
      split; [|exact Hle].
      intros m Hm. rewrite (content_length_complete res Hc m Hm). exact Hle.
    + intros (res & -> & Hs & Hc & Hh & Hb).
      exists (blen (Buffer_concat (body res))).
      rewrite (downloadWithLimit_streams res dest maxBytes fs Hs Hh).
      rewrite emit_within; [reflexivity|exact Hc|exact listening_start|cbn [total]; lia].
  - intros [n Hn].
    destruct (downloadWithLimit_disk reply dest maxBytes fs)
      as [[_ Hnok]|(res & -> & _ & _ & Hp & Hd & _)]; [exfalso; exact (Hnok n Hn)|].
    exists res. split; [reflexivity|]. split; [exact Hp|exact Hd].
  - intros Hnok.
    destruct (downloadWithLimit_disk reply dest maxBytes fs) as [[Hd _]|(res & _ & _ & _ & Hp & _)].
    + exact Hd.
    + exfalso. exact (Hnok _ Hp).
Qed.

(** The too-large outcome has two sources.  One is the header check:
    a 200 response whose [content-length] is over the limit.  The other
    is the ['end'] listener, which finds [aborted] set when the body went
    over the limit at a chunk with which the end of the message had
    already been parsed.  A body that goes over the limit before its end
    has come gives no outcome at all. *)
Theorem downloadWithLimit_too_large_iff (reply : http_get) (dest : string) (maxBytes : N)
    (fs : Disk) :
  dl_promise (downloadWithLimit reply dest maxBytes fs) = Resolved (DlFail "too-large")
  <-> exists res,
        reply = Response res /\ statusCode res = 200
        /\ ((exists n, content_length res = Some n /\ maxBytes < n)
            \/ ((forall n, content_length res = Some n -> n <= maxBytes)
                /\ exists k, crosses (body res) maxBytes k /\ end_parsed_with res k = true)).
Proof.
  split.
  - intros Hp. destruct reply as [msg|res]; [discriminate Hp|].
    exists res. split; [reflexivity|].
    assert (Hs : statusCode res = 200).
    { cbn [downloadWithLimit] in Hp. unfold on_response in Hp.
      destruct (N.eqb_spec (statusCode res) 200) as [Hs|_]; [exact Hs|].
      cbn [negb dl_promise] in Hp. injection Hp as Hp. discriminate Hp. }
    split; [exact Hs|].
    destruct (content_length res) as [n|] eqn:Hn.
    + destruct (N.ltb_spec maxBytes n) as [Hlt|Hge]; [left; exists n; split; [reflexivity|exact Hlt]|].
      assert (Hh : forall m, content_length res = Some m -> m <= maxBytes)
        by (intros m Hm; rewrite Hn in Hm; injection Hm as <-; exact Hge).
      exfalso. pose proof (content_length_covers res n Hn) as Hcov.
      rewrite (downloadWithLimit_streams res dest maxBytes fs Hs Hh) in Hp.
      destruct (complete res) eqn:Hc.
      * rewrite emit_within in Hp; [discriminate Hp|exact Hc|exact listening_start|].
        cbn [total]. lia.
      * rewrite emit_starved in Hp; [discriminate Hp|exact Hc|cbn [total]; lia].
    + assert (Hh : forall m, content_length res = Some m -> m <= maxBytes)
        by (intros m Hm; rewrite Hn in Hm; discriminate Hm).
      right. split; [intros m Hm; discriminate Hm|].
      destruct (N.le_gt_cases (blen (Buffer_concat (body res))) maxBytes) as [Hle|Hgt].
      * exfalso. rewrite (downloadWithLimit_streams res dest maxBytes fs Hs Hh) in Hp.
        destruct (complete res) eqn:Hc.
        -- rewrite emit_within in Hp; [discriminate Hp|exact Hc|exact listening_start|].
           cbn [total]. lia.
        -- rewrite emit_starved in Hp; [discriminate Hp|exact Hc|cbn [total]; lia].
      * destruct (downloadWithLimit_overflow_at res dest maxBytes fs Hs Hh Hgt)
          as (k & Hk & _ & _ & Hp').
        exists k. split; [exact Hk|]. rewrite Hp in Hp'.
        destruct (end_parsed_with res k); [reflexivity|discriminate Hp'].
  - intros (res & -> & Hs & [(n & Hn & Hlt)|(Hh & k & Hk & Hend)]).
    + cbn [downloadWithLimit]. unfold on_response. rewrite Hs, Hn.
      change (negb (200 =? 200)) with false. cbv iota.
      destruct (N.ltb_spec maxBytes n); [reflexivity|lia].
    + destruct (downloadWithLimit_overflow_at res dest maxBytes fs Hs Hh
                  (crosses_overflows _ _ _ Hk)) as (k' & Hk' & _ & _ & Hp).
      rewrite (crosses_unique _ _ _ _ Hk' Hk) in Hp. rewrite Hend in Hp. exact Hp.
Qed.



(** ** More on compressToLimit *)

Section BudgetMonotone.

Variable encode : N -> N -> option Buffer.
Variables (b b' : N).
Hypothesis Hbb : b <= b'.

Lemma for_qualities_no_later (targetWidth : N) : forall qs tried,
  no_later (for_qualities encode b targetWidth qs tried)
           (for_qualities encode b' targetWidth qs tried).
Proof.
  induction qs as [|quality qs IH]; intros tried; cbn [for_qualities].
  - left. reflexivity.
  - destruct (encode targetWidth quality) as [out|] eqn:Henc; [|exact I].
    destruct (N.leb_spec (blen out) b) as [Hfit|Hbig].
    + destruct (N.leb_spec (blen out) b') as [_|]; [|lia].
      split; [exists out; reflexivity|reflexivity].
    + destruct (N.leb_spec (blen out) b') as [Hfit'|_]; [|apply IH].
      destruct (for_qualities_outcome encode b targetWidth qs
                  (tried ++ [(targetWidth, quality)])) as (done & Htr & _).
      unfold no_later.
      destruct (for_qualities encode b targetWidth qs (tried ++ [(targetWidth, quality)]))
        as [[|o|e] tr]; cbn [fst snd] in *; subst tr.
      * right. split; [exists out; reflexivity|apply prefix_app_r; reflexivity].
      * split; [exists out; reflexivity|apply prefix_app_r; reflexivity].
      * exact I.
Qed.

Lemma for_widths_no_later : forall ws tried,
  no_later (for_widths encode b ws tried) (for_widths encode b' ws tried).
Proof.
  induction ws as [|targetWidth ws IH]; intros tried; cbn [for_widths].
  - left. reflexivity.
  - pose proof (for_qualities_no_later targetWidth qualities tried) as Hq.
    unfold no_later in Hq.
    destruct (for_qualities encode b targetWidth qualities tried) as [[|o|e] tr] eqn:Hb;
      cbn [fst snd] in Hq.
    + destruct Hq as [->|[[out' Hret] Hpre]]; [apply IH|].
      destruct (for_qualities encode b' targetWidth qualities tried) as [f' tr'].
      cbn [fst snd] in Hret, Hpre. subst f'.
      destruct (for_widths_outcome encode b ws tr) as (done & Htr & _).
      unfold no_later.
      destruct (for_widths encode b ws tr) as [[|o|e] tr2]; cbn [fst snd] in *; subst tr2.
      * right. split; [exists out'; reflexivity|].
        etrans; [exact Hpre|]. apply prefix_app_r. reflexivity.
      * split; [exists out'; reflexivity|].
        etrans; [exact Hpre|]. apply prefix_app_r. reflexivity.
      * exact I.
    + destruct Hq as [[out' Hret] Hpre].
      destruct (for_qualities encode b' targetWidth qualities tried) as [f' tr'].
      cbn [fst snd] in Hret, Hpre. subst f'.
      split; [exists out'; reflexivity|exact Hpre].
    + exact I.
Qed.

End BudgetMonotone.

(** A larger budget never hurts: where [compressToLimit] returns [true]
    with one budget, it returns [true] with every larger one, and has then
    tried an initial stretch of the pairs it tried before, so that the pair
    it accepts is the same or comes earlier in the order of preference. *)
Theorem compressToLimit_budget_monotone (w : world) (filePath : string) (b b' : N) (fs : Disk) :
  b <= b' ->
  cp_promise (compressToLimit w filePath b fs) = Resolved true ->
  cp_promise (compressToLimit w filePath b' fs) = Resolved true
  /\ cp_tried (compressToLimit w filePath b' fs)
       `prefix_of` cp_tried (compressToLimit w filePath b fs).
Proof.
  intros Hbb. unfold compressToLimit.
  destruct (fs !! filePath) as [input|]; [|discriminate].
  destruct (sharp_metadata w input) as [meta|]; [|discriminate].
  pose proof (for_widths_no_later (sharp_toBuffer w input) b b' Hbb
                (candidates (default 0 (meta_width meta))) []) as Hmono.
  unfold no_later in Hmono.
  destruct (for_widths (sharp_toBuffer w input) b (candidates (default 0 (meta_width meta))) [])
    as [[|o|e] tr]; cbn [fst snd cp_promise cp_tried] in *; [discriminate| |discriminate].
  intros _. destruct Hmono as [[out' Hret] Hpre].
  destruct (for_widths (sharp_toBuffer w input) b' (candidates (default 0 (meta_width meta))) [])
    as [f' tr']. cbn [fst snd] in Hret, Hpre. subst f'.
  cbn [cp_promise cp_tried]. split; [reflexivity|exact Hpre].
Qed.

Lemma compressToLimit_budget_monotone_witness :
  30 <= 40
  /\ cp_promise (compressToLimit shrinking_world "1.jpg" 30 shrinking_disk) = Resolved true
  /\ cp_promise (compressToLimit shrinking_world "1.jpg" 40 shrinking_disk) = Resolved true
  /\ last (cp_tried (compressToLimit shrinking_world "1.jpg" 40 shrinking_disk))
     = Some (900, 45)
  /\ last (cp_tried (compressToLimit shrinking_world "1.jpg" 30 shrinking_disk))
     = Some (800, 35).
Proof.
  assert (H1 : 30 <= 40) by lia.
  assert (H2 : cp_promise (compressToLimit shrinking_world "1.jpg" 30 shrinking_disk)
               = Resolved true) by (vm_compute; reflexivity).
  split; [exact H1|]. split; [exact H2|].
  split; [exact (proj1 (compressToLimit_budget_monotone shrinking_world "1.jpg" 30 40
                          shrinking_disk H1 H2))|].
  vm_compute. split; reflexivity.
Defined.

(** The encoder is called at most 72 times for one file (nine widths at
    most, eight qualities each), and not at all when the file or its
    metadata cannot be read. *)
Theorem compressToLimit_encode_bound (w : world) (filePath : string) (maxBytes : N) (fs : Disk) :
  (length (cp_tried (compressToLimit w filePath maxBytes fs)) <= 72)%nat
  /\ ((fs !! filePath = None
       \/ exists input, fs !! filePath = Some input /\ sharp_metadata w input = None) ->
      cp_tried (compressToLimit w filePath maxBytes fs) = []).
Proof.
  split.
  - destruct (fs !! filePath) as [input|] eqn:Hfile;
      [|unfold compressToLimit; rewrite Hfile; cbn; lia].
    destruct (sharp_metadata w input) as [meta|] eqn:Hmeta;
      [|unfold compressToLimit; rewrite Hfile, Hmeta; cbn; lia].
    pose proof (compressToLimit_outcome w filePath maxBytes fs input meta Hfile Hmeta) as Hout.
    cbv zeta in Hout.
    assert (Hpre : cp_tried (compressToLimit w filePath maxBytes fs)
                     `prefix_of` encode_grid (candidates (default 0 (meta_width meta)))).
    { destruct (cp_promise (compressToLimit w filePath maxBytes fs)) as [|[|]|err];
        [contradiction| | |].
      - destruct Hout as (out & Hs & _). exact (search_outcome_prefix _ _ _ _ _ Hs).
      - destruct Hout as [Hs _]. exact (search_outcome_prefix _ _ _ _ _ Hs).
      - destruct Hout as [Hs _]. exact (search_outcome_prefix _ _ _ _ _ Hs). }
    apply prefix_length in Hpre.
    assert (Hgrid : forall ws, length (encode_grid ws) = (8 * length ws)%nat).
    { induction ws as [|x ws IH]; [reflexivity|].
      cbn [encode_grid]. rewrite length_app, length_fmap, IH. cbn [length qualities]. lia. }
    rewrite Hgrid in Hpre.
    assert (Hlad : (length (candidates (default 0%N (meta_width meta))) <= 9)%nat).
    { rewrite candidates_eq. destruct (decide _); [cbn; lia|].
      cbn [length]. pose proof (length_filter (fun x => x < default 0 (meta_width meta))
                                COMMON_WIDTHS) as Hf.
      cbn [length COMMON_WIDTHS] in Hf. lia. }
    lia.
  - intros [Hnone|(input & Hfile & Hmeta)]; unfold compressToLimit.
    + rewrite Hnone. reflexivity.
    + rewrite Hfile, Hmeta. reflexivity.
Qed.

(** ** One URL of the ladder *)

(** What [try_url] downloads when the host answers with a complete 200
    response within the download ceiling. *)
Lemma try_url_download (w : world) (imageUrl outPath : string) (st : downloader)
    (res : response) :
  image_host w (requests st) imageUrl = Response res ->
  statusCode res = 200 ->
  complete res = true ->
  (forall n, content_length res = Some n -> n <= MAX_DOWNLOAD_BYTES) ->
  blen (Buffer_concat (body res)) <= MAX_DOWNLOAD_BYTES ->
  downloadWithLimit (image_host w (requests st) imageUrl) outPath MAX_DOWNLOAD_BYTES (disk st)
  = {| dl_promise := Resolved (DlOk (blen (Buffer_concat (body res))));
       dl_disk := <[outPath := Buffer_concat (body res)]> (disk st);
       dl_fate := Ended |}.
Proof.
  intros -> Hs Hc Hh Hb.
  rewrite (downloadWithLimit_streams res outPath MAX_DOWNLOAD_BYTES (disk st) Hs Hh).
  rewrite emit_within; [reflexivity|exact Hc|exact listening_start|cbn [total]; lia].
Qed.

(** A body within the storage budget is stored as it was sent, and sharp
    is not consulted. *)
Lemma try_url_stores_small (w : world) (imageUrl outPath : string)
    (st : downloader) (res : response) :
  image_host w (requests st) imageUrl = Response res ->
  statusCode res = 200 ->
  complete res = true ->
  (forall n, content_length res = Some n -> n <= MAX_DOWNLOAD_BYTES) ->
  blen (Buffer_concat (body res)) <= MAX_BYTES ->
  try_url w imageUrl outPath st
  = (Stored, {| disk := <[outPath := Buffer_concat (body res)]> (disk st);
                saved := S (saved st); requests := S (requests st) |}).
Proof.
  intros Hhost Hs Hc Hh Hb.
  assert (Hb' : blen (Buffer_concat (body res)) <= MAX_DOWNLOAD_BYTES)
    by (unfold MAX_BYTES, MAX_DOWNLOAD_BYTES in *; lia).
  unfold try_url. rewrite (try_url_download w imageUrl outPath st res Hhost Hs Hc Hh Hb').
  cbn [dl_promise dl_disk ok disk saved requests]. rewrite lookup_insert_eq.
  destruct (N.ltb_spec MAX_BYTES (blen (Buffer_concat (body res)))); [lia|reflexivity].
Qed.

(** A complete body over the storage budget whose metadata cannot be
    read: nothing is encoded, [outPath] is unlinked (whatever it held
    before) and the loop goes on to the next URL. *)
Theorem try_url_unreadable_deleted (w : world) (imageUrl outPath : string)
    (st : downloader) (res : response) :
  image_host w (requests st) imageUrl = Response res ->
  statusCode res = 200 ->
  complete res = true ->
  (forall n, content_length res = Some n -> n <= MAX_DOWNLOAD_BYTES) ->
  MAX_BYTES < blen (Buffer_concat (body res)) <= MAX_DOWNLOAD_BYTES ->
  sharp_metadata w (Buffer_concat (body res)) = None ->
  cp_tried (compressToLimit w outPath MAX_BYTES
              (<[outPath := Buffer_concat (body res)]> (disk st))) = []
  /\ try_url w imageUrl outPath st
     = (NextUrl, {| disk := delete outPath (disk st); saved := saved st;
                    requests := S (requests st) |}).
Proof.
  intros Hhost Hs Hcomplete Hh [Hbig Hb] Hmeta.
  assert (Hc : compressToLimit w outPath MAX_BYTES
                 (<[outPath := Buffer_concat (body res)]> (disk st))
               = {| cp_promise := Resolved false;
                    cp_disk := <[outPath := Buffer_concat (body res)]> (disk st);
                    cp_tried := [] |}).
  { unfold compressToLimit. rewrite lookup_insert_eq, Hmeta. reflexivity. }
  split; [rewrite Hc; reflexivity|].
  unfold try_url. rewrite (try_url_download w imageUrl outPath st res Hhost Hs Hcomplete Hh Hb).
  cbn [dl_promise dl_disk ok disk saved requests]. rewrite lookup_insert_eq.
  destruct (N.ltb_spec MAX_BYTES (blen (Buffer_concat (body res)))); [|lia].
  rewrite Hc. cbn [cp_promise cp_disk]. rewrite delete_insert_eq. reflexivity.
Qed.

(** A body over the storage budget that ends up stored: the file is what
    the encoder made of the downloaded bytes at one pair of the grid, and
    it fits the budget. *)
Theorem try_url_stored_is_encoding (w : world) (imageUrl outPath : string)
    (st : downloader) (res : response) :
  image_host w (requests st) imageUrl = Response res ->
  statusCode res = 200 ->
  (forall n, content_length res = Some n -> n <= MAX_DOWNLOAD_BYTES) ->
  MAX_BYTES < blen (Buffer_concat (body res)) <= MAX_DOWNLOAD_BYTES ->
  (try_url w imageUrl outPath st).1 = Stored ->
  exists meta targetWidth quality out,
    sharp_metadata w (Buffer_concat (body res)) = Some meta
    /\ targetWidth ∈ candidates (default 0 (meta_width meta))
    /\ quality ∈ qualities
    /\ sharp_toBuffer w (Buffer_concat (body res)) targetWidth quality = Some out
    /\ blen out <= MAX_BYTES
    /\ try_url w imageUrl outPath st
       = (Stored, {| disk := <[outPath := out]> (disk st); saved := S (saved st);
                     requests := S (requests st) |}).
Proof.
  intros Hhost Hs Hh [Hbig Hb] Hstored.
  assert (Hcomplete : complete res = true).
  { destruct (complete res) eqn:Hc; [reflexivity|]. exfalso.
    unfold try_url in Hstored. rewrite Hhost in Hstored.
    rewrite (downloadWithLimit_streams res outPath MAX_DOWNLOAD_BYTES (disk st) Hs Hh)
      in Hstored.
    rewrite emit_starved in Hstored; [discriminate Hstored|exact Hc|cbn [total]; lia]. }
  unfold try_url in *.
  rewrite (try_url_download w imageUrl outPath st res Hhost Hs Hcomplete Hh Hb) in *.
  cbn [dl_promise dl_disk ok disk saved requests] in *. rewrite lookup_insert_eq in *.
  destruct (N.ltb_spec MAX_BYTES (blen (Buffer_concat (body res)))); [|lia].
  set (fs1 := <[outPath := Buffer_concat (body res)]> (disk st)) in *.
  destruct (sharp_metadata w (Buffer_concat (body res))) as [meta|] eqn:Hmeta.
  - pose proof (compressToLimit_outcome w outPath MAX_BYTES fs1 (Buffer_concat (body res)) meta
                  (lookup_insert_eq _ _ _) Hmeta) as Hout.
    cbv zeta in Hout.
    destruct (cp_promise (compressToLimit w outPath MAX_BYTES fs1)) as [|[|]|err];
      cbn [fst] in Hstored; try discriminate Hstored.
    destruct Hout as (out & (p & before & after & Hg & _ & _ & Henc & Hfit) & Hdisk).
    assert (Hin : p ∈ encode_grid (candidates (default 0 (meta_width meta)))).
    { rewrite Hg. apply elem_of_app. right. left. }
    apply encode_grid_widths in Hin as [Hw Hq].
    exists meta, p.1, p.2, out. repeat split; try assumption.
    rewrite Hdisk. unfold fs1. rewrite insert_insert_eq. reflexivity.
  - exfalso. unfold compressToLimit in Hstored. unfold fs1 in Hstored.
    rewrite lookup_insert_eq, Hmeta in Hstored. discriminate Hstored.
Qed.

Lemma oversized_response_size :
  MAX_BYTES < blen (Buffer_concat (body oversized_response)) <= MAX_DOWNLOAD_BYTES.
Proof.
  assert (Hcat : Buffer_concat (body oversized_response) = zeros 512001) by apply app_nil_r.
  rewrite Hcat, blen_zeros. unfold MAX_BYTES, MAX_DOWNLOAD_BYTES. lia.
Qed.

Lemma try_url_unreadable_deleted_witness :
  image_host unreadable_world (requests fresh_start) "https://www.bing.com/a.jpg"
    = Response oversized_response
  /\ complete oversized_response = true
  /\ MAX_BYTES < blen (Buffer_concat (body oversized_response)) <= MAX_DOWNLOAD_BYTES
  /\ sharp_metadata unreadable_world (Buffer_concat (body oversized_response)) = None
  /\ try_url unreadable_world "https://www.bing.com/a.jpg" "1.jpg" fresh_start
     = (NextUrl, {| disk := delete "1.jpg" (disk fresh_start); saved := saved fresh_start;
                    requests := S (requests fresh_start) |}).
Proof.
  assert (H1 : image_host unreadable_world (requests fresh_start) "https://www.bing.com/a.jpg"
               = Response oversized_response) by reflexivity.
  assert (H2 : forall n, content_length oversized_response = Some n -> n <= MAX_DOWNLOAD_BYTES)
    by (intros n Hn; discriminate Hn).
  assert (H4 : sharp_metadata unreadable_world (Buffer_concat (body oversized_response)) = None)
    by reflexivity.
  split; [exact H1|]. split; [reflexivity|].
  split; [exact oversized_response_size|]. split; [exact H4|].
  exact (proj2 (try_url_unreadable_deleted unreadable_world "https://www.bing.com/a.jpg"
                  "1.jpg" fresh_start oversized_response H1 eq_refl eq_refl H2
                  oversized_response_size H4)).
Defined.

Lemma try_url_stored_is_encoding_witness :
  image_host reencoding_world (requests fresh_start) "https://www.bing.com/a.jpg"
    = Response oversized_response
  /\ MAX_BYTES < blen (Buffer_concat (body oversized_response)) <= MAX_DOWNLOAD_BYTES
  /\ (try_url reencoding_world "https://www.bing.com/a.jpg" "1.jpg" fresh_start).1 = Stored
  /\ exists meta targetWidth quality out,
       sharp_metadata reencoding_world (Buffer_concat (body oversized_response)) = Some meta
       /\ targetWidth ∈ candidates (default 0 (meta_width meta))
       /\ quality ∈ qualities
       /\ sharp_toBuffer reencoding_world (Buffer_concat (body oversized_response))
            targetWidth quality = Some out
       /\ blen out <= MAX_BYTES
       /\ try_url reencoding_world "https://www.bing.com/a.jpg" "1.jpg" fresh_start
          = (Stored, {| disk := <["1.jpg" := out]> (disk fresh_start);
                        saved := S (saved fresh_start);
                        requests := S (requests fresh_start) |}).
Proof.
  assert (H1 : image_host reencoding_world (requests fresh_start) "https://www.bing.com/a.jpg"
               = Response oversized_response) by reflexivity.
  assert (H2 : forall n, content_length oversized_response = Some n -> n <= MAX_DOWNLOAD_BYTES)
    by (intros n Hn; discriminate Hn).
  assert (H3 : (try_url reencoding_world "https://www.bing.com/a.jpg" "1.jpg" fresh_start).1
               = Stored) by (vm_compute; reflexivity).
  split; [exact H1|]. split; [exact oversized_response_size|]. split; [exact H3|].
  exact (try_url_stored_is_encoding reencoding_world "https://www.bing.com/a.jpg"
           "1.jpg" fresh_start oversized_response H1 eq_refl H2 oversized_response_size H3).
Defined.

(** ** The archive URLs *)

Lemma pretty_N_char_no_amp (x : N) : pretty_N_char x <> "&"%char.
Proof. unfold pretty_N_char. repeat case_match; discriminate. Qed.

Lemma pretty_N_go_no_amp (x : N) : forall s, no_amp s -> no_amp (pretty_N_go x s).
Proof.
  induction (N.lt_wf_0 x) as [x _ IH]; intros s Hs.
  destruct (decide (x = 0)) as [->|Hpos]; [rewrite pretty_N_go_0; exact Hs|].
  rewrite pretty_N_go_step by lia.
  apply IH; [apply N.div_lt; lia|].
  split; [apply pretty_N_char_no_amp|exact Hs].
Qed.

Lemma pretty_nat_no_amp (k : nat) : no_amp (pretty k).
Proof.
  unfold pretty, pretty_nat, pretty, pretty_N.
  destruct (decide _); [split; [discriminate|exact I]|].
  apply pretty_N_go_no_amp. exact I.
Qed.

(** Two strings without ampersand, each followed by an ampersand and a
    rest: equal wholes have equal parts. *)
Lemma split_at_amp : forall s s' t t',
  no_amp s -> no_amp s' ->
  s +:+ String "&" t = s' +:+ String "&" t' -> s = s' /\ t = t'.
Proof.
  induction s as [|a s IH]; intros [|a' s'] t t' Hs Hs' Heq; simpl in *.
  - injection Heq as ->. split; reflexivity.
  - injection Heq as <- _. destruct Hs' as [Ha _]. congruence.
  - injection Heq as -> _. destruct Hs as [Ha _]. congruence.
  - injection Heq as -> Heq. destruct Hs as [_ Hs], Hs' as [_ Hs'].
    destruct (IH s' t t' Hs Hs' Heq) as [-> ->]. split; reflexivity.
Qed.

Lemma buildArchiveUrl_parts (idx n idx' n' : nat) (market market' : string) :
  buildArchiveUrl idx n market = buildArchiveUrl idx' n' market' ->
  idx = idx' /\ n = n' /\ market = market'.
Proof.
  unfold buildArchiveUrl. intros Heq.
  apply (inj (String.app _)) in Heq.
  apply (split_at_amp (pretty idx) (pretty idx')) in Heq as [Hidx Heq];
    [|apply pretty_nat_no_amp..].
  apply (inj (String.app "n=")) in Heq.
  apply (split_at_amp (pretty n) (pretty n')) in Heq as [Hn Heq];
    [|apply pretty_nat_no_amp..].
  apply (inj (String.app "mkt=")) in Heq.
  split; [apply (inj pretty), Hidx|]. split; [apply (inj pretty), Hn|exact Heq].
Qed.

(** The archive URL tells the request: the day offset, the batch size and
    the market can be read back from it, whatever the market's name. *)
Theorem buildArchiveUrl_inj (idx n idx' n' : nat) (market market' : string) :
  buildArchiveUrl idx n market = buildArchiveUrl idx' n' market'
  <-> idx = idx' /\ n = n' /\ market = market'.
Proof.
  split; [apply buildArchiveUrl_parts|]. intros (-> & -> & ->). reflexivity.
Qed.

Lemma MARKETS_NoDup : NoDup MARKETS.
Proof. apply (bool_decide_unpack _). vm_compute. exact I. Qed.

Lemma day_major_NoDup (days : list nat) : NoDup days -> NoDup (day_major days).
Proof.
  intros Hd. unfold day_major. apply NoDup_bind; [| |exact Hd].
  - intros d1 d2 q _ _ Hq1 Hq2.
    apply list_elem_of_fmap in Hq1 as (m1 & -> & _).
    apply list_elem_of_fmap in Hq2 as (m2 & [= <- _] & _). reflexivity.
  - intros d _. apply NoDup_fmap_2; [|exact MARKETS_NoDup].
    intros m1 m2 [= ->]. reflexivity.
Qed.

(** No archive URL is requested twice in a run: each day offset and market
    is asked at most once, failed or not. *)
Theorem archive_urls_requested_once (w : world) :
  exists c,
    while_days w (S MAX_FETCH_DAYS) 0 start = Some c
    /\ NoDup ((fun q => buildArchiveUrl q.1 BATCH_SIZE q.2) <$> queries c).
Proof.
  destruct (sweep_take w (day_major (seq 0 MAX_FETCH_DAYS)) start) as (k & _ & Heq & _).
  exists (sweep w (day_major (seq 0 MAX_FETCH_DAYS)) start).
  split; [apply while_days_sweep; [reflexivity|lia]|].
  rewrite Heq, foldl_visit_queries. cbn [queries start app].
  apply NoDup_fmap_2.
  - intros [d m] [d' m'] Hurl. cbn [fst snd] in Hurl.
    apply buildArchiveUrl_parts in Hurl as (-> & _ & ->). reflexivity.
  - eapply sublist_NoDup; [|apply sublist_take].
    apply day_major_NoDup, NoDup_seq.
Qed.

(** ** What the collector takes from the archive *)

Section Items.

Variable w : world.

Lemma for_markets_items (idx : nat) (market : string) (rest : list string) (st : collector) :
  fetchJson (archive w (buildArchiveUrl idx BATCH_SIZE market)) <> Pending ->
  for_markets w idx (market :: rest) st
  = let st1 := {| images := images st; seen := seen st;
                  queries := queries st ++ [(idx, market)]; halted := halted st |} in
    let items := items_of (archive w (buildArchiveUrl idx BATCH_SIZE market)) in
    if (length items =? 0)%nat
    then for_markets w idx rest st1
    else
      let st2 := for_items items st1 in
      match halted st2 with
      | Some _ => st2
      | None =>
          if (TARGET_COUNT <=? length (images st2))%nat
          then st2
          else for_markets w idx rest st2
      end.
Proof.
  intros Hsettles. cbn [for_markets]. unfold items_of.
  destruct (fetchJson (archive w (buildArchiveUrl idx BATCH_SIZE market)));
    [contradiction|reflexivity..].
Qed.

Lemma for_markets_pending (idx : nat) (market : string) (rest : list string) (st : collector) :
  fetchJson (archive w (buildArchiveUrl idx BATCH_SIZE market)) = Pending ->
  for_markets w idx (market :: rest) st
  = {| images := images st; seen := seen st; queries := queries st ++ [(idx, market)];
       halted := Some Awaits |}.
Proof. intros Hp. cbn [for_markets]. rewrite Hp. reflexivity. Qed.

Lemma visit_images_from (st : collector) (q : nat * string) :
  images (visit w st q)
  = images (for_items (items_of (archive w (buildArchiveUrl q.1 BATCH_SIZE q.2)))
              {| images := images st; seen := seen st; queries := queries st ++ [q];
                 halted := halted st |}).
Proof.
  unfold visit, items_of.
  destruct (fetchJson (archive w (buildArchiveUrl q.1 BATCH_SIZE q.2))); reflexivity.
Qed.

(** Whatever the loop over the items collects is the candidate of one of
    the items. *)
Lemma for_items_from : forall items st x,
  x ∈ images (for_items items st) ->
  x ∈ images st
  \/ exists it u, Obj it ∈ items /\ truthy (item_url it) = Some u /\ x = candidate_of u it.
Proof.
  induction items as [|[|it] items IH]; intros st x Hx; cbn [for_items] in Hx;
    [left; exact Hx..|].
  assert (Hrest : forall st', x ∈ images (for_items items st') ->
            x ∈ images st'
            \/ exists it' u, Obj it' ∈ Obj it :: items /\ truthy (item_url it') = Some u
                             /\ x = candidate_of u it').
  { intros st' H. destruct (IH st' x H) as [Hold|(it' & u & Hin & Hu & ->)]; [left; exact Hold|].
    right. exists it', u. split; [right; exact Hin|]. split; [exact Hu|reflexivity]. }
  destruct (truthy (item_url it)) as [u|] eqn:Hu; [|apply Hrest, Hx].
  fold (candidate_of u it) in Hx.
  destruct (decide _); [apply Hrest, Hx|].
  assert (Hnew : x ∈ images st ++ [candidate_of u it] ->
            x ∈ images st
            \/ exists it' u', Obj it' ∈ Obj it :: items /\ truthy (item_url it') = Some u'
                              /\ x = candidate_of u' it').
  { intros [Hold| ->%list_elem_of_singleton]%elem_of_app; [left; exact Hold|].
    right. exists it, u. split; [left|]. split; [exact Hu|reflexivity]. }
  cbn [images] in Hx.
  match type of Hx with context [(?a <=? ?b)%nat] => destruct (a <=? b)%nat end.
  - apply Hnew, Hx.
  - destruct (Hrest _ Hx) as [Hold|Hfrom]; [apply Hnew, Hold|right; exact Hfrom].
Qed.

Lemma foldl_visit_from : forall qs st x,
  x ∈ images (foldl (visit w) st qs) ->
  x ∈ images st
  \/ exists q it u,
       q ∈ qs /\ Obj it ∈ items_of (archive w (buildArchiveUrl q.1 BATCH_SIZE q.2))
       /\ truthy (item_url it) = Some u /\ x = candidate_of u it.
Proof.
  induction qs as [|q qs IH]; intros st x Hx; cbn [foldl] in Hx; [left; exact Hx|].
  destruct (IH _ _ Hx) as [Hv|(q' & it & u & Hq & Hrest)].
  - rewrite visit_images_from in Hv.
    apply for_items_from in Hv as [Hold|(it & u & Hit & Hu & ->)].
    + left. exact Hold.
    + right. exists q, it, u. split; [left|]. split; [exact Hit|]. split; [exact Hu|reflexivity].
  - right. exists q', it, u. split; [right; exact Hq|exact Hrest].
Qed.

End Items.

(** The collector sees an archive reply through its entries only, and
    through whether the request ever settles: a request that fails counts
    as an empty answer, and two worlds whose replies contribute the same
    entries, URL by URL, and leave the same requests unsettled give the
    same collection, the same set of keys and the same queries. *)
Theorem collector_sees_items_only (w w' : world) :
  (forall u, items_of (archive w u) = items_of (archive w' u)) ->
  (forall u, fetchJson (archive w u) = Pending <-> fetchJson (archive w' u) = Pending) ->
  forall fuel idx st, while_days w fuel idx st = while_days w' fuel idx st.
Proof.
  intros Hsame Hpend.
  assert (Hm : forall idx markets st, for_markets w idx markets st = for_markets w' idx markets st).
  { intros idx. induction markets as [|market rest IH]; intros st; [reflexivity|].
    assert (Hcase : fetchJson (archive w (buildArchiveUrl idx BATCH_SIZE market)) = Pending
                    \/ fetchJson (archive w (buildArchiveUrl idx BATCH_SIZE market)) <> Pending)
      by (destruct (fetchJson _); [left; reflexivity|right; discriminate..]).
    destruct Hcase as [Hp|Hp].
    - rewrite (for_markets_pending w idx market rest st Hp).
      rewrite (for_markets_pending w' idx market rest st (proj1 (Hpend _) Hp)). reflexivity.
    - rewrite (for_markets_items w idx market rest st Hp).
      rewrite (for_markets_items w' idx market rest st
                 (fun H => Hp (proj2 (Hpend _) H))).
      cbv zeta. rewrite Hsame.
      destruct (length _ =? 0)%nat; [apply IH|].
      destruct (halted _); [reflexivity|].
      destruct (_ <=? _)%nat; [reflexivity|apply IH]. }
  induction fuel as [|fuel IH]; intros idx st; [reflexivity|].
  cbn [while_days]. destruct (halted st); [reflexivity|].
  destruct (_ && _); [|reflexivity].
  rewrite Hm. apply IH.
Qed.

(** An archive that cannot be reached and one that answers every query
    with an empty list. *)
Lemma collector_sees_items_only_witness :
  (forall u, items_of (archive shrinking_world u) = items_of (archive silent_world u))
  /\ (forall u, fetchJson (archive shrinking_world u) = Pending
                <-> fetchJson (archive silent_world u) = Pending)
  /\ archive shrinking_world (buildArchiveUrl 0 BATCH_SIZE "zh-CN")
     <> archive silent_world (buildArchiveUrl 0 BATCH_SIZE "zh-CN")
  /\ while_days shrinking_world (S MAX_FETCH_DAYS) 0 start
     = while_days silent_world (S MAX_FETCH_DAYS) 0 start.
Proof.
  assert (H1 : forall u, items_of (archive shrinking_world u) = items_of (archive silent_world u))
    by (intros u; reflexivity).
  assert (H2 : forall u, fetchJson (archive shrinking_world u) = Pending
                         <-> fetchJson (archive silent_world u) = Pending)
    by (intros u; split; intros H; discriminate H).
  split; [exact H1|]. split; [exact H2|]. split; [discriminate|].
  exact (collector_sees_items_only shrinking_world silent_world H1 H2
           (S MAX_FETCH_DAYS) 0%nat start).
Defined.

(** Nothing is made up: every collected candidate is the candidate of an
    item with a usable [url] that the archive returned to one of the
    queries made, for a day offset below the lookback and a market of the
    list. *)
Theorem collected_from_archive (w : world) :
  exists c,
    while_days w (S MAX_FETCH_DAYS) 0 start = Some c
    /\ forall x, x ∈ images c ->
         exists d m it u,
           (d, m) ∈ queries c
           /\ (d < MAX_FETCH_DAYS)%nat /\ m ∈ MARKETS
           /\ Obj it ∈ items_of (archive w (buildArchiveUrl d BATCH_SIZE m))
           /\ truthy (item_url it) = Some u
           /\ x = candidate_of u it.
Proof.
  destruct (sweep_take w (day_major (seq 0 MAX_FETCH_DAYS)) start) as (k & _ & Heq & _).
  exists (sweep w (day_major (seq 0 MAX_FETCH_DAYS)) start).
  split; [apply while_days_sweep; [reflexivity|lia]|].
  rewrite Heq. intros x Hx.
  apply foldl_visit_from in Hx as [Hx|([d m] & it & u & Hq & Hit & Hu & ->)]; [inversion Hx|].
  exists d, m, it, u. rewrite foldl_visit_queries. cbn [queries start app fst snd] in *.
  split; [exact Hq|].
  assert (Hgrid : (d, m) ∈ day_major (seq 0 MAX_FETCH_DAYS)).
  { eapply elem_of_sublist; [exact Hq|apply sublist_take]. }
  unfold day_major in Hgrid. apply list_elem_of_bind in Hgrid as (d' & Hm & Hd).
  apply list_elem_of_fmap in Hm as (m' & [= -> ->] & Hm). apply elem_of_seq in Hd.
  split; [lia|]. split; [exact Hm|]. split; [exact Hit|]. split; [exact Hu|reflexivity].
Qed.

(** ** The run as a whole *)

(** After padding the list has exactly the target length, unless nothing
    was collected or the collecting loop was left before its end; it
    begins with the collected candidates and holds nothing but collected
    candidates.  When the collecting loop was left before its end,
    nothing is padded and no image is requested. *)
Theorem padded_has_target_length (w : world) (fs0 : Disk) :
  exists r,
    main w fs0 = Some r
    /\ (length (images (collected r)) <= TARGET_COUNT)%nat
    /\ (images (collected r) = [] -> padded r = [])
    /\ (halted (collected r) = None ->
        images (collected r) <> [] ->
        length (padded r) = TARGET_COUNT
        /\ images (collected r) `prefix_of` padded r
        /\ forall x, x ∈ padded r -> x ∈ images (collected r))
    /\ (is_Some (halted (collected r)) ->
        padded r = [] /\ final r = {| disk := fs0; saved := 0; requests := 0 |}).
Proof.
  pose proof (sweep_length w (day_major (seq 0 MAX_FETCH_DAYS)) start) as Hlen.
  assert (Hle : (length (images (sweep w (day_major (seq 0 MAX_FETCH_DAYS)) start))
                 <= TARGET_COUNT)%nat) by (apply Hlen; cbn; unfold TARGET_COUNT; lia).
  destruct (main_shape w fs0) as (r & Hr & Hshape). cbv zeta in Hshape.
  exists r. split; [exact Hr|].
  destruct Hshape as [[_ ->]|[_ [[[err Herr] ->]|[[Hh ->]|[(Hh & Himgs & ->)|Hrun]]]]];
    cbn [collected padded final images start halted].
  - split; [cbn; lia|]. split; [reflexivity|].
    split; [intros _ Hne; exfalso; apply Hne; reflexivity|]. intros _. split; reflexivity.
  - split; [exact Hle|]. split; [reflexivity|]. split; [congruence|]. intros _. split; reflexivity.
  - split; [exact Hle|]. split; [reflexivity|]. split; [congruence|]. intros _. split; reflexivity.
  - split; [exact Hle|]. split; [reflexivity|]. split; [intros _ Hne; contradiction|].
    intros [h Hsome]. congruence.
  - destruct Hrun as (Hh & Himgs & p & _ & Hl & Hpre & Hsub & ->).
    cbn [collected padded final].
    split; [exact Hle|]. split; [intros Hnil; contradiction|].
    split; [intros _ _; split; [exact Hl|split; [exact Hpre|exact Hsub]]|].
    intros [h Hsome]. congruence.
Qed.

Section Requests.

Variable w : world.

(** Each URL tried is one request; the loop over the ladder stalls only
    at a download that never settles, which is then the last request
    made. *)
Lemma try_url_requests (imageUrl outPath : string) (st : downloader) :
  requests (try_url w imageUrl outPath st).2 = S (requests st)
  /\ ((try_url w imageUrl outPath st).1 = Stalled -> unsettled w (requests st) imageUrl).
Proof.
  unfold try_url.
  set (run := downloadWithLimit (image_host w (requests st) imageUrl) outPath
                MAX_DOWNLOAD_BYTES (disk st)).
  pose proof (proj1 (downloadWithLimit_pending_iff (image_host w (requests st) imageUrl) outPath
                MAX_DOWNLOAD_BYTES (disk st))) as Hpend. fold run in Hpend.
  destruct (dl_promise run) as [|[n|reason]|err]; cbn [fst snd requests ok disk].
  - split; [reflexivity|]. intros _. exact (Hpend eq_refl).
  - destruct (dl_disk run !! outPath) as [file|];
      [|cbn [fst snd requests]; split; [reflexivity|discriminate]].
    destruct (MAX_BYTES <? blen file);
      [|cbn [fst snd requests]; split; [reflexivity|discriminate]].
    pose proof (compressToLimit_disk w outPath MAX_BYTES (dl_disk run)) as Hc. cbv zeta in Hc.
    destruct (cp_promise (compressToLimit w outPath MAX_BYTES (dl_disk run))) as [|[|]|e];
      [contradiction|cbn [fst snd requests]; split; [reflexivity|discriminate]..].
  - split; [reflexivity|discriminate].
  - split; [reflexivity|discriminate].
Qed.

Lemma for_urls_requests (outPath : string) : forall urls st,
  let r := for_urls w urls outPath st in
  (requests st <= requests r.2 <= requests st + length urls)%nat
  /\ (r.1 = Stored -> (requests st < requests r.2)%nat)
  /\ (r.1 = Stalled ->
      (requests st < requests r.2)%nat
      /\ exists imageUrl, imageUrl ∈ urls /\ unsettled w (requests r.2 - 1) imageUrl).
Proof.
  induction urls as [|imageUrl rest IH]; intros st; cbn [for_urls].
  - cbn [fst snd length]. split; [lia|]. split; discriminate.
  - destruct (try_url_requests imageUrl outPath st) as [Hreq Hstall].
    destruct (try_url w imageUrl outPath st) as [e st']. cbn [fst snd] in Hreq, Hstall.
    destruct e; cbn [fst snd length].
    + split; [lia|]. split; [lia|discriminate].
    + specialize (IH st'). cbv zeta in IH.
      destruct (for_urls w rest outPath st') as [e' st'']. cbn [fst snd] in IH |- *.
      destruct IH as (Hb & Hst & Hsl). split; [lia|]. split; [intros H; specialize (Hst H); lia|].
      intros H. destruct (Hsl H) as (Hlt & u & Hu & Ho). split; [lia|].
      exists u. split; [right; exact Hu|exact Ho].
    + split; [lia|]. split; [discriminate|]. intros _. split; [lia|].
      exists imageUrl. split; [left|]. rewrite Hreq.
      replace (S (requests st) - 1)%nat with (requests st) by lia. apply Hstall. reflexivity.
Qed.

Lemma url_ladder_length (c : candidate) :
  length (url_ladder c) = S (length SIZE_CANDIDATES).
Proof. unfold url_ladder. cbn [length]. rewrite length_fmap. reflexivity. Qed.

Lemma for_images_requests : forall imgs st,
  (saved st <= TARGET_COUNT)%nat ->
  let r := for_images w imgs st in
  (requests r.2 <= requests st + S (length SIZE_CANDIDATES) * length imgs)%nat
  /\ (saved st <= saved r.2 <= TARGET_COUNT)%nat
  /\ (saved r.2 + requests st <= requests r.2 + saved st)%nat
  /\ (saved r.2 <= saved st + length imgs)%nat
  /\ (r.1 = true ->
      (requests st < requests r.2)%nat
      /\ exists c imageUrl, c ∈ imgs /\ imageUrl ∈ url_ladder c
                            /\ unsettled w (requests r.2 - 1) imageUrl).
Proof.
  induction imgs as [|c rest IH]; intros st Hsaved; cbn [for_images].
  - cbn [fst snd length]. repeat split; try lia; try discriminate.
  - destruct (Nat.ltb_spec (saved st) TARGET_COUNT) as [Hshort|_];
      [|cbn [fst snd length]; repeat split; try lia; try discriminate].
    pose proof (for_urls_requests (jpg (saved st + 1)) (url_ladder c) st) as Hreq.
    pose proof (for_urls_effect w (jpg (saved st + 1)) (url_ladder c) st) as Heff.
    cbv zeta in Hreq, Heff. rewrite url_ladder_length in Hreq.
    destruct (for_urls w (url_ladder c) (jpg (saved st + 1)) st) as [e st'].
    cbn [fst snd] in Hreq, Heff. destruct Hreq as (Hb & Hst & Hsl). destruct Heff as [_ Hcase].
    cbn [length].
    destruct e.
    + destruct Hcase as [Hs _]. specialize (Hst eq_refl).
      specialize (IH st' ltac:(lia)). cbv zeta in IH.
      destruct (for_images w rest st') as [stuck st'']. cbn [fst snd] in IH |- *.
      destruct IH as (H1 & H2 & H3 & H4 & H5).
      split; [lia|]. split; [lia|]. split; [lia|]. split; [lia|].
      intros H. destruct (H5 H) as (Hlt & c' & u & Hc & Hu & Ho). split; [lia|].
      exists c', u. split; [right; exact Hc|]. split; [exact Hu|exact Ho].
    + destruct Hcase as [Hs _].
      specialize (IH st' ltac:(lia)). cbv zeta in IH.
      destruct (for_images w rest st') as [stuck st'']. cbn [fst snd] in IH |- *.
      destruct IH as (H1 & H2 & H3 & H4 & H5).
      split; [lia|]. split; [lia|]. split; [lia|]. split; [lia|].
      intros H. destruct (H5 H) as (Hlt & c' & u & Hc & Hu & Ho). split; [lia|].
      exists c', u. split; [right; exact Hc|]. split; [exact Hu|exact Ho].
    + destruct Hcase as [Hs _]. cbn [fst snd].
      destruct (Hsl eq_refl) as (Hlt & u & Hu & Ho).
      split; [lia|]. split; [lia|]. split; [lia|]. split; [lia|].
      intros _. split; [lia|]. exists c, u. split; [left|]. split; [exact Hu|exact Ho].
Qed.


End Requests.

(** A run is bounded: at most 256 archive queries (8 day offsets, 32
    markets), at most 200 image requests (4 URLs for each of 50 entries),
    at most 50 images saved, and no image saved without a request of its
    own. *)
Theorem run_is_bounded (w : world) (fs0 : Disk) :
  exists r,
    main w fs0 = Some r
    /\ (length (queries (collected r)) <= MAX_FETCH_DAYS * length MARKETS)%nat
    /\ (MAX_FETCH_DAYS * length MARKETS = 256)%nat
    /\ (requests (final r) <= S (length SIZE_CANDIDATES) * TARGET_COUNT)%nat
    /\ (S (length SIZE_CANDIDATES) * TARGET_COUNT = 200)%nat
    /\ (saved (final r) <= requests (final r))%nat
    /\ (saved (final r) <= TARGET_COUNT)%nat.
Proof.
  destruct (sweep_take w (day_major (seq 0 MAX_FETCH_DAYS)) start) as (k & Hk & Heq & _).
  assert (Hq : (length (queries (sweep w (day_major (seq 0 MAX_FETCH_DAYS)) start))
                <= MAX_FETCH_DAYS * length MARKETS)%nat).
  { rewrite Heq, foldl_visit_queries. cbn [queries start app]. rewrite length_take.
    change (length (day_major (seq 0 MAX_FETCH_DAYS))) with 256%nat in *.
    change (MAX_FETCH_DAYS * length MARKETS)%nat with 256%nat. lia. }
  assert (Hcoll : forall r,
            collected r = start
            \/ collected r = sweep w (day_major (seq 0 MAX_FETCH_DAYS)) start ->
            (length (queries (collected r)) <= MAX_FETCH_DAYS * length MARKETS)%nat).
  { intros r [-> | ->]; [cbn; lia|exact Hq]. }
  assert (Hdl : forall p,
            length p = TARGET_COUNT ->
            let d := (for_images w p {| disk := fs0; saved := 0; requests := 0 |}).2 in
            (requests d <= S (length SIZE_CANDIDATES) * TARGET_COUNT)%nat
            /\ (saved d <= requests d)%nat /\ (saved d <= TARGET_COUNT)%nat).
  { intros p Hl. cbv zeta.
    pose proof (for_images_requests w p {| disk := fs0; saved := 0; requests := 0 |}
                  ltac:(cbn; lia)) as Hb. cbv zeta in Hb. cbn [saved requests] in Hb.
    destruct Hb as (H1 & H2 & H3 & _). rewrite Hl in H1. split; [lia|]. split; lia. }
  destruct (main_shape w fs0) as (r & Hr & Hshape). cbv zeta in Hshape.
  exists r. split; [exact Hr|].
  destruct Hshape as [[_ ->]|[_ [[_ ->]|[[_ ->]|[(_ & _ & ->)|Hrun]]]]];
    cbn [collected final saved requests];
    try (split; [first [exact Hq|cbn; lia]|]; split; [reflexivity|]; split; [lia|];
         split; [reflexivity|]; split; lia).
  destruct Hrun as (_ & _ & p & _ & Hl & _ & _ & ->). cbn [collected final].
  destruct (Hdl p Hl) as (H1 & H2 & H3).
  split; [exact Hq|]. split; [reflexivity|]. split; [exact H1|]. split; [reflexivity|].
  split; [exact H2|exact H3].
Qed.



Section Frame.

Variable w : world.

(** The loop over the entries writes to the slots it went through and to
    nothing else. *)
Lemma for_images_frame : forall imgs st,
  (saved st <= TARGET_COUNT)%nat ->
  let r := for_images w imgs st in
  (forall p,
     (forall k, (saved st < k <= Nat.min (saved r.2 + 1) TARGET_COUNT)%nat -> p <> jpg k) ->
     disk r.2 !! p = disk st !! p)
  /\ (forall k, (saved st < k <= saved r.2)%nat ->
        exists f, disk r.2 !! jpg k = Some f /\ blen f <= MAX_BYTES).
Proof.
  induction imgs as [|c rest IH]; intros st Hsaved; cbn [for_images].
  - cbn [fst snd]. split; [reflexivity|]. intros k Hk. lia.
  - destruct (Nat.ltb_spec (saved st) TARGET_COUNT) as [Hshort|_];
      [|cbn [fst snd]; split; [reflexivity|intros k Hk; lia]].
    pose proof (for_urls_effect w (jpg (saved st + 1)) (url_ladder c) st) as Heff.
    cbv zeta in Heff.
    destruct (for_urls w (url_ladder c) (jpg (saved st + 1)) st) as [e st'].
    cbn [fst snd] in Heff. destruct Heff as [Hframe Hcase].
    assert (Hrest : forall st'',
      (saved st <= saved st' <= saved st + 1)%nat ->
      (saved st' = S (saved st) ->
       exists f, disk st' !! jpg (saved st + 1) = Some f /\ blen f <= MAX_BYTES) ->
      (saved st' <= saved st'')%nat ->
      (forall p,
         (forall k, (saved st' < k <= Nat.min (saved st'' + 1) TARGET_COUNT)%nat -> p <> jpg k) ->
         disk st'' !! p = disk st' !! p) ->
      (forall k, (saved st' < k <= saved st'')%nat ->
         exists f, disk st'' !! jpg k = Some f /\ blen f <= MAX_BYTES) ->
      (forall p,
         (forall k, (saved st < k <= Nat.min (saved st'' + 1) TARGET_COUNT)%nat -> p <> jpg k) ->
         disk st'' !! p = disk st !! p)
      /\ (forall k, (saved st < k <= saved st'')%nat ->
            exists f, disk st'' !! jpg k = Some f /\ blen f <= MAX_BYTES)).
    { intros st'' Hs Hfile Hmono Hfr Hfl. split.
      - intros p Hp. rewrite Hfr by (intros k Hk; apply Hp; lia).
        apply Hframe, Hp. lia.
      - intros k Hk. destruct (decide (k = saved st + 1)%nat) as [->|Hne].
        + destruct (decide (saved st' = S (saved st))) as [Heq|Hneq]; [|apply Hfl; lia].
          rewrite Hfr; [exact (Hfile Heq)|].
          intros j Hj Hjpg%jpg_inj. lia.
        + apply Hfl. lia. }
    destruct e.
    + destruct Hcase as [Hs Hf].
      pose proof (for_images_requests w rest st' ltac:(lia)) as Hb. cbv zeta in Hb.
      specialize (IH st' ltac:(lia)). cbv zeta in IH.
      destruct (for_images w rest st') as [stuck st'']. cbn [fst snd] in IH, Hb |- *.
      destruct IH as [Hfr Hfl]. apply Hrest; [lia|intros _; exact Hf|lia|exact Hfr|exact Hfl].
    + destruct Hcase as [Hs _].
      pose proof (for_images_requests w rest st' ltac:(lia)) as Hb. cbv zeta in Hb.
      specialize (IH st' ltac:(lia)). cbv zeta in IH.
      destruct (for_images w rest st') as [stuck st'']. cbn [fst snd] in IH, Hb |- *.
      destruct IH as [Hfr Hfl]. apply Hrest; [lia|intros Heq; lia|lia|exact Hfr|exact Hfl].
    + destruct Hcase as [Hs _]. cbn [fst snd].
      apply Hrest; [lia|intros Heq; lia|lia|reflexivity|intros k Hk; lia].
Qed.

End Frame.

(** Whatever the output directory holds when the script starts, a run
    changes only the files [1.jpg] to [(saved+1).jpg], and none beyond
    [50.jpg]: every other path, and every file of an earlier run with a
    higher number, is as it was (the directory is never cleaned); and the
    files [1.jpg] to [saved.jpg] are there and within the budget. *)
Theorem run_touches_only_its_slots (w : world) (fs0 : Disk) :
  exists r,
    main w fs0 = Some r
    /\ (forall p,
          (forall k, (1 <= k <= Nat.min (saved (final r) + 1) TARGET_COUNT)%nat -> p <> jpg k) ->
          disk (final r) !! p = fs0 !! p)
    /\ (forall k, (saved (final r) + 1 < k)%nat -> disk (final r) !! jpg k = fs0 !! jpg k)
    /\ (forall k, (1 <= k <= saved (final r))%nat ->
          exists f, disk (final r) !! jpg k = Some f /\ blen f <= MAX_BYTES).
Proof.
  assert (Hgoal : forall r,
    main w fs0 = Some r ->
    (forall p,
       (forall k, (0 < k <= Nat.min (saved (final r) + 1) TARGET_COUNT)%nat -> p <> jpg k) ->
       disk (final r) !! p = fs0 !! p) ->
    (forall k, (0 < k <= saved (final r))%nat ->
       exists f, disk (final r) !! jpg k = Some f /\ blen f <= MAX_BYTES) ->
    exists r,
      main w fs0 = Some r
      /\ (forall p,
            (forall k, (1 <= k <= Nat.min (saved (final r) + 1) TARGET_COUNT)%nat -> p <> jpg k) ->
            disk (final r) !! p = fs0 !! p)
      /\ (forall k, (saved (final r) + 1 < k)%nat -> disk (final r) !! jpg k = fs0 !! jpg k)
      /\ (forall k, (1 <= k <= saved (final r))%nat ->
            exists f, disk (final r) !! jpg k = Some f /\ blen f <= MAX_BYTES)).
  { intros r Hr Hfr Hfl. exists r. split; [exact Hr|]. split; [|split].
    - intros p Hp. apply Hfr. intros k Hk. apply Hp. lia.
    - intros k Hk. apply Hfr. intros j Hj Hjpg%jpg_inj. lia.
    - intros k Hk. apply Hfl. lia. }
  destruct (main_final w fs0) as (r & Hr & [(Heq & _)|(_ & Heq & _)]); cbv zeta in Heq.
  - apply (Hgoal r Hr); rewrite Heq; cbn [disk saved].
    + reflexivity.
    + intros k Hk. lia.
  - pose proof (for_images_frame w (padded r) {| disk := fs0; saved := 0; requests := 0 |}
                  ltac:(cbn; lia)) as [Hfr Hfl].
    apply (Hgoal r Hr); rewrite Heq; [exact Hfr|exact Hfl].
Qed.

Lemma for_items_distinct : forall items st,
  NoDup (dedupeKey <$> candidates_of items) ->
  (forall c, c ∈ candidates_of items -> dedupeKey c ∉ seen st) ->
  (length (images st) < TARGET_COUNT)%nat ->
  images (for_items (Obj <$> items) st)
  = images st ++ take (TARGET_COUNT - length (images st)) (candidates_of items)
  /\ halted (for_items (Obj <$> items) st) = halted st.
Proof.
  induction items as [|it rest IH]; intros st Hnd Hfresh Hshort;
    cbn [for_items fmap list_fmap].
  - cbn. rewrite take_nil, app_nil_r. split; reflexivity.
  - unfold candidates_of in *. cbn [omap list_omap] in Hnd, Hfresh |- *.
    destruct (truthy (item_url it)) as [u|]; cbn [fmap option_fmap option_map] in *;
      [|apply IH; assumption].
    fold (candidate_of u it).
    apply NoDup_cons in Hnd as [Hnew Hnd].
    destruct (decide (dedupeKey (candidate_of u it) ∈ seen st)) as [Hin|_];
      [exfalso; exact (Hfresh _ (list_elem_of_here _ _) Hin)|].
    destruct (Nat.leb_spec TARGET_COUNT
                (length (images {| images := images st ++ [candidate_of u it];
                                   seen := {[dedupeKey (candidate_of u it)]} ∪ seen st;
                                   queries := queries st; halted := halted st |})))
      as [Hfull|Hmore];
      cbn [images halted] in *; rewrite length_app in *; cbn [length] in *.
    + replace (TARGET_COUNT - length (images st))%nat with 1%nat by lia.
      cbn [take]. rewrite take_0. split; reflexivity.
    + destruct (IH {| images := images st ++ [candidate_of u it];
                      seen := {[dedupeKey (candidate_of u it)]} ∪ seen st;
                      queries := queries st; halted := halted st |}) as [Himgs Hhalt];
        cbn [images seen halted].
      * exact Hnd.
      * intros c Hc [Hk%elem_of_singleton|Hk]%elem_of_union.
        -- apply Hnew. rewrite <- Hk. apply list_elem_of_fmap. exists c. split; [reflexivity|exact Hc].
        -- exact (Hfresh c (list_elem_of_further _ _ _ Hc) Hk).
      * rewrite length_app. cbn [length]. lia.
      * split; [|exact Hhalt]. rewrite Himgs. cbn [images]. rewrite length_app. cbn [length].
        replace (TARGET_COUNT - length (images st))%nat
          with (S (TARGET_COUNT - (length (images st) + 1)))%nat by lia.
        cbn [take]. rewrite <- app_assoc. reflexivity.
Qed.

Section AllStored.

Variable w : world.

Lemma for_images_all_stored : forall imgs st,
  (saved st + length imgs <= TARGET_COUNT)%nat ->
  (forall i c, imgs !! i = Some c ->
     exists res, image_host w (requests st + i) (url c) = Response res /\ within_budget res) ->
  let r := for_images w imgs st in
  r.1 = false
  /\ saved r.2 = (saved st + length imgs)%nat
  /\ requests r.2 = (requests st + length imgs)%nat
  /\ (forall i c res, imgs !! i = Some c ->
        image_host w (requests st + i) (url c) = Response res ->
        disk r.2 !! jpg (saved st + i + 1) = Some (Buffer_concat (body res)))
  /\ (forall p, (forall k, (saved st < k <= saved st + length imgs)%nat -> p <> jpg k) ->
        disk r.2 !! p = disk st !! p).
Proof.
  induction imgs as [|c rest IH]; intros st Hroom Hhost; cbn [for_images].
  - cbn [fst snd length]. repeat split; try lia; try reflexivity.
    intros i c res Hi. discriminate Hi.
  - cbn [length] in Hroom.
    destruct (Nat.ltb_spec (saved st) TARGET_COUNT) as [_|Hfull]; [|lia].
    destruct (Hhost 0%nat c eq_refl) as (res0 & Hres0 & Hs & Hcomplete & Hh & Hb).
    rewrite Nat.add_0_r in Hres0.
    unfold url_ladder. cbn [for_urls].
    rewrite (try_url_stores_small w (url c) (jpg (saved st + 1)) st res0 Hres0 Hs Hcomplete Hh Hb).
    set (st' := {| disk := <[jpg (saved st + 1) := Buffer_concat (body res0)]> (disk st);
                   saved := S (saved st); requests := S (requests st) |}).
    specialize (IH st'). cbv zeta in IH. cbn [saved requests disk st'] in IH.
    destruct IH as (Hflag & Hsaved & Hreq & Hfiles & Hframe).
    { lia. }
    { intros i c' Hi. replace (S (requests st) + i)%nat with (requests st + S i)%nat by lia.
      apply Hhost. exact Hi. }
    fold st'. cbn [length]. split; [exact Hflag|]. split; [lia|]. split; [lia|]. split.
    + intros [|i] c' res Hi Hres.
      * cbn in Hi. injection Hi as <-. rewrite Nat.add_0_r in Hres |- *.
        rewrite Hres0 in Hres. injection Hres as <-.
        rewrite Hframe; [apply lookup_insert_eq|].
        intros k Hk Hjpg%jpg_inj. lia.
      * cbn in Hi. replace (saved st + S i + 1)%nat with (S (saved st) + i + 1)%nat by lia.
        apply (Hfiles i c' res Hi).
        replace (S (requests st) + i)%nat with (requests st + S i)%nat by lia. exact Hres.
    + intros p Hp. rewrite Hframe by (intros k Hk; apply Hp; lia).
      apply lookup_insert_ne. intros Heq. apply (Hp (saved st + 1)%nat); [lia|].
      symmetry. exact Heq.
Qed.

End AllStored.

(** End to end.  The output directory can be made; the archive's answer
    to the first query (day 0, first market) lists at least fifty usable
    items with pairwise distinct keys; and the request for the canonical
    URL of each of the first fifty is answered by a complete 200 response
    within the storage budget.  Then, from any starting directory, the run
    makes that one archive query, pads nothing, makes fifty image
    requests, saves fifty images and finishes; [i.jpg] holds the body sent
    for the [i]-th listed image, unchanged, and nothing else in the
    directory is touched. *)
Theorem first_query_fills_the_directory (w : world) (fs0 : Disk) (items : list item) :
  mkdir_error w = None ->
  archive w (buildArchiveUrl 0 BATCH_SIZE "zh-CN")
    = ArchiveResponse 200 (Some (JValue (Some (Obj <$> items)))) ->
  NoDup (dedupeKey <$> candidates_of items) ->
  (TARGET_COUNT <= length (candidates_of items))%nat ->
  (forall i c, take TARGET_COUNT (candidates_of items) !! i = Some c ->
     exists res, image_host w i (url c) = Response res /\ within_budget res) ->
  exists r,
    main w fs0 = Some r
    /\ ended r = Finished
    /\ queries (collected r) = [(0%nat, "zh-CN")]
    /\ padded r = take TARGET_COUNT (candidates_of items)
    /\ saved (final r) = TARGET_COUNT
    /\ requests (final r) = TARGET_COUNT
    /\ (forall i c res, padded r !! i = Some c ->
          image_host w i (url c) = Response res ->
          disk (final r) !! jpg (S i) = Some (Buffer_concat (body res)))
    /\ (forall p, (forall k, (1 <= k <= TARGET_COUNT)%nat -> p <> jpg k) ->
          disk (final r) !! p = fs0 !! p).
Proof.
  intros Hdir Harch Hnd Hmany Hhost.
  set (first := visit w start (0%nat, "zh-CN")).
  assert (Hfirst : images first = take TARGET_COUNT (candidates_of items)
                   /\ halted first = None).
  { unfold first, visit. cbn [fst snd]. rewrite Harch.
    cbn [fetchJson N.eqb Pos.eqb negb extractImages].
    match goal with |- context [for_items _ ?s] => set (st1 := s) end.
    destruct (for_items_distinct items st1) as [Himgs Hhalt];
      [exact Hnd|intros c _; apply not_elem_of_empty|cbn; unfold TARGET_COUNT; lia|].
    rewrite Himgs, Hhalt. split; reflexivity. }
  destruct Hfirst as [Himgs Hhalt].
  assert (Hqs : queries first = [(0%nat, "zh-CN")]).
  { unfold first, visit. cbn [fst snd]. rewrite Harch.
    cbn [fetchJson N.eqb Pos.eqb negb extractImages].
    rewrite for_items_queries. reflexivity. }
  assert (Hlen : length (images first) = TARGET_COUNT).
  { rewrite Himgs, length_take. lia. }
  assert (Hsweep : sweep w (day_major (seq 0 MAX_FETCH_DAYS)) start = first).
  { change (day_major (seq 0 MAX_FETCH_DAYS))
      with ((0%nat, "zh-CN") :: tail (day_major (seq 0 MAX_FETCH_DAYS))).
    cbn [sweep]. change (over start) with false. cbv iota. fold first.
    apply sweep_full. lia. }
  destruct (main_shape w fs0) as (r & Hr & Hshape). cbv zeta in Hshape.
  rewrite Hsweep in Hshape. exists r. split; [exact Hr|].
  destruct Hshape as [[[e He] _]|[_ [[[e He] _]|[[He _]|[(_ & He & _)|Hrun]]]]];
    [congruence|congruence|congruence|rewrite He in Hlen; discriminate Hlen|].
  destruct Hrun as (_ & _ & p & Hpad & _ & _ & _ & ->).
  assert (Hp : p = images first).
  { unfold pad in Hpad. rewrite Hlen, Nat.ltb_irrefl in Hpad. injection Hpad as <-. reflexivity. }
  subst p.
  pose proof (for_images_all_stored w (images first) {| disk := fs0; saved := 0; requests := 0 |})
    as Hall. cbv zeta in Hall. cbn [saved requests disk] in Hall.
  destruct Hall as (Hflag & Hsaved & Hreq & Hfiles & Hframe).
  { lia. }
  { intros i c Hi. cbn. rewrite Himgs in Hi. exact (Hhost i c Hi). }
  cbn [ended collected padded final].
  rewrite Hflag. split; [reflexivity|]. split; [exact Hqs|]. split; [exact Himgs|].
  split; [lia|]. split; [lia|]. split.
  - intros i c res Hi Hres. replace (S i) with (0 + i + 1)%nat by lia.
    exact (Hfiles i c res Hi Hres).
  - intros q Hq. apply Hframe. intros k Hk. apply Hq. lia.
Qed.

Lemma first_query_fills_the_directory_witness :
  exists r,
    main generous_world ∅ = Some r
    /\ ended r = Finished
    /\ queries (collected r) = [(0%nat, "zh-CN")]
    /\ padded r = take TARGET_COUNT (candidates_of (numbered_item <$> seq 0 50))
    /\ saved (final r) = TARGET_COUNT
    /\ requests (final r) = TARGET_COUNT
    /\ (forall i c res, padded r !! i = Some c ->
          image_host generous_world i (url c) = Response res ->
          disk (final r) !! jpg (S i) = Some (Buffer_concat (body res)))
    /\ (forall p, (forall k, (1 <= k <= TARGET_COUNT)%nat -> p <> jpg k) ->
          disk (final r) !! p = (∅ : Disk) !! p).
Proof.
  apply (first_query_fills_the_directory generous_world ∅ (numbered_item <$> seq 0 50)).
  - reflexivity.
  - reflexivity.
  - refine (bool_decide_unpack _ _). vm_compute. reflexivity.
  - vm_compute. lia.
  - intros i c _. exists announced_in_full. split; [reflexivity|].
    split; [reflexivity|]. split; [reflexivity|]. split.
    + intros n [= <-]. vm_compute. discriminate.
    + vm_compute. discriminate.
Defined.

(** Fifty files of five bytes each, and nothing else. *)
Lemma generous_world_run :
  option_map
    (fun r => (ended r, queries (collected r), saved (final r), requests (final r),
               size (dom (disk (final r))),
               forallb (fun k => bool_decide
                                   (blen <$> disk (final r) !! jpg k = Some 5))
                       (seq 1 50)))
    (main generous_world ∅)
  = Some (Finished, [(0%nat, "zh-CN")], 50%nat, 50%nat, 50%nat, true).
Proof. vm_compute. reflexivity. Qed.

(** The URLs tried for an entry of a run.  The entry comes from an item
    that the archive returned to one of the queries made: its canonical
    URL is the item's non-empty [url] on the Bing host, and the three
    sized URLs are built from the item's own [urlbase]; an item whose
    [urlbase] is missing or empty gets sized URLs built from the text
    [null], the same three for every such item. *)
Theorem ladder_of_collected_item (w : world) (fs0 : Disk) :
  exists r,
    main w fs0 = Some r
    /\ forall c, c ∈ padded r ->
         exists q it u,
           q ∈ queries (collected r)
           /\ Obj it ∈ items_of (archive w (archive_url q))
           /\ truthy (item_url it) = Some u
           /\ c = candidate_of u it
           /\ url_ladder c
              = ("https://www.bing.com" +:+ u)
                :: match truthy (item_urlbase it) with
                   | Some b => [ "https://www.bing.com" +:+ b +:+ "_800x600.jpg";
                                 "https://www.bing.com" +:+ b +:+ "_640x480.jpg";
                                 "https://www.bing.com" +:+ b +:+ "_400x240.jpg" ]
                   | None => [ "https://www.bing.comnull_800x600.jpg";
                               "https://www.bing.comnull_640x480.jpg";
                               "https://www.bing.comnull_400x240.jpg" ]
                   end.
Proof.
  destruct (sweep_take w (day_major (seq 0 MAX_FETCH_DAYS)) start) as (k & _ & Heq & _).
  assert (Hfrom : forall c, c ∈ images (sweep w (day_major (seq 0 MAX_FETCH_DAYS)) start) ->
            exists q it u,
              q ∈ queries (sweep w (day_major (seq 0 MAX_FETCH_DAYS)) start)
              /\ Obj it ∈ items_of (archive w (archive_url q))
              /\ truthy (item_url it) = Some u /\ c = candidate_of u it).
  { intros c Hc. rewrite Heq in Hc |- *.
    apply foldl_visit_from in Hc as [Hc|(q & it & u & Hq & Hit & Hu & ->)]; [inversion Hc|].
    exists q, it, u. rewrite foldl_visit_queries. cbn [queries start app].
    split; [exact Hq|]. split; [exact Hit|]. split; [exact Hu|reflexivity]. }
  destruct (main_shape w fs0) as (r & Hr & Hshape). cbv zeta in Hshape.
  exists r. split; [exact Hr|].
  destruct Hshape as [[_ ->]|[_ [[_ ->]|[[_ ->]|[(_ & _ & ->)|Hrun]]]]];
    [cbn [padded collected]; intros c Hc; inversion Hc..|].
  destruct Hrun as (_ & _ & p & _ & _ & _ & Hin & ->). cbn [padded collected].
  intros c Hc. destruct (Hfrom c (Hin c Hc)) as (q & it & u & Hq & Hit & Hu & ->).
  exists q, it, u. split; [exact Hq|]. split; [exact Hit|]. split; [exact Hu|].
  split; [reflexivity|].
  unfold url_ladder, candidate_of. cbn [url urlBase].
  destruct (truthy (item_urlbase it)) as [b|]; reflexivity.
Qed.

(** In [colliding_world] one item is collected, which has no [urlbase]:
    all fifty entries are that item, and their sized URLs are built from
    the text [null]. *)
Lemma ladder_of_collected_item_witness :
  exists r,
    main colliding_world ∅ = Some r
    /\ length (padded r) = 50%nat
    /\ url_ladder <$> padded r !! 49%nat
       = Some [ "https://www.bing.com/a";
                "https://www.bing.comnull_800x600.jpg";
                "https://www.bing.comnull_640x480.jpg";
                "https://www.bing.comnull_400x240.jpg" ]
    /\ forall c, c ∈ padded r ->
         exists q it u,
           q ∈ queries (collected r)
           /\ Obj it ∈ items_of (archive colliding_world (archive_url q))
           /\ truthy (item_url it) = Some u
           /\ c = candidate_of u it.
Proof.
  destruct (ladder_of_collected_item colliding_world ∅) as (r & Hr & Hladder).
  assert (Hrun : option_map
                   (fun r => (length (padded r), url_ladder <$> padded r !! 49%nat))
                   (main colliding_world ∅)
                 = Some (50%nat,
                         Some [ "https://www.bing.com/a";
                                "https://www.bing.comnull_800x600.jpg";
                                "https://www.bing.comnull_640x480.jpg";
                                "https://www.bing.comnull_400x240.jpg" ]))
    by (vm_compute; reflexivity).
  rewrite Hr in Hrun. cbn [option_map] in Hrun. injection Hrun as Hlen Hlast.
  exists r. split; [exact Hr|]. split; [exact Hlen|]. split; [exact Hlast|].
  intros c Hc. destruct (Hladder c Hc) as (q & it & u & Hq & Hit & Hu & Hc' & _).
  exists q, it, u. split; [exact Hq|]. split; [exact Hit|]. split; [exact Hu|exact Hc'].
Defined.
